(** * Input-file ingestion and symbol resolution of the Mach-O linker

    A shallow embedding of [macho/input-files.cc].  Pointers are modelled as
    addresses into explicit heaps: a heap of symbols, a heap of input files
    and a heap of subsections, each a total function from addresses to
    objects.  Fixed-width integers are [Z] with the wrap-around written
    out.  A call to [Fatal] aborts the link and is modelled by [None]. *)

From Stdlib Require Import ZArith Lia Strings.Byte Strings.Ascii.
From stdpp Require Import base decidable option list functions strings gmap sets sorting.

Open Scope Z_scope.

(** ** Machine integers *)

Definition u8 (z : Z) : Z := z mod 2 ^ 8.
Definition u32 (z : Z) : Z := z mod 2 ^ 32.
Definition u64 (z : Z) : Z := z mod 2 ^ 64.

(** A flag test [(x & mask)] converted to [bool]. *)
Definition has_flag (x mask : Z) : bool := negb (Z.land x mask =? 0).

(** ** Pointers *)

Definition FileId := nat.
Definition SubsecPtr := nat.

(** A [Symbol*] is either the canonical entry that [get_symbol] returns for
    a name, or an element of some file's [local_syms]. *)
Inductive SymPtr :=
| Interned (name : string)
| LocalSym (owner : FileId) (idx : nat).

#[global] Instance SymPtr_eq_dec : EqDecision SymPtr.
Proof. solve_decision. Defined.

Definition get_symbol (name : string) : SymPtr := Interned name.

(** ** Symbols *)

Inductive Scope := SCOPE_LOCAL | SCOPE_PRIVATE_EXTERN | SCOPE_EXTERN.

#[global] Instance Scope_eq_dec : EqDecision Scope.
Proof. solve_decision. Defined.

Module Symbol.
Record t := mk {
  name : string;
  file : option FileId;
  subsec : option SubsecPtr;
  value : Z;
  scope : Scope;
  is_imported : bool;
  is_weak : bool;
  is_common : bool
}.
End Symbol.

(** The heap of symbols. *)
Abbreviation Store := (SymPtr → Symbol.t).

(** ** Input files *)

Module InputFile.
Record t := mk {
  filename : string;
  archive_name : string;
  priority : Z;
  is_alive : bool;
  is_dylib : bool;
  is_hidden : bool;
  is_weak : bool;
  is_reexported : bool;
  syms : list SymPtr
}.

Definition set_is_alive (b : bool) (f : t) : t :=
  mk (filename f) (archive_name f) (priority f) b (is_dylib f) (is_hidden f)
     (is_weak f) (is_reexported f) (syms f).

Definition set_syms (l : list SymPtr) (f : t) : t :=
  mk (filename f) (archive_name f) (priority f) (is_alive f) (is_dylib f)
     (is_hidden f) (is_weak f) (is_reexported f) l.
End InputFile.

(** ** The linker context (the fields this file reads) *)

Record Context := mkContext {
  all_load : bool;
  hidden_l : bool;
  needed_l : bool;
  weak_l : bool;
  reexport_l : bool;
  arg_dead_strip_dylibs : bool;
  arg_syslibroot : list string
}.

(** ** [InputFile::clear_symbols] *)

(** The body of the loop for one element of [syms]; it runs under the lock
    of the symbol. *)

Definition clear_symbol (this : FileId) (st : Store) (sym : SymPtr) : Store :=
  if decide (Symbol.file (st sym) = Some this) then
    <[sym := Symbol.mk (Symbol.name (st sym)) None None 0 SCOPE_LOCAL
                       false false false]> st
  else st.

Definition clear_symbols (this : FileId) (syms : list SymPtr) (st : Store) : Store :=
  foldl (clear_symbol this) st syms.

(** ** [ObjectFile::create] and the head of [DylibFile::create] *)

Definition string_empty (s : string) : bool := bool_decide (s = EmptyString).

(** The file object as [ObjectFile::create] leaves it.  The fields it does
    not assign keep the initial values of a freshly constructed file.  The
    pool of the context, which only owns the object, is left out. *)
Definition ObjectFile_create (ctx : Context) (filename archive_name : string)
  : InputFile.t :=
  InputFile.mk filename archive_name 0
    (string_empty archive_name || all_load ctx)
    false (hidden_l ctx) false false [].

(** The file object as the first lines of [DylibFile::create] leave it,
    before the file is parsed. *)
Definition DylibFile_init (ctx : Context) (filename : string) : InputFile.t :=
  InputFile.mk filename EmptyString 0
    (needed_l ctx || negb (arg_dead_strip_dylibs ctx))
    true false (weak_l ctx) (reexport_l ctx) [].

(** ** Raw Mach-O symbol-table entries *)

Record MachSym := mkMachSym {
  ms_is_extern : bool;
  ms_type : Z;
  ms_is_private_extern : bool;
  ms_sect : Z;
  ms_desc : Z;
  ms_value : Z
}.

(** Modelled from the spec: the symbol types [N_UNDF], [N_ABS], [N_SECT] and
    the descriptor bits [N_WEAK_REF], [N_WEAK_DEF], [N_ALT_ENTRY] are declared
    in the header, not in this file; they carry the values the Mach-O format
    gives them. *)
Definition N_UNDF : Z := 0.
Definition N_ABS : Z := 1.
Definition N_SECT : Z := 7.
Definition N_WEAK_REF : Z := 64.
Definition N_WEAK_DEF : Z := 128.
Definition N_ALT_ENTRY : Z := 512.

(** Modelled from the spec: [MachSym::is_common] and [MachSym::is_undef] are
    declared in the header, not in this file.  A common symbol is a
    tentative definition whose size is the symbol's value: an extern entry of
    type [N_UNDF] with a nonzero value.  An entry of type [N_UNDF] that is
    not common is undefined. *)
Definition is_common (m : MachSym) : bool :=
  (ms_type m =? N_UNDF) && ms_is_extern m && negb (ms_value m =? 0).

Definition is_undef (m : MachSym) : bool :=
  (ms_type m =? N_UNDF) && negb (is_common m).

(** ** Subsections *)

Record Subsection := mkSubsection {
  isec : nat;
  input_offset : Z;
  input_size : Z;
  input_addr : Z;
  p2align : Z;
  unwind_offset : Z;
  nunwind : Z
}.

Abbreviation SubsecHeap := (SubsecPtr → Subsection).

(** ** The heap of file objects *)

Record ObjectFile := mkObjectFile {
  obj_base : InputFile.t;
  mach_syms : list MachSym;
  sym_to_subsec : list (option SubsecPtr);
  subsections : list SubsecPtr
}.

Record DylibFile := mkDylibFile {
  dylib_base : InputFile.t;
  install_name : string;
  reexported_libs : list string;
  exports : gset string;
  weak_exports : gset string;
  is_weak_symbol : list bool
}.

Inductive FileObj :=
| Obj (o : ObjectFile)
| Dylib (d : DylibFile).

Definition base (f : FileObj) : InputFile.t :=
  match f with
  | Obj o => obj_base o
  | Dylib d => dylib_base d
  end.

Definition with_base (b : InputFile.t) (f : FileObj) : FileObj :=
  match f with
  | Obj o => Obj (mkObjectFile b (mach_syms o) (sym_to_subsec o) (subsections o))
  | Dylib d =>
      Dylib (mkDylibFile b (install_name d) (reexported_libs d) (exports d)
                         (weak_exports d) (is_weak_symbol d))
  end.

Abbreviation Files := (FileId → FileObj).

(** [for (i = i0; i < i0 + n; i++) body], where the body can abort. *)
Fixpoint for_range {St : Type} (body : nat → St → option St) (i0 n : nat)
    (s : St) : option St :=
  match n with
  | O => Some s
  | S n' =>
      match body i0 s with
      | Some s' => for_range body (S i0) n' s'
      | None => None
      end
  end.

(** ** Symbol ranks *)

(** [get_rank(file, is_common, is_weak)].  The [assert] on a common symbol
    of a dylib is a debugging aid and is not part of the computed value. *)
Definition get_rank (file : InputFile.t) (is_common is_weak : bool) : Z :=
  if is_common then
    if negb (InputFile.is_alive file) then
      u64 (Z.shiftl 6 24 + InputFile.priority file)
    else u64 (Z.shiftl 5 24 + InputFile.priority file)
  else if InputFile.is_dylib file || negb (InputFile.is_alive file) then
    if is_weak then u64 (Z.shiftl 4 24 + InputFile.priority file)
    else u64 (Z.shiftl 3 24 + InputFile.priority file)
  else if is_weak then u64 (Z.shiftl 2 24 + InputFile.priority file)
  else u64 (Z.shiftl 1 24 + InputFile.priority file).

(** [get_rank(sym)]. *)
Definition get_rank_sym (files : Files) (sym : Symbol.t) : Z :=
  match Symbol.file sym with
  | None => Z.shiftl 7 24
  | Some f => get_rank (base (files f)) (Symbol.is_common sym) (Symbol.is_weak sym)
  end.

(** The precedence table of the resolver, row by row, as the comment above
    [get_rank] lists it: 1 strong in a live object, 2 weak in a live object,
    3 strong in a dylib or dead archive member, 4 weak in a dylib or dead
    archive member, 5 common in a live object, 6 common in a dead archive
    member. *)
Definition kind (file : InputFile.t) (is_common is_weak : bool) : Z :=
  let live_object := negb (InputFile.is_dylib file) && InputFile.is_alive file in
  match is_common, is_weak with
  | false, false => if live_object then 1 else 3
  | false, true => if live_object then 2 else 4
  | true, _ => if InputFile.is_alive file then 5 else 6
  end.

(** ** [ObjectFile::resolve_symbols] *)

Definition is_private_extern (this_file : InputFile.t) (msym : MachSym) : bool :=
  InputFile.is_hidden this_file || ms_is_private_extern msym ||
  (has_flag (ms_desc msym) N_WEAK_REF && has_flag (ms_desc msym) N_WEAK_DEF).

Definition merge_scope (this_file : InputFile.t) (sym : Symbol.t) (msym : MachSym)
  : Scope :=
  if decide (Symbol.scope sym = SCOPE_EXTERN) then SCOPE_EXTERN
  else if is_private_extern this_file msym then SCOPE_PRIVATE_EXTERN
  else SCOPE_EXTERN.

Definition set_scope (sc : Scope) (s : Symbol.t) : Symbol.t :=
  Symbol.mk (Symbol.name s) (Symbol.file s) (Symbol.subsec s) (Symbol.value s) sc
            (Symbol.is_imported s) (Symbol.is_weak s) (Symbol.is_common s).

(** The body of the loop for entry [i].  Reading a vector out of range or
    dereferencing a null subsection pointer ends the run like a fatal
    error. *)
Definition ObjectFile_resolve_symbol (files : Files) (subsecs : SubsecHeap)
    (this : FileId) (o : ObjectFile) (i : nat) (st : Store) : option Store :=
  match mach_syms o !! i, InputFile.syms (obj_base o) !! i with
  | Some msym, Some p =>
      if negb (ms_is_extern msym) || is_undef msym then Some st
      else
        let is_weak := has_flag (ms_desc msym) N_WEAK_DEF in
        let sym := set_scope (merge_scope (base (files this)) (st p) msym) (st p) in
        if get_rank (base (files this)) (is_common msym) is_weak
           <? get_rank_sym files sym then
          if ms_type msym =? N_UNDF then
            Some (<[p := Symbol.mk (Symbol.name sym) (Some this) None
                           (ms_value msym) (Symbol.scope sym) false is_weak true]> st)
          else if ms_type msym =? N_ABS then
            Some (<[p := Symbol.mk (Symbol.name sym) (Some this) None
                           (ms_value msym) (Symbol.scope sym) false is_weak false]> st)
          else if ms_type msym =? N_SECT then
            match sym_to_subsec o !! i with
            | Some (Some s) =>
                Some (<[p := Symbol.mk (Symbol.name sym) (Some this) (Some s)
                               (u64 (ms_value msym - input_addr (subsecs s)))
                               (Symbol.scope sym) false is_weak false]> st)
            | _ => None
            end
          else None
        else Some (<[p := sym]> st)
  | _, _ => None
  end.

Definition ObjectFile_resolve_symbols (files : Files) (subsecs : SubsecHeap)
    (this : FileId) (o : ObjectFile) (st : Store) : option Store :=
  for_range (ObjectFile_resolve_symbol files subsecs this o) 0
            (length (InputFile.syms (obj_base o))) st.

(** ** [DylibFile::resolve_symbols] *)

Definition DylibFile_resolve_symbol (files : Files) (this : FileId)
    (d : DylibFile) (i : nat) (st : Store) : option Store :=
  match InputFile.syms (dylib_base d) !! i with
  | Some p =>
      if get_rank (base (files this)) false false <? get_rank_sym files (st p) then
        match is_weak_symbol d !! i with
        | Some w =>
            Some (<[p := Symbol.mk (Symbol.name (st p)) (Some this) None 0 SCOPE_LOCAL
                           true (InputFile.is_weak (base (files this)) || w) false]> st)
        | None => None
        end
      else Some st
  | None => None
  end.

Definition DylibFile_resolve_symbols (files : Files) (this : FileId)
    (d : DylibFile) (st : Store) : option Store :=
  for_range (DylibFile_resolve_symbol files this d) 0
            (length (InputFile.syms (dylib_base d))) st.

(** The virtual call [file->resolve_symbols(ctx)]. *)
Definition resolve_symbol (files : Files) (subsecs : SubsecHeap)
    (this : FileId) (i : nat) (st : Store) : option Store :=
  match files this with
  | Obj o => ObjectFile_resolve_symbol files subsecs this o i st
  | Dylib d => DylibFile_resolve_symbol files this d i st
  end.

Definition resolve_symbols (files : Files) (subsecs : SubsecHeap)
    (this : FileId) (st : Store) : option Store :=
  match files this with
  | Obj o => ObjectFile_resolve_symbols files subsecs this o st
  | Dylib d => DylibFile_resolve_symbols files this d st
  end.

(** A sequence of [resolve_symbols] calls, one file after the other. *)
Fixpoint resolve_all (files : Files) (subsecs : SubsecHeap)
    (calls : list FileId) (st : Store) : option Store :=
  match calls with
  | [] => Some st
  | f :: calls' =>
      match resolve_symbols files subsecs f st with
      | Some st' => resolve_all files subsecs calls' st'
      | None => None
      end
  end.

(** Entry [i] of file [f] competes for a symbol: the symbol, and the
    [is_common] and [is_weak] flags its rank is computed with. *)
Definition candidate (files : Files) (f : FileId) (i : nat)
  : option (SymPtr * bool * bool) :=
  match files f with
  | Obj o =>
      match mach_syms o !! i, InputFile.syms (obj_base o) !! i with
      | Some msym, Some p =>
          if negb (ms_is_extern msym) || is_undef msym then None
          else Some (p, is_common msym, has_flag (ms_desc msym) N_WEAK_DEF)
      | _, _ => None
      end
  | Dylib d =>
      match InputFile.syms (dylib_base d) !! i with
      | Some p => Some (p, false, false)
      | None => None
      end
  end.

(** The weakness a dylib records on the symbol when entry [i] wins. *)
Definition dylib_records_weak (files : Files) (f : FileId) (i : nat) : bool :=
  match files f with
  | Obj _ => false
  | Dylib d =>
      InputFile.is_weak (dylib_base d) ||
      match is_weak_symbol d !! i with Some w => w | None => false end
  end.

(** A schedule of loop bodies: entry [i] of file [f], one after the other.
    Every body runs under the lock of its symbol, so a parallel run of
    [resolve_symbols] calls is one such schedule. *)
Fixpoint run_steps (files : Files) (subsecs : SubsecHeap)
    (sched : list (FileId * nat)) (st : Store) : option Store :=
  match sched with
  | [] => Some st
  | (f, i) :: sched' =>
      match resolve_symbol files subsecs f i st with
      | Some st' => run_steps files subsecs sched' st'
      | None => None
      end
  end.

Definition steps_of_file (files : Files) (f : FileId) : list (FileId * nat) :=
  (λ i, (f, i)) <$> seq 0 (length (InputFile.syms (base (files f)))).

Definition steps_of (files : Files) (calls : list FileId) : list (FileId * nat) :=
  calls ≫= steps_of_file files.

(** ** Concrete contexts *)

Definition ctx_default : Context := mkContext false false false false false true [].
Definition ctx_all_load : Context := mkContext true false false false false true [].
Definition ctx_needed : Context := mkContext false false true false false true [].

(** The state of symbol [p] after the bodies in [done] have run: it is
    unowned when no body of [done] competed for it, and otherwise it is owned
    by a competitor of [done] of smallest rank and records that
    competitor's flags. *)
Definition owner_inv (files : Files) (p : SymPtr) (done : list (FileId * nat))
    (st : Store) : Prop :=
  match Symbol.file (st p) with
  | None => ∀ f i c w, (f, i) ∈ done → candidate files f i ≠ Some (p, c, w)
  | Some f0 =>
      (∃ i0, (f0, i0) ∈ done ∧
             candidate files f0 i0 =
               Some (p, Symbol.is_common (st p), Symbol.is_weak (st p))) ∧
      ∀ f i c w, (f, i) ∈ done → candidate files f i = Some (p, c, w) →
        get_rank (base (files f0)) (Symbol.is_common (st p)) (Symbol.is_weak (st p))
        ≤ get_rank (base (files f)) c w
  end.

(** The rank entry [i] of file [f] is compared with, and the rank of the
    row of the table that the entry falls in once the weakness a dylib
    records for it is taken into account. *)
Definition compared_rank (files : Files) (f : FileId) (i : nat) : Z :=
  match candidate files f i with
  | Some (_, c, w) => get_rank (base (files f)) c w
  | None => Z.shiftl 7 24
  end.

Definition recorded_rank (files : Files) (f : FileId) (i : nat) : Z :=
  match candidate files f i with
  | Some (_, c, w) => get_rank (base (files f)) c (w || dylib_records_weak files f i)
  | None => Z.shiftl 7 24
  end.

(** The owner of [p] is a competitor among [calls] whose rank, measured by
    [rank_of], is smallest. *)
Definition owner_has_smallest_rank (files : Files) (calls : list FileId)
    (p : SymPtr) (st : Store) (rank_of : FileId → nat → Z) : Prop :=
  ∃ f i c w,
    f ∈ calls ∧ candidate files f i = Some (p, c, w) ∧
    Symbol.file (st p) = Some f ∧
    ∀ f' i' c' w', f' ∈ calls → candidate files f' i' = Some (p, c', w') →
      rank_of f i ≤ rank_of f' i'.

(** ** Concrete inputs for the resolver *)

Definition fresh_symbol (p : SymPtr) : Symbol.t :=
  Symbol.mk (match p with Interned n => n | LocalSym _ _ => EmptyString end)
            None None 0 SCOPE_LOCAL false false false.

Definition no_subsecs : SubsecHeap := λ _, mkSubsection 0 0 0 0 0 0 0.

(** An object (priority 1) and a dylib (priority 5) that both define [_f]
    strongly. *)
Definition ex_obj : ObjectFile :=
  mkObjectFile (InputFile.mk "o.o" EmptyString 1 true false false false false [Interned "_f"])
               [mkMachSym true N_ABS false 0 0 16] [None] [].

Definition ex_dylib : DylibFile :=
  mkDylibFile (InputFile.mk "libd.dylib" EmptyString 5 true true false false false
                            [Interned "_f"])
              "libd.dylib" [] {["_f"]} ∅ [false].

Definition ex_files : Files :=
  λ f, match f with O => Obj ex_obj | _ => Dylib ex_dylib end.

(** Two dylibs: the first (priority 1) exports [_x] weakly, the second
    (priority 2) exports it strongly. *)
Definition ce_dylib1 : DylibFile :=
  mkDylibFile (InputFile.mk "libw.dylib" EmptyString 1 true true false false false
                            [Interned "_x"])
              "libw.dylib" [] ∅ {["_x"]} [true].

Definition ce_dylib2 : DylibFile :=
  mkDylibFile (InputFile.mk "libs.dylib" EmptyString 2 true true false false false
                            [Interned "_x"])
              "libs.dylib" [] {["_x"]} ∅ [false].

Definition ce_files : Files :=
  λ f, match f with 1%nat => Dylib ce_dylib1 | _ => Dylib ce_dylib2 end.

(** Two live objects: the first (priority 2^24 + 1) defines [_y] strongly,
    the second (priority 1) defines it weakly. *)
Definition big_strong : ObjectFile :=
  mkObjectFile (InputFile.mk "a.o" EmptyString (2 ^ 24 + 1) true false false false false
                             [Interned "_y"])
               [mkMachSym true N_ABS false 0 0 16] [None] [].

Definition big_weak : ObjectFile :=
  mkObjectFile (InputFile.mk "b.o" EmptyString 1 true false false false false [Interned "_y"])
               [mkMachSym true N_ABS false 0 N_WEAK_DEF 16] [None] [].

Definition big_files : Files :=
  λ f, match f with O => Obj big_strong | _ => Obj big_weak end.

(** ** [ObjectFile::mark_live_objects] *)

Definition with_alive (f : FileObj) : FileObj :=
  with_base (InputFile.set_is_alive true (base f)) f.

(** [file->is_alive.exchange(true)]: the file heap afterwards. *)
Definition exchange_alive (files : Files) (g : FileId) : Files :=
  <[g := with_alive (files g)]> files.

(** The body of the loop for entry [i].  The state is the file heap and the
    sequence of files handed to [feeder] so far. *)
Definition mark_live_object (st : Store) (o : ObjectFile) (i : nat)
    (s : Files * list FileId) : option (Files * list FileId) :=
  match mach_syms o !! i, InputFile.syms (obj_base o) !! i with
  | Some msym, Some p =>
      if negb (ms_is_extern msym) then Some s
      else
        match Symbol.file (st p) with
        | None => Some s
        | Some g =>
            let keep :=
              is_undef msym || (is_common msym && negb (Symbol.is_common (st p))) in
            if keep then
              let old := InputFile.is_alive (base (s.1 g)) in
              let files' := exchange_alive s.1 g in
              if negb old then
                if negb (InputFile.is_dylib (base (files' g))) then
                  Some (files', s.2 ++ [g])
                else Some (files', s.2)
              else Some (files', s.2)
            else Some s
        end
  | _, _ => None
  end.

Definition mark_live_objects (st : Store) (o : ObjectFile) (files : Files)
  : option (Files * list FileId) :=
  for_range (mark_live_object st o) 0 (length (InputFile.syms (obj_base o)))
            (files, []).

(** The owner that entry [i] asks to keep alive, if any. *)
Definition entry_keeps (st : Store) (o : ObjectFile) (i : nat) : option FileId :=
  match mach_syms o !! i, InputFile.syms (obj_base o) !! i with
  | Some msym, Some p =>
      if ms_is_extern msym &&
         (is_undef msym || (is_common msym && negb (Symbol.is_common (st p))))
      then Symbol.file (st p)
      else None
  | _, _ => None
  end.

Definition kept_upto (st : Store) (o : ObjectFile) (n : nat) : list FileId :=
  omap (entry_keeps st o) (seq 0 n).

(** The state of the sweep once the owners in [K] have been kept alive. *)
Definition mark_live_inv (files : Files) (K : list FileId)
    (s : Files * list FileId) : Prop :=
  (∀ g, s.1 g = if decide (g ∈ K) then with_alive (files g) else files g) ∧
  NoDup s.2 ∧
  ∀ g, g ∈ s.2 ↔
       g ∈ K ∧ InputFile.is_alive (base (files g)) = false ∧
       InputFile.is_dylib (base (files g)) = false.

(** Some extern entry of [o] that is undefined, or common while the
    resolved definition is not, has owner [g]. *)
Definition keeps (st : Store) (o : ObjectFile) (g : FileId) : Prop :=
  ∃ i msym p,
    mach_syms o !! i = Some msym ∧
    InputFile.syms (obj_base o) !! i = Some p ∧
    ms_is_extern msym = true ∧
    Symbol.file (st p) = Some g ∧
    is_undef msym || (is_common msym && negb (Symbol.is_common (st p))) = true.

(** A live object with an undefined reference to [_foo]; [_foo] is owned
    by a dylib that is not alive. *)
Definition ml_obj : ObjectFile :=
  mkObjectFile (InputFile.mk "t.o" EmptyString 1 true false false false false [Interned "_foo"])
               [mkMachSym true N_UNDF false 0 0 0] [None] [].

Definition ml_dylib : DylibFile :=
  mkDylibFile (InputFile.mk "libfoo.dylib" EmptyString 2 false true false false false
                            [Interned "_foo"])
              "libfoo.dylib" [] {["_foo"]} ∅ [false].

(** The same with [_foo] owned by a member of an archive that is not
    alive. *)
Definition ml_member : ObjectFile :=
  mkObjectFile (InputFile.mk "m.o" "libA.a" 2 false false false false false
                             [Interned "_foo"])
               [mkMachSym true N_ABS false 0 0 8] [None] [].

Definition ml_files_dylib : Files :=
  λ f, match f with O => Obj ml_obj | _ => Dylib ml_dylib end.

Definition ml_files_archive : Files :=
  λ f, match f with O => Obj ml_obj | _ => Obj ml_member end.

Definition ml_store : Store :=
  λ p, Symbol.mk (match p with Interned n => n | LocalSym _ _ => EmptyString end)
                 (Some 1%nat) None 0 SCOPE_LOCAL false false false.

(** ** [ObjectFile::check_duplicate_symbols] *)

(** Modelled from the spec: [Error(ctx)] is declared in the header, not in
    this file.  A duplicate symbol is reported but does not abort: the
    message, which names this file, the owner and the symbol, is recorded
    and the loop goes on. *)
Inductive Diagnostic :=
| DuplicateSymbol (this owner : FileId) (sym : SymPtr).

(** The body of the loop for entry [i]; the state is the log of
    diagnostics.  The entries of [syms] are never null in this model. *)
Definition check_duplicate_symbol (st : Store) (this : FileId) (o : ObjectFile)
    (i : nat) (log : list Diagnostic) : option (list Diagnostic) :=
  match InputFile.syms (obj_base o) !! i, mach_syms o !! i with
  | Some sym, Some msym =>
      match Symbol.file (st sym) with
      | Some g =>
          if negb (bool_decide (g = this)) && negb (is_undef msym) &&
             negb (is_common msym) && negb (has_flag (ms_desc msym) N_WEAK_DEF)
          then Some (log ++ [DuplicateSymbol this g sym])
          else Some log
      | None => Some log
      end
  | _, _ => None
  end.

Definition check_duplicate_symbols (st : Store) (this : FileId) (o : ObjectFile)
    (log : list Diagnostic) : option (list Diagnostic) :=
  for_range (check_duplicate_symbol st this o) 0 (length (mach_syms o)) log.

(** The check run on every object file, one after the other. *)
Fixpoint check_all_duplicate_symbols (st : Store) (objs : list (FileId * ObjectFile))
    (log : list Diagnostic) : option (list Diagnostic) :=
  match objs with
  | [] => Some log
  | (this, o) :: objs' =>
      match check_duplicate_symbols st this o log with
      | Some log' => check_all_duplicate_symbols st objs' log'
      | None => None
      end
  end.

(** Entry [i] of file [this] defines [sym] strongly, and [sym] is owned by
    the other file [g]. *)
Definition is_duplicate (st : Store) (this : FileId) (o : ObjectFile) (i : nat)
    (g : FileId) (sym : SymPtr) : Prop :=
  ∃ msym,
    InputFile.syms (obj_base o) !! i = Some sym ∧
    mach_syms o !! i = Some msym ∧
    Symbol.file (st sym) = Some g ∧ g ≠ this ∧
    is_undef msym = false ∧ is_common msym = false ∧
    has_flag (ms_desc msym) N_WEAK_DEF = false.

(** The diagnostic that entry [i] gives rise to, if any. *)
Definition duplicate_at (st : Store) (this : FileId) (o : ObjectFile) (i : nat)
  : option Diagnostic :=
  match InputFile.syms (obj_base o) !! i, mach_syms o !! i with
  | Some sym, Some msym =>
      match Symbol.file (st sym) with
      | Some g =>
          if decide (g ≠ this) then
            if is_undef msym || is_common msym || has_flag (ms_desc msym) N_WEAK_DEF
            then None else Some (DuplicateSymbol this g sym)
          else None
      | None => None
      end
  | _, _ => None
  end.

Definition duplicates_of (st : Store) (x : FileId * ObjectFile) : list Diagnostic :=
  omap (duplicate_at st x.1 x.2) (seq 0 (length (mach_syms x.2))).

(** Two objects that both define [_g] strongly; the first one owns it. *)
Definition dup_obj1 : ObjectFile :=
  mkObjectFile (InputFile.mk "a.o" EmptyString 1 true false false false false [Interned "_g"])
               [mkMachSym true N_ABS false 0 0 1] [None] [].

Definition dup_obj2 : ObjectFile :=
  mkObjectFile (InputFile.mk "b.o" EmptyString 2 true false false false false [Interned "_g"])
               [mkMachSym true N_ABS false 0 0 2] [None] [].

Definition dup_store : Store :=
  λ p, Symbol.mk (match p with Interned n => n | LocalSym _ _ => EmptyString end)
                 (Some 1%nat) None 1 SCOPE_EXTERN false false false.

(** ** Sorting *)

(** Modelled from the spec: [sort(vec, less)] is a helper declared in the
    header, not in this file.  It sorts the vector by [less]; it is modelled
    as a stable sort, every element being inserted in front of the first
    element that is not smaller. *)
Fixpoint insert_sorted {A : Type} (less : A → A → bool) (x : A) (l : list A)
  : list A :=
  match l with
  | [] => [x]
  | y :: l' => if less y x then y :: insert_sorted less x l' else x :: l
  end.

Fixpoint sort {A : Type} (less : A → A → bool) (l : list A) : list A :=
  match l with
  | [] => []
  | x :: l' => insert_sorted less x (sort less l')
  end.

(** ** Splitting a regular section into regions *)

Module SplitRegion.
Record t := mk {
  offset : Z;
  size : Z;
  symidx : Z;
  is_alt_entry : bool
}.

Definition set_is_alt_entry (b : bool) (r : t) : t :=
  mk (offset r) (size r) (symidx r) b.

Definition set_size (n : Z) (r : t) : t :=
  mk (offset r) n (symidx r) (is_alt_entry r).
End SplitRegion.

(** [(u32)-1], the symbol index of a region that no symbol starts. *)
Definition NO_SYMBOL : Z := u32 (-1).

(** [for (i64 i = 1; i < r.size(); i++)
       if (r[i - 1].offset == r[i].offset) r[i++].is_alt_entry = true;]
    started at index [i].  Every round advances [i], so [length r] rounds
    of fuel are enough. *)
Fixpoint promote_alt_entries (fuel : nat) (i : nat) (r : list SplitRegion.t)
  : list SplitRegion.t :=
  match fuel with
  | O => r
  | S fuel' =>
      if bool_decide (i < length r)%nat then
        match r !! (i - 1)%nat, r !! i with
        | Some a, Some b =>
            if SplitRegion.offset a =? SplitRegion.offset b then
              promote_alt_entries fuel' (S (S i))
                (<[i := SplitRegion.set_is_alt_entry true b]> r)
            else promote_alt_entries fuel' (S i) r
        | _, _ => r
        end
      else r
  end.

(** The body of the loop that closes the sizes; the state is the vector
    and [last] ([None] for -1). *)
Definition close_size (i : nat) (s : list SplitRegion.t * option nat)
  : list SplitRegion.t * option nat :=
  match s.1 !! i with
  | Some ri =>
      if negb (SplitRegion.is_alt_entry ri) then
        (match s.2 with
         | Some last =>
             match s.1 !! last with
             | Some rl =>
                 <[last := SplitRegion.set_size
                             (u32 (SplitRegion.offset ri - SplitRegion.offset rl)) rl]> s.1
             | None => s.1
             end
         | None => s.1
         end, Some i)
      else s
  | None => s
  end.

Definition close_sizes (hdr_size : Z) (r : list SplitRegion.t) : list SplitRegion.t :=
  let s := foldl (λ s i, close_size i s) (r, None) (seq 0 (length r)) in
  match s.2 with
  | Some last =>
      match s.1 !! last with
      | Some rl =>
          <[last := SplitRegion.set_size (u32 (hdr_size - SplitRegion.offset rl)) rl]> s.1
      | None => s.1
      end
  | None => s.1
  end.

(** The body of the loop "fix regions so that they cover the entire section
    without overlapping" for one section of size [hdr_size]. *)
Definition fix_regions (hdr_size : Z) (r : list SplitRegion.t) : list SplitRegion.t :=
  match r with
  | [] => [SplitRegion.mk 0 (u32 hdr_size) NO_SYMBOL false]
  | _ =>
      let r1 := sort (λ a b, SplitRegion.offset a <? SplitRegion.offset b) r in
      let r2 :=
        match r1 with
        | a :: _ =>
            if 0 <? SplitRegion.offset a then
              SplitRegion.mk 0 (SplitRegion.offset a) NO_SYMBOL false :: r1
            else r1
        | [] => r1
        end in
      let r3 := promote_alt_entries (length r2) 1 r2 in
      close_sizes hdr_size r3
  end.

(** Three symbols at offset 0 of a section of 16 bytes, none flagged as an
    alternative entry. *)
Definition three_at_zero : list SplitRegion.t :=
  [SplitRegion.mk 0 0 0 false; SplitRegion.mk 0 0 1 false; SplitRegion.mk 0 0 2 false].

(** ** Splitting [__TEXT,__cstring] *)

(** Index of the first byte at or after position [i] of [l ++ ...] that
    satisfies [P], where [l] starts at position [i]. *)
Fixpoint find_first (P : Byte.byte → bool) (l : list Byte.byte) (i : nat)
  : option nat :=
  match l with
  | [] => None
  | b :: l' => if P b then Some i else find_first P l' (S i)
  end.

(** [str.find(c, pos)] and [str.find_first_not_of(c, pos)]; [None] is
    [npos]. *)
Definition str_find (c : Byte.byte) (str : list Byte.byte) (pos : nat) : option nat :=
  find_first (λ b, Byte.eqb b c) (drop pos str) pos.

Definition str_find_first_not_of (c : Byte.byte) (str : list Byte.byte) (pos : nat)
  : option nat :=
  find_first (λ b, negb (Byte.eqb b c)) (drop pos str) pos.

Fixpoint countr_zero_pos (p : positive) : Z :=
  match p with
  | xO p' => 1 + countr_zero_pos p'
  | _ => 0
  end.

(** [std::countr_zero] at a 64-bit unsigned argument. *)
Definition countr_zero (x : Z) : Z :=
  match x with
  | Z0 => 64
  | Zpos p => countr_zero_pos p
  | Zneg _ => 0
  end.

(** The lambda [add] of [split_subsections_via_symbols]: the subsection it
    allocates.  Its arguments are converted to [u32], [u32] and [u8]. *)
Definition add_subsection (isec : nat) (hdr_addr offset size p2align : Z) : Subsection :=
  mkSubsection isec (u32 offset) (u32 size) (u32 (hdr_addr + u32 offset))
               (u8 p2align) 0 0.

(** The [while (pos < str.size())] loop over the contents [str] of a
    [__cstring] section; [subsections] collects the subsections in the
    order they are added.  A missing terminator is fatal.  Every round
    advances [pos], so [length str] rounds of fuel are enough; running out
    of fuel gives [None]. *)
Fixpoint split_cstring (fuel : nat) (isec : nat) (hdr_addr hdr_p2align : Z)
    (str : list Byte.byte) (pos : nat) (subsections : list Subsection)
  : option (list Subsection) :=
  if bool_decide (pos < length str)%nat then
    match fuel with
    | O => None
    | S fuel' =>
        match str_find Byte.x00 str pos with
        | None => None
        | Some end0 =>
            let end1 :=
              match str_find_first_not_of Byte.x00 str end0 with
              | Some e => e
              | None => length str
              end in
            let p2align := Z.min (u8 hdr_p2align) (u8 (countr_zero (Z.of_nat pos))) in
            split_cstring fuel' isec hdr_addr hdr_p2align str end1
              (subsections ++
               [add_subsection isec hdr_addr (Z.of_nat pos)
                               (Z.of_nat end1 - Z.of_nat pos) p2align])
        end
    end
  else Some subsections.

(** The bytes ["hi\0\0yo\0"]. *)
Definition hi_yo : list Byte.byte :=
  [Byte.x68; Byte.x69; Byte.x00; Byte.x00; Byte.x79; Byte.x6f; Byte.x00].

(** ** The library search *)

Inductive FileType := TAPI | MACH_DYLIB | OTHER_FILE.

(** What [parse_tapi] or [parse_dylib] reads out of a file. *)
Record TextDylib := mkTextDylib {
  tbd_install_name : string;
  tbd_reexported_libs : list string;
  tbd_exports : gset string;
  tbd_weak_exports : gset string
}.

(** A mapped file: its name, its type as [get_file_type] reports it, and,
    for a dylib or a text stub, what its parser reads out of it. *)
Record MappedFile := mkMappedFile {
  mf_name : string;
  mf_type : FileType;
  mf_dylib : TextDylib
}.

(** A file system: [MappedFile::open] at a path. *)
Abbreviation FileSystem := (string → option MappedFile).

Definition starts_with_slash (path : string) : bool :=
  match path with
  | String c _ => bool_decide (c = "/"%char)
  | EmptyString => false
  end.

Definition ends_with (s suffix : string) : bool :=
  bool_decide (String.length suffix ≤ String.length s)%nat &&
  bool_decide (String.substring (String.length s - String.length suffix)
                                (String.length suffix) s = suffix).

(** The loop over the roots in [find_external_lib]. *)
Fixpoint find_in_roots (fs : FileSystem) (roots : list string) (path : string)
  : option MappedFile :=
  match roots with
  | [] => None
  | root :: roots' =>
      if ends_with path ".tbd" then
        match fs (root +:+ path) with
        | Some file => Some file
        | None => find_in_roots fs roots' path
        end
      else
        let in_dylib_branch :=
          if ends_with path ".dylib" then
            let stem := String.substring 0 (String.length path - 6) path in
            match fs (root +:+ stem +:+ ".tbd") with
            | Some file => Some file
            | None => fs (root +:+ path)
            end
          else None in
        match in_dylib_branch with
        | Some file => Some file
        | None =>
            match fs (root +:+ path +:+ ".tbd") with
            | Some file => Some file
            | None =>
                match fs (root +:+ path +:+ ".dylib") with
                | Some file => Some file
                | None => find_in_roots fs roots' path
                end
            end
        end
  end.

Definition find_external_lib (fs : FileSystem) (ctx : Context) (parent path : string)
  : option MappedFile :=
  if negb (starts_with_slash path) then fs path
  else find_in_roots fs (arg_syslibroot ctx) path.

(** The paths the loop opens under one root, in order. *)
Definition tried_under (root path : string) : list string :=
  if ends_with path ".tbd" then [root +:+ path]
  else
    (if ends_with path ".dylib" then
       [root +:+ String.substring 0 (String.length path - 6) path +:+ ".tbd";
        root +:+ path]
     else []) ++
    [root +:+ path +:+ ".tbd"; root +:+ path +:+ ".dylib"].

(** The first path of a list that opens. *)
Fixpoint first_open (fs : FileSystem) (paths : list string) : option MappedFile :=
  match paths with
  | [] => None
  | p :: paths' =>
      match fs p with
      | Some file => Some file
      | None => first_open fs paths'
      end
  end.

(** A file system that holds one text stub, at
    [/sdk/usr/lib/libfoo.dylib.tbd]. *)
Definition stub_file : MappedFile :=
  mkMappedFile "/sdk/usr/lib/libfoo.dylib.tbd" TAPI
               (mkTextDylib "/usr/lib/libfoo.dylib" [] {["_foo"]} ∅).

Definition fs_stub_only : FileSystem :=
  λ p, if bool_decide (p = "/sdk/usr/lib/libfoo.dylib.tbd") then Some stub_file else None.

Definition ctx_sdk : Context := mkContext false false false false false true ["/sdk"].

(** ** [DylibFile::create] *)

(** The loop over [reexported_libs]: every child is looked up, created by
    [create] (the recursive call) and merged into the two sets.  A library
    that cannot be opened is fatal.  [merge] moves the names out of the
    child's sets; nothing reads the child afterwards, and the pool that
    owns it is left out. *)
Fixpoint merge_reexports (create : MappedFile → option DylibFile)
    (fs : FileSystem) (ctx : Context) (install_name : string)
    (paths : list string) (e w : gset string) : option (gset string * gset string) :=
  match paths with
  | [] => Some (e, w)
  | path :: paths' =>
      match find_external_lib fs ctx install_name path with
      | None => None
      | Some mf =>
          match create mf with
          | None => None
          | Some child =>
              merge_reexports create fs ctx install_name paths'
                              (e ∪ exports child) (w ∪ weak_exports child)
          end
      end
  end.

(** The two loops that fill [syms] and [is_weak_symbol] side by side. *)
Definition push_exports (names : list string) (s : list SymPtr * list bool)
  : list SymPtr * list bool :=
  foldl (λ s name, (s.1 ++ [get_symbol name], s.2 ++ [false])) s names.

Definition push_weak_exports (e : gset string) (names : list string)
    (s : list SymPtr * list bool) : list SymPtr * list bool :=
  foldl (λ s name,
           if decide (name ∈ e) then s
           else (s.1 ++ [get_symbol name], s.2 ++ [true])) s names.

(** [DylibFile::create].  The parsers are represented by what they read
    out of the file ([mf_dylib]); a file that is neither a text stub nor a
    dylib is fatal.  The recursion follows the reexports and need not end
    (a library may reexport itself), hence the fuel. *)
Fixpoint DylibFile_create (fuel : nat) (fs : FileSystem) (ctx : Context)
    (mf : MappedFile) : option DylibFile :=
  match fuel with
  | O => None
  | S fuel' =>
      match mf_type mf with
      | OTHER_FILE => None
      | _ =>
          let tbd := mf_dylib mf in
          match merge_reexports (DylibFile_create fuel' fs ctx) fs ctx
                  (tbd_install_name tbd) (tbd_reexported_libs tbd)
                  (tbd_exports tbd) (tbd_weak_exports tbd) with
          | None => None
          | Some (e, w) =>
              let s := push_weak_exports e (elements w)
                         (push_exports (elements e) ([], [])) in
              Some (mkDylibFile
                      (InputFile.set_syms s.1 (DylibFile_init ctx (mf_name mf)))
                      (tbd_install_name tbd) (tbd_reexported_libs tbd) e w s.2)
          end
      end
  end.

(** [mf'] is [mf] itself or is reached from it through a chain of
    reexported libraries, each found by the library search. *)
Inductive reexported (fs : FileSystem) (ctx : Context) : MappedFile → MappedFile → Prop :=
| reexported_self (mf : MappedFile) : reexported fs ctx mf mf
| reexported_child (mf child mf' : MappedFile) (path : string) :
    path ∈ tbd_reexported_libs (mf_dylib mf) →
    find_external_lib fs ctx (tbd_install_name (mf_dylib mf)) path = Some child →
    reexported fs ctx child mf' →
    reexported fs ctx mf mf'.

(** [libbar] reexports [libfoo]; [libfoo] exports [_foo] and, weakly,
    [_wfoo]; [libbar] exports [_bar]. *)
Definition libfoo_file : MappedFile :=
  mkMappedFile "libfoo.dylib" MACH_DYLIB
               (mkTextDylib "libfoo.dylib" [] {["_foo"]} {["_wfoo"]}).

Definition libbar_file : MappedFile :=
  mkMappedFile "libbar.dylib" MACH_DYLIB
               (mkTextDylib "libbar.dylib" ["libfoo.dylib"] {["_bar"]} ∅).

Definition fs_foo_bar : FileSystem :=
  λ p, if bool_decide (p = "libfoo.dylib") then Some libfoo_file
       else if bool_decide (p = "libbar.dylib") then Some libbar_file
       else None.

(** ** Compact unwind records *)

Module UnwindRecord.
Record t := mk {
  subsec : option SubsecPtr;
  offset : Z;
  code_len : Z;
  encoding : Z;
  personality : option SymPtr;
  lsda : option SubsecPtr;
  lsda_offset : Z
}.

(** The constructor [UnwindRecord(len, enc)]. *)
Definition init (len enc : Z) : t := mk None 0 len enc None None 0.

Definition set_subsec (s : SubsecPtr) (off : Z) (r : t) : t :=
  mk (Some s) off (code_len r) (encoding r) (personality r) (lsda r) (lsda_offset r).

Definition set_personality (p : SymPtr) (r : t) : t :=
  mk (subsec r) (offset r) (code_len r) (encoding r) (Some p) (lsda r) (lsda_offset r).

Definition set_lsda (s : SubsecPtr) (off : Z) (r : t) : t :=
  mk (subsec r) (offset r) (code_len r) (encoding r) (personality r) (Some s) off.
End UnwindRecord.

Module CompactUnwindEntry.
Record t := mk {
  code_start : Z;
  code_len : Z;
  encoding : Z;
  personality : Z;
  lsda : Z
}.
End CompactUnwindEntry.

(** Modelled from the spec: the layout of [CompactUnwindEntry], which the
    header declares.  An entry is a fixed-size record of the fields
    [code_start], [code_len], [encoding], [personality] and [lsda]: 64, 32,
    32, 64 and 64 bits wide, hence 32 bytes with [personality] at offset 16
    and [lsda] at offset 24. *)
Definition sizeof_CompactUnwindEntry : Z := 32.
Definition offsetof_code_start : Z := 0.
Definition offsetof_personality : Z := 16.
Definition offsetof_lsda : Z := 24.

Module MachRel.
Record t := mk {
  offset : Z;
  idx : Z;
  is_pcrel : bool;
  p2size : Z;
  is_extern : bool;
  type : Z
}.
End MachRel.

Definition set_unwind_offset (n : Z) (s : Subsection) : Subsection :=
  mkSubsection (isec s) (input_offset s) (input_size s) (input_addr s) (p2align s)
               n (nunwind s).

Definition set_nunwind (n : Z) (s : Subsection) : Subsection :=
  mkSubsection (isec s) (input_offset s) (input_size s) (input_addr s) (p2align s)
               (unwind_offset s) n.

(** [std::upper_bound] over [subsections] with the comparison
    [addr < subsec->input_addr]: the position of the first subsection that
    starts above [addr]. *)
Fixpoint upper_bound (heap : SubsecHeap) (addr : Z) (l : list SubsecPtr) : nat :=
  match l with
  | [] => O
  | s :: l' =>
      if addr <? input_addr (heap s) then O else S (upper_bound heap addr l')
  end.

(** [ObjectFile::find_subsection]. *)
Definition find_subsection (heap : SubsecHeap) (o : ObjectFile) (addr : Z)
  : option SubsecPtr :=
  match upper_bound heap addr (subsections o) with
  | O => None
  | S it => subsections o !! it
  end.

(** [ObjectFile::find_symbol], from entry [i] on. *)
Fixpoint find_symbol_from (syms : list SymPtr) (addr : Z) (ms : list MachSym) (i : nat)
  : option SymPtr :=
  match ms with
  | [] => None
  | msym :: ms' =>
      if ms_is_extern msym && (ms_value msym =? addr) then syms !! i
      else find_symbol_from syms addr ms' (S i)
  end.

Definition find_symbol (o : ObjectFile) (addr : Z) : option SymPtr :=
  find_symbol_from (InputFile.syms (obj_base o)) addr (mach_syms o) 0.

(** The body of the loop over the relocations of the section.  [src] is
    the view of the section as entries; the literal addend of a local
    relocation is the low 32 bits of the field it applies to. *)
Definition apply_unwind_reloc (heap : SubsecHeap) (o : ObjectFile) (hdr_size : Z)
    (src : nat → CompactUnwindEntry.t) (r : MachRel.t)
    (unwind_records : list UnwindRecord.t) : option (list UnwindRecord.t) :=
  if hdr_size <=? MachRel.offset r then None
  else
    let idx := Z.to_nat (MachRel.offset r / sizeof_CompactUnwindEntry) in
    match unwind_records !! idx with
    | None => None
    | Some dst =>
        if MachRel.is_pcrel r || negb (MachRel.p2size r =? 3)
           || negb (MachRel.type r =? 0) then None
        else
          let field := MachRel.offset r mod sizeof_CompactUnwindEntry in
          if field =? offsetof_code_start then
            if MachRel.is_extern r then None
            else
              let code_start := CompactUnwindEntry.code_start (src idx) in
              match find_subsection heap o (u32 code_start) with
              | None => None
              | Some target =>
                  Some (<[idx := UnwindRecord.set_subsec target
                                   (u32 (code_start - input_addr (heap target))) dst]>
                          unwind_records)
              end
          else if field =? offsetof_personality then
            if MachRel.is_extern r then
              match InputFile.syms (obj_base o) !! Z.to_nat (MachRel.idx r) with
              | Some p => Some (<[idx := UnwindRecord.set_personality p dst]> unwind_records)
              | None => None
              end
            else
              let addr := u32 (CompactUnwindEntry.personality (src idx)) in
              match find_symbol o addr with
              | Some p => Some (<[idx := UnwindRecord.set_personality p dst]> unwind_records)
              | None => None
              end
          else if field =? offsetof_lsda then
            if MachRel.is_extern r then None
            else
              let addr := u32 (CompactUnwindEntry.lsda (src idx)) in
              match find_subsection heap o addr with
              | None => None
              | Some target =>
                  Some (<[idx := UnwindRecord.set_lsda target
                                   (u32 (addr - input_addr (heap target))) dst]>
                          unwind_records)
              end
          else None
    end.

Fixpoint apply_unwind_relocs (heap : SubsecHeap) (o : ObjectFile) (hdr_size : Z)
    (src : nat → CompactUnwindEntry.t) (rels : list MachRel.t)
    (unwind_records : list UnwindRecord.t) : option (list UnwindRecord.t) :=
  match rels with
  | [] => Some unwind_records
  | r :: rels' =>
      match apply_unwind_reloc heap o hdr_size src r unwind_records with
      | Some recs => apply_unwind_relocs heap o hdr_size src rels' recs
      | None => None
      end
  end.

(** The comparison the records are sorted with: the tuples
    [(subsec->input_addr, offset)] in lexicographic order. *)
Definition unwind_less (heap : SubsecHeap) (a b : UnwindRecord.t) : bool :=
  match UnwindRecord.subsec a, UnwindRecord.subsec b with
  | Some sa, Some sb =>
      (input_addr (heap sa) <? input_addr (heap sb)) ||
      ((input_addr (heap sa) =? input_addr (heap sb)) &&
       (UnwindRecord.offset a <? UnwindRecord.offset b))
  | _, _ => false
  end.

(** [while (j < num_entries && unwind_records[j].subsec == &subsec) j++]. *)
Fixpoint run_end (recs : list UnwindRecord.t) (s : SubsecPtr) (fuel : nat) (j : nat)
  : nat :=
  match fuel with
  | O => j
  | S fuel' =>
      match recs !! j with
      | Some r =>
          if bool_decide (UnwindRecord.subsec r = Some s) then run_end recs s fuel' (S j)
          else j
      | None => j
      end
  end.

(** The loop that associates the records with the subsections, from
    index [i] on.  Every round advances [i], so [length recs] rounds of fuel
    are enough. *)
Fixpoint install_unwind (fuel : nat) (i : nat) (recs : list UnwindRecord.t)
    (heap : SubsecHeap) : SubsecHeap :=
  match fuel with
  | O => heap
  | S fuel' =>
      match recs !! i with
      | None => heap
      | Some r =>
          match UnwindRecord.subsec r with
          | None => heap
          | Some s =>
              let heap1 := <[s := set_unwind_offset (Z.of_nat i) (heap s)]> heap in
              let j := run_end recs s (length recs) (S i) in
              let heap2 :=
                <[s := set_nunwind (Z.of_nat j - Z.of_nat i) (heap1 s)]> heap1 in
              install_unwind fuel' j recs heap2
          end
      end
  end.

(** [ObjectFile::parse_compact_unwind] for a section of [hdr_size] bytes
    with the relocations [rels]. *)
Definition parse_compact_unwind (heap : SubsecHeap) (o : ObjectFile) (hdr_size : Z)
    (src : nat → CompactUnwindEntry.t) (rels : list MachRel.t)
  : option (list UnwindRecord.t * SubsecHeap) :=
  if negb (hdr_size mod sizeof_CompactUnwindEntry =? 0) then None
  else
    let num_entries := Z.to_nat (hdr_size / sizeof_CompactUnwindEntry) in
    let recs0 :=
      (λ i, UnwindRecord.init (CompactUnwindEntry.code_len (src i))
                              (CompactUnwindEntry.encoding (src i)))
        <$> seq 0 num_entries in
    match apply_unwind_relocs heap o hdr_size src rels recs0 with
    | None => None
    | Some recs1 =>
        if forallb (λ r, bool_decide (is_Some (UnwindRecord.subsec r))) recs1 then
          let recs2 := sort (unwind_less heap) recs1 in
          Some (recs2, install_unwind (length recs2) 0 recs2 heap)
        else None
    end.

(** The pair a record is sorted by, in the order of the tuples. *)
Definition unwind_key_le (heap : SubsecHeap) (a b : UnwindRecord.t) : Prop :=
  ∃ sa sb,
    UnwindRecord.subsec a = Some sa ∧ UnwindRecord.subsec b = Some sb ∧
    (input_addr (heap sa) < input_addr (heap sb) ∨
     (input_addr (heap sa) = input_addr (heap sb) ∧
      UnwindRecord.offset a ≤ UnwindRecord.offset b)).

(** The records with indices in [[unwind_offset, unwind_offset + nunwind)]
    of subsection [s] are records of [s], and the span is not empty and
    ends at or before [bound]. *)
Definition unwind_span_ok (recs : list UnwindRecord.t) (heap : SubsecHeap)
    (s : SubsecPtr) (bound : nat) : Prop :=
  0 ≤ unwind_offset (heap s) ∧ 1 ≤ nunwind (heap s) ∧
  unwind_offset (heap s) + nunwind (heap s) ≤ Z.of_nat bound ∧
  ∀ k : nat,
    unwind_offset (heap s) ≤ Z.of_nat k < unwind_offset (heap s) + nunwind (heap s) →
    ∃ r, recs !! k = Some r ∧ UnwindRecord.subsec r = Some s.

(** The state of the association loop at index [i]. *)
Definition install_inv (recs : list UnwindRecord.t) (heap0 : SubsecHeap) (i : nat)
    (heap : SubsecHeap) : Prop :=
  (∀ s, input_addr (heap s) = input_addr (heap0 s)) ∧
  (∀ s, (∀ k r, (k < i)%nat → recs !! k = Some r → UnwindRecord.subsec r ≠ Some s) →
        heap s = heap0 s) ∧
  (∀ s k r, (k < i)%nat → recs !! k = Some r → UnwindRecord.subsec r = Some s →
            unwind_span_ok recs heap s i).

(** An object with two subsections, at addresses 0 and 16, and a section of
    three unwind entries: for code at 20, at 0 and at 16. *)
Definition cu_heap : SubsecHeap :=
  λ s, match s with
       | O => mkSubsection 0 0 16 0 0 0 0
       | _ => mkSubsection 0 16 16 16 0 0 0
       end.

Definition cu_obj : ObjectFile :=
  mkObjectFile (InputFile.mk "u.o" EmptyString 1 true false false false false []) [] []
               [0%nat; 1%nat].

Definition cu_src : nat → CompactUnwindEntry.t :=
  λ i, match i with
       | O => CompactUnwindEntry.mk 20 4 1 0 0
       | S O => CompactUnwindEntry.mk 0 16 2 0 0
       | _ => CompactUnwindEntry.mk 16 4 3 0 0
       end.

Definition cu_rels : list MachRel.t :=
  [MachRel.mk 64 2 false 3 false 0; MachRel.mk 0 2 false 3 false 0;
   MachRel.mk 32 1 false 3 false 0].


(** * Further parts of the file *)

(** The vector of subsections is sorted by ascending [input_addr], as
    [ObjectFile::parse] leaves it. *)
Definition sorted_by_addr (heap : SubsecHeap) (l : list SubsecPtr) : Prop :=
  ∀ i j si sj, (i < j)%nat → l !! i = Some si → l !! j = Some sj →
               input_addr (heap si) ≤ input_addr (heap sj).

Definition dup_files : Files :=
  λ f, match f with 1%nat => Obj dup_obj1 | _ => Obj dup_obj2 end.

(** Two regions agree in everything but the alternative-entry mark. *)
Definition same_region (a b : SplitRegion.t) : Prop :=
  SplitRegion.offset b = SplitRegion.offset a ∧
  SplitRegion.size b = SplitRegion.size a ∧
  SplitRegion.symidx b = SplitRegion.symidx a.

(** Whether the promotion loop marks region [k] of [r]: it compares the
    region with its predecessor unless it has just promoted the predecessor,
    and marks it when the two offsets are equal. *)
Fixpoint promoted (r : list SplitRegion.t) (k : nat) : bool :=
  match k with
  | O => false
  | S k' =>
      match r !! k', r !! S k' with
      | Some a, Some b =>
          (SplitRegion.offset a =? SplitRegion.offset b) && negb (promoted r k')
      | _, _ => false
      end
  end.

(** Regions sorted by three symbols of which the first two share an
    offset. *)
Definition pair_then_one : list SplitRegion.t :=
  [SplitRegion.mk 0 0 0 false; SplitRegion.mk 0 0 1 false; SplitRegion.mk 8 0 2 false].

(** What the loop that closes the sizes keeps of a region: everything but
    the size, and the size too of an alternative entry. *)
Definition same_but_size (a b : SplitRegion.t) : Prop :=
  SplitRegion.offset b = SplitRegion.offset a ∧
  SplitRegion.symidx b = SplitRegion.symidx a ∧
  SplitRegion.is_alt_entry b = SplitRegion.is_alt_entry a ∧
  (SplitRegion.is_alt_entry a = true → SplitRegion.size b = SplitRegion.size a).

(** All regions with indices strictly between [k] and [j] are alternative
    entries. *)
Definition alt_between (r : list SplitRegion.t) (k j : nat) : Prop :=
  ∀ m x, (k < m < j)%nat → r !! m = Some x → SplitRegion.is_alt_entry x = true.

(** The state of the loop that closes the sizes, at index [i]. *)
Definition close_inv (r : list SplitRegion.t) (i : nat)
    (s : list SplitRegion.t * option nat) : Prop :=
  length s.1 = length r ∧
  (∀ k a, r !! k = Some a → ∃ b, s.1 !! k = Some b ∧ same_but_size a b) ∧
  match s.2 with
  | Some l =>
      (l < i)%nat ∧ (∃ a, r !! l = Some a ∧ SplitRegion.is_alt_entry a = false) ∧
      alt_between r l i
  | None => ∀ m x, (m < i)%nat → r !! m = Some x → SplitRegion.is_alt_entry x = true
  end ∧
  ∀ k j a c, (k < j < i)%nat → r !! k = Some a → r !! j = Some c →
    SplitRegion.is_alt_entry a = false → SplitRegion.is_alt_entry c = false →
    alt_between r k j →
    ∃ b, s.1 !! k = Some b ∧
         SplitRegion.size b = u32 (SplitRegion.offset c - SplitRegion.offset a).

(** Regions of a section of 16 bytes: symbols at 0 and 8 and an
    alternative entry at 0. *)
Definition regions_0_0alt_8 : list SplitRegion.t :=
  [SplitRegion.mk 0 0 0 false; SplitRegion.mk 0 0 1 true; SplitRegion.mk 8 0 2 false].

(** What identifies a region: its offset and the symbol that starts it. *)
Definition region_key (a : SplitRegion.t) : Z * Z :=
  (SplitRegion.offset a, SplitRegion.symidx a).

(** The subsections of [l] lie back to back from [start] to [stop], and
    none is empty. *)
Fixpoint back_to_back (start : Z) (l : list Subsection) (stop : Z) : Prop :=
  match l with
  | [] => start = stop
  | s :: l' =>
      input_offset s = start ∧ 0 < input_size s ∧
      back_to_back (start + input_size s) l' stop
  end.

(** A subsection of a [__cstring] section [isec0] at address [hdr_addr] and
    alignment [hdr_p2align]: it belongs to the section, its address follows
    from its offset, and its alignment is at most the section's and divides
    its offset. *)
Definition cstring_aligned (isec0 : nat) (hdr_addr hdr_p2align : Z) (s : Subsection)
  : Prop :=
  isec s = isec0 ∧ input_addr s = u32 (hdr_addr + input_offset s) ∧
  0 ≤ p2align s ≤ u8 hdr_p2align ∧ (2 ^ p2align s | input_offset s).

(** A library that reexports itself. *)
Definition libself_file : MappedFile :=
  mkMappedFile "libself.dylib" MACH_DYLIB
               (mkTextDylib "libself.dylib" ["libself.dylib"] {["_self"]} ∅).

Definition fs_self : FileSystem :=
  λ p, if bool_decide (p = "libself.dylib") then Some libself_file else None.

(** A record is located by an entry of [__compact_unwind]: its subsection
    is the one [find_subsection] gives for the start of the code, and its
    offset is the distance of the start from that subsection. *)
Definition located_by (heap : SubsecHeap) (o : ObjectFile)
    (e : CompactUnwindEntry.t) (r : UnwindRecord.t) : Prop :=
  ∃ target,
    find_subsection heap o (u32 (CompactUnwindEntry.code_start e)) = Some target ∧
    UnwindRecord.subsec r = Some target ∧
    UnwindRecord.offset r =
      u32 (CompactUnwindEntry.code_start e - input_addr (heap target)).

(** The record of an entry: the length and the encoding are the entry's,
    and the entry locates it. *)
Definition record_of_entry (heap : SubsecHeap) (o : ObjectFile)
    (e : CompactUnwindEntry.t) (r : UnwindRecord.t) : Prop :=
  UnwindRecord.code_len r = CompactUnwindEntry.code_len e ∧
  UnwindRecord.encoding r = CompactUnwindEntry.encoding e ∧
  located_by heap o e r.

(** The relocations [parse_compact_unwind] goes on with: within the
    section, not pc-relative, eight bytes wide, of type 0, and applied to
    the field [code_start] or [lsda] (which take a relocation that is not
    extern) or to the field [personality]. *)
Definition supported_unwind_reloc (hdr_size : Z) (r : MachRel.t) : Prop :=
  MachRel.offset r < hdr_size ∧
  MachRel.is_pcrel r = false ∧ MachRel.p2size r = 3 ∧ MachRel.type r = 0 ∧
  ((MachRel.offset r mod sizeof_CompactUnwindEntry = offsetof_code_start ∧
    MachRel.is_extern r = false) ∨
   MachRel.offset r mod sizeof_CompactUnwindEntry = offsetof_personality ∨
   (MachRel.offset r mod sizeof_CompactUnwindEntry = offsetof_lsda ∧
    MachRel.is_extern r = false)).

(** The entry a relocation applies to. *)
Definition unwind_reloc_entry (r : MachRel.t) : nat :=
  Z.to_nat (MachRel.offset r / sizeof_CompactUnwindEntry).

(** ** The sort of the subsections in [ObjectFile::parse] *)

(** The comparison [a->input_addr < b->input_addr]. *)
Definition addr_less (heap : SubsecHeap) (a b : SubsecPtr) : bool :=
  input_addr (heap a) <? input_addr (heap b).

(** The object after [sort(subsections, ...)]. *)
Definition sort_subsections (heap : SubsecHeap) (o : ObjectFile) : ObjectFile :=
  mkObjectFile (obj_base o) (mach_syms o) (sym_to_subsec o)
               (sort (addr_less heap) (subsections o)).

(** ** [ObjectFile::fix_subsec_members] *)

Definition set_subsec_value (s : option SubsecPtr) (v : Z) (sym : Symbol.t) : Symbol.t :=
  Symbol.mk (Symbol.name sym) (Symbol.file sym) s v (Symbol.scope sym)
            (Symbol.is_imported sym) (Symbol.is_weak sym) (Symbol.is_common sym).

(** The subsection the loop gives entry [i]: the one recorded in
    [sym_to_subsec], or else the one [find_subsection] gives for the value of
    the entry, which the call converts to [u32]. *)
Definition subsec_of_entry (heap : SubsecHeap) (o : ObjectFile) (msym : MachSym)
    (recorded : option SubsecPtr) : option SubsecPtr :=
  match recorded with
  | Some s => Some s
  | None => find_subsection heap o (u32 (ms_value msym))
  end.

(** The body of the loop for entry [i].  Reading [syms] or [sym_to_subsec]
    out of range ends the run like a fatal error. *)
Definition fix_subsec_member (heap : SubsecHeap) (o : ObjectFile) (i : nat)
    (st : Store) : option Store :=
  match mach_syms o !! i, InputFile.syms (obj_base o) !! i with
  | Some msym, Some p =>
      if negb (ms_is_extern msym) && (ms_type msym =? N_SECT) then
        match sym_to_subsec o !! i with
        | Some recorded =>
            match subsec_of_entry heap o msym recorded with
            | Some s =>
                Some (<[p := set_subsec_value (Some s)
                               (u64 (ms_value msym - input_addr (heap s))) (st p)]> st)
            | None =>
                Some (<[p := set_subsec_value None (ms_value msym) (st p)]> st)
            end
        | None => None
        end
      else Some st
  | _, _ => None
  end.

Definition fix_subsec_members (heap : SubsecHeap) (o : ObjectFile) (st : Store)
  : option Store :=
  for_range (fix_subsec_member heap o) 0 (length (mach_syms o)) st.

(** An object with the subsections of [cu_heap] and two local symbols in
    sections, at the addresses 4 and 20; no subsection is recorded for
    them. *)
Definition fx_obj : ObjectFile :=
  mkObjectFile
    (InputFile.mk "x.o" EmptyString 1 true false false false false
                  [LocalSym 0%nat 0%nat; LocalSym 0%nat 1%nat])
    [mkMachSym false N_SECT false 1 0 4; mkMachSym false N_SECT false 1 0 20]
    [None; None] [0%nat; 1%nat].

(** ** [ObjectFile::parse_symbols] *)

(** Whether an entry of the symbol table is local. *)
Definition is_local_entry (e : string * MachSym) : bool := negb (ms_is_extern e.2).

(** The number of local entries before entry [i]. *)
Definition locals_before (entries : list (string * MachSym)) (i : nat) : nat :=
  length (filter (λ e, is_local_entry e = true) (take i entries)).

Section ParseSymbols.

(** The constructor [Symbol(name)], which the header declares: the symbol
    that [local_syms.emplace_back(name)] builds. *)
Variable Symbol_new : string → Symbol.t.

(** The local symbol of an entry as the loop leaves it: the members the
    loop does not assign are those of the constructor. *)
Definition local_symbol (this : FileId) (name : string) (msym : MachSym) : Symbol.t :=
  Symbol.mk (Symbol.name (Symbol_new name)) (Some this) None
            (if ms_type msym =? N_ABS then ms_value msym
             else Symbol.value (Symbol_new name))
            SCOPE_LOCAL (Symbol.is_imported (Symbol_new name)) false false.

(** The body of the loop for one entry, given with its name.  The state is
    [syms], the length of [local_syms] and the heap of symbols; the element
    [k] of the [local_syms] of file [this] is the symbol [LocalSym this k]. *)
Definition parse_symbol (this : FileId) (entry : string * MachSym)
    (s : list SymPtr * nat * Store) : option (list SymPtr * nat * Store) :=
  let '(syms, nlocal, st) := s in
  let '(name, msym) := entry in
  if ms_is_extern msym then Some (syms ++ [get_symbol name], nlocal, st)
  else
    let p := LocalSym this nlocal in
    if ms_type msym =? N_UNDF then None
    else if ms_type msym =? N_ABS then
      Some (syms ++ [p], S nlocal, <[p := local_symbol this name msym]> st)
    else if ms_type msym =? N_SECT then
      Some (syms ++ [p], S nlocal, <[p := local_symbol this name msym]> st)
    else None.

Fixpoint parse_symbols_loop (this : FileId) (entries : list (string * MachSym))
    (s : list SymPtr * nat * Store) : option (list SymPtr * nat * Store) :=
  match entries with
  | [] => Some s
  | entry :: entries' =>
      match parse_symbol this entry s with
      | Some s' => parse_symbols_loop this entries' s'
      | None => None
      end
  end.

(** [ObjectFile::parse_symbols].  [symtab] is the symbol table the load
    command [LC_SYMTAB] gives, every entry with its name from the string
    table, or [None] if the file has no such command. *)
Definition parse_symbols (this : FileId) (symtab : option (list (string * MachSym)))
    (o : ObjectFile) (nlocal : nat) (st : Store) : option (ObjectFile * nat * Store) :=
  match symtab with
  | None => Some (o, nlocal, st)
  | Some entries =>
      match parse_symbols_loop this entries (InputFile.syms (obj_base o), nlocal, st) with
      | Some (syms, nlocal', st') =>
          Some (mkObjectFile (InputFile.set_syms syms (obj_base o)) (snd <$> entries)
                             (sym_to_subsec o) (subsections o),
                nlocal', st')
      | None => None
      end
  end.

End ParseSymbols.

(** A symbol table of an extern symbol [_main], a local symbol in a section
    and a local absolute symbol. *)
Definition ps_entries : list (string * MachSym) :=
  [("_main", mkMachSym true N_SECT false 1 0 0);
   ("ltmp0", mkMachSym false N_SECT false 1 0 8);
   ("labs", mkMachSym false N_ABS false 0 0 42)].

(** The object as [ObjectFile::create] leaves it. *)
Definition ps_obj : ObjectFile :=
  mkObjectFile (ObjectFile_create ctx_default "a.o" EmptyString) [] [] [].

Definition ps_new (name : string) : Symbol.t := fresh_symbol (Interned name).

(** ** [ObjectFile::get_linker_options] *)

(** The string a [char *] points to in [buf], the bytes from the pointer to
    the end of the mapped file: the bytes before the first NUL, and the bytes
    behind it.  Without a NUL the read runs off the end of the file. *)
Fixpoint read_c_string (buf : list Byte.byte)
  : option (list Byte.byte * list Byte.byte) :=
  match buf with
  | [] => None
  | b :: buf' =>
      if Byte.eqb b Byte.x00 then Some ([], buf')
      else
        match read_c_string buf' with
        | Some (s, rest) => Some (b :: s, rest)
        | None => None
        end
  end.

(** The loop [for (i64 i = 0; i < cmd->count; i++)]. *)
Fixpoint linker_options_loop (count : nat) (buf : list Byte.byte)
    (vec : list (list Byte.byte)) : option (list (list Byte.byte)) :=
  match count with
  | O => Some vec
  | S count' =>
      match read_c_string buf with
      | Some (s, rest) => linker_options_loop count' rest (vec ++ [s])
      | None => None
      end
  end.

(** [ObjectFile::get_linker_options].  [is_bitcode] is what
    [get_file_type] says of the file; [cmd] is the load command
    [LC_LINKER_OPTION] if the file has one: its [count] and the bytes behind
    it. *)
Definition get_linker_options (is_bitcode : bool) (cmd : option (Z * list Byte.byte))
  : option (list (list Byte.byte)) :=
  if is_bitcode then Some []
  else
    match cmd with
    | None => Some []
    | Some (count, buf) => linker_options_loop (Z.to_nat count) buf []
    end.

(** The strings laid out one behind the other, each with its terminator. *)
Definition c_strings (strs : list (list Byte.byte)) : list Byte.byte :=
  strs ≫= λ s, s ++ [Byte.x00].

(** ** [ObjectFile::convert_common_symbols] *)

(** The members of a section header that this file names. *)
Record MachSection := mkMachSection {
  sec_sectname : string;
  sec_segname : string;
  sec_addr : Z;
  sec_size : Z;
  sec_offset : Z;
  sec_p2align : Z;
  sec_reloff : Z;
  sec_nreloc : Z;
  sec_type : Z;
  sec_attr : Z
}.

(** Modelled from the spec: the section type [S_ZEROFILL] is declared in
    the header, not in this file; it marks a zero-fill section and carries
    the value the Mach-O format gives it. *)
Definition S_ZEROFILL : Z := 1.

(** The header [get_common_sec] builds: all zero but for the two names and
    the type. *)
Definition common_hdr : MachSection :=
  mkMachSection "__common" "__DATA" 0 0 0 0 0 0 S_ZEROFILL 0.

(** What [convert_common_symbols] reads and writes: the heap of symbols,
    the heap of subsections with the address [new] gives next (no address
    from there on is in use), and of the object the vector [subsections], the
    vector [sections] (a section is named by its index in it) and
    [common_sec]. *)
Record CommonState := mkCommonState {
  cs_store : Store;
  cs_heap : SubsecHeap;
  cs_next : SubsecPtr;
  cs_subsections : list SubsecPtr;
  cs_sections : list (option MachSection);
  cs_common_sec : option nat
}.

(** [ObjectFile::get_common_sec]. *)
Definition get_common_sec (s : CommonState) : nat * CommonState :=
  match cs_common_sec s with
  | Some isec => (isec, s)
  | None =>
      let isec := length (cs_sections s) in
      (isec,
       mkCommonState (cs_store s) (cs_heap s) (cs_next s) (cs_subsections s)
                     (cs_sections s ++ [Some common_hdr]) (Some isec))
  end.

(** The file owns the symbol and the symbol is common. *)
Definition owned_common (this : FileId) (sym : Symbol.t) : bool :=
  bool_decide (Symbol.file sym = Some this) && Symbol.is_common sym.

(** The symbol after the five assignments of the loop. *)
Definition converted_symbol (sub : SubsecPtr) (sym : Symbol.t) : Symbol.t :=
  Symbol.mk (Symbol.name sym) (Symbol.file sym) (Some sub) 0 (Symbol.scope sym)
            false false false.

Section ConvertCommonSymbols.

(** The member [p2align] of a symbol-table entry, which the header
    declares. *)
Variable msym_p2align : MachSym → Z.

(** The subsection the loop allocates for an entry; the members it does not
    name keep their initial value, zero. *)
Definition common_subsection (isec : nat) (msym : MachSym) : Subsection :=
  mkSubsection isec 0 (u32 (ms_value msym)) 0 (u8 (msym_p2align msym)) 0 0.

(** The body of the loop for entry [i].  Reading [syms] out of range ends
    the run like a fatal error. *)
Definition convert_common_symbol (this : FileId) (o : ObjectFile) (i : nat)
    (s : CommonState) : option CommonState :=
  match mach_syms o !! i, InputFile.syms (obj_base o) !! i with
  | Some msym, Some p =>
      if owned_common this (cs_store s p) then
        let '(isec, s1) := get_common_sec s in
        let subsec := cs_next s1 in
        Some (mkCommonState
                (<[p := converted_symbol subsec (cs_store s1 p)]> (cs_store s1))
                (<[subsec := common_subsection isec msym]> (cs_heap s1))
                (S subsec)
                (cs_subsections s1 ++ [subsec])
                (cs_sections s1) (cs_common_sec s1))
      else Some s
  | _, _ => None
  end.

Definition convert_common_symbols (this : FileId) (o : ObjectFile) (s : CommonState)
  : option CommonState :=
  for_range (convert_common_symbol this o) 0 (length (mach_syms o)) s.

(** [common_sec], when set, is the index of a section with the header of
    the common section. *)
Definition common_sec_ok (s : CommonState) : Prop :=
  ∀ isec, cs_common_sec s = Some isec →
          cs_sections s !! isec = Some (Some common_hdr).

(** The state of the loop at index [i], started in [s]. *)
Definition common_inv (this : FileId) (o : ObjectFile) (s : CommonState) (i : nat)
    (st : CommonState) : Prop :=
  common_sec_ok st ∧
  (cs_next s ≤ cs_next st)%nat ∧
  ((cs_sections st = cs_sections s ∧ cs_common_sec st = cs_common_sec s) ∨
   (cs_common_sec s = None ∧ cs_sections st = cs_sections s ++ [Some common_hdr] ∧
    cs_common_sec st = Some (length (cs_sections s)))) ∧
  cs_subsections st = cs_subsections s ++ seq (cs_next s) (cs_next st - cs_next s) ∧
  (∀ q, (q < cs_next s)%nat → cs_heap st q = cs_heap s q) ∧
  (∀ p, cs_store st p = cs_store s p ∨
        ∃ j msym sub isec,
          (j < i)%nat ∧ mach_syms o !! j = Some msym ∧
          InputFile.syms (obj_base o) !! j = Some p ∧
          owned_common this (cs_store s p) = true ∧
          cs_store st p = converted_symbol sub (cs_store s p) ∧
          (cs_next s ≤ sub < cs_next st)%nat ∧
          cs_heap st sub = common_subsection isec msym ∧
          cs_common_sec st = Some isec) ∧
  (∀ j p, (j < i)%nat → InputFile.syms (obj_base o) !! j = Some p →
          owned_common this (cs_store st p) = false) ∧
  (∀ p p' sub, cs_store st p ≠ cs_store s p → cs_store st p' ≠ cs_store s p' →
               Symbol.subsec (cs_store st p) = Some sub →
               Symbol.subsec (cs_store st p') = Some sub → p = p').

End ConvertCommonSymbols.

(** An object whose symbol [_x] is common, of size 16, and whose symbol
    [_y] is defined in a section; the file owns both, and [_x] is recorded
    common. *)
Definition cc_obj : ObjectFile :=
  mkObjectFile
    (InputFile.mk "c.o" EmptyString 1 true false false false false
                  [Interned "_x"; Interned "_y"])
    [mkMachSym true N_UNDF false 0 768 16; mkMachSym true N_SECT false 1 0 0]
    [None; None] [].

Definition cc_store : Store :=
  λ p, Symbol.mk (match p with Interned n => n | LocalSym _ _ => EmptyString end)
                 (Some 0%nat) None 16 SCOPE_EXTERN false false
                 (bool_decide (p = Interned "_x")).

Definition cc_state : CommonState :=
  mkCommonState cc_store no_subsecs 0%nat [] [] None.

(** For the example, an alignment read from bits 8 to 11 of the descriptor. *)
Definition cc_p2align (msym : MachSym) : Z := Z.land (Z.shiftr (ms_desc msym) 8) 15.

(** ** The subsections of a regular section *)

(** The slot of [sym_to_subsec] a region with a symbol writes. *)
Definition slot (r : SplitRegion.t) : nat := Z.to_nat (SplitRegion.symidx r).

(** The body of the loop of [split_subsections_via_symbols] over the
    regions of a section [isec] with address [hdr_addr] and alignment
    [hdr_p2align].  The state is the vector [subsections] and
    [sym_to_subsec]; a pointer to a subsection is its position in
    [subsections], which only grows here.  [subsections.back()] of an empty
    vector and a symbol index that [sym_to_subsec] does not have end the run
    like a fatal error. *)
Definition add_region (isec : nat) (hdr_addr hdr_p2align : Z) (r : SplitRegion.t)
    (s : list Subsection * list (option nat))
  : option (list Subsection * list (option nat)) :=
  let subsections :=
    if SplitRegion.is_alt_entry r then s.1
    else s.1 ++ [add_subsection isec hdr_addr (SplitRegion.offset r)
                                (SplitRegion.size r) hdr_p2align] in
  if SplitRegion.symidx r =? NO_SYMBOL then Some (subsections, s.2)
  else
    match subsections with
    | [] => None
    | _ :: _ =>
        if bool_decide (slot r < length s.2)%nat then
          Some (subsections, <[slot r := Some (pred (length subsections))]> s.2)
        else None
    end.

Fixpoint add_regions (isec : nat) (hdr_addr hdr_p2align : Z)
    (rs : list SplitRegion.t) (s : list Subsection * list (option nat))
  : option (list Subsection * list (option nat)) :=
  match rs with
  | [] => Some s
  | r :: rs' =>
      match add_region isec hdr_addr hdr_p2align r s with
      | Some s' => add_regions isec hdr_addr hdr_p2align rs' s'
      | None => None
      end
  end.

(** The subsections of the regions that are not alternative entries. *)
Definition region_subsections (isec : nat) (hdr_addr hdr_p2align : Z)
    (rs : list SplitRegion.t) : list Subsection :=
  (λ r, add_subsection isec hdr_addr (SplitRegion.offset r) (SplitRegion.size r)
                       hdr_p2align)
    <$> filter (λ r, SplitRegion.is_alt_entry r = false) rs.

(** The subsections of [l] lie back to back from [start] to [stop]. *)
Fixpoint tiles (start : Z) (l : list Subsection) (stop : Z) : Prop :=
  match l with
  | [] => start = stop
  | s :: l' =>
      input_offset s = start ∧ 0 ≤ input_size s ∧
      tiles (start + input_size s) l' stop
  end.

(** Regions sorted by ascending offset. *)
Definition sorted_by_offset (r : list SplitRegion.t) : Prop :=
  ∀ i j a b, (i < j)%nat → r !! i = Some a → r !! j = Some b →
             SplitRegion.offset a ≤ SplitRegion.offset b.

(** The regions of two symbols, at the offsets 8 and 4 of a section, and of
    an alternative entry at offset 8. *)
Definition regions_8_4_8alt : list SplitRegion.t :=
  [SplitRegion.mk 8 0 0 false; SplitRegion.mk 4 0 1 false; SplitRegion.mk 8 0 2 true].


(** * Properties *)

(** ** Clearing the symbols of a file *)

Lemma clear_symbol_at (this : FileId) (st : Store) (sym p : SymPtr) :
  clear_symbol this st sym p =
    if decide (p = sym ∧ Symbol.file (st p) = Some this) then
      Symbol.mk (Symbol.name (st p)) None None 0 SCOPE_LOCAL false false false
    else st p.
Proof.
  unfold clear_symbol.
  destruct (decide (Symbol.file (st sym) = Some this)) as [Hown|Hown].
  - destruct (decide (p = sym)) as [->|Hne].
    + rewrite fn_lookup_insert. rewrite decide_True; [done | by split].
    + rewrite fn_lookup_insert_ne by congruence.
      rewrite decide_False; [done | tauto].
  - rewrite decide_False; [done |].
    intros [-> ?]. contradiction.
Qed.

(** C10: [clear_symbols] resets exactly the symbols of [syms] that the file
    owns to the unowned state ([file] null, [scope] local, not imported, not
    weak, no subsection, value 0, not common; the name stays), and leaves
    every other symbol, whether owned by another file, unowned or outside
    [syms], as it was. *)
Theorem clear_symbols_frame (this : FileId) (syms : list SymPtr) (st : Store)
    (p : SymPtr) :
  clear_symbols this syms st p =
    if decide (p ∈ syms ∧ Symbol.file (st p) = Some this) then
      Symbol.mk (Symbol.name (st p)) None None 0 SCOPE_LOCAL false false false
    else st p.
Proof.
  unfold clear_symbols. revert st.
  induction syms as [|x l IH]; intros st.
  - by simpl.
  - cbn [foldl]. rewrite IH, clear_symbol_at. clear IH.
    destruct (decide (p = x ∧ Symbol.file (st p) = Some this)) as [[Hpx Hown]|Hn].
    + subst x. cbn [Symbol.file]. case_decide as H1; [destruct H1 as [_ ?]; discriminate |].
      case_decide as H2; [done |].
      exfalso. apply H2. split; [apply list_elem_of_here | done].
    + case_decide as H1; case_decide as H2; try done.
      * exfalso. apply H2. destruct H1. split; [by apply list_elem_of_further | done].
      * exfalso. destruct H2 as [Hin Hown].
        apply elem_of_cons in Hin as [->|Hin]; tauto.
Qed.

(** ** Liveness at construction *)

(** C7, as the code has it: an object file that does not come from an
    archive is alive at construction; an archive member is alive at
    construction exactly when the all-load flag of the context is set; a
    dylib created while the needed flag is set is alive at construction. *)
Theorem create_is_alive (ctx : Context) (filename archive_name : string) :
  (archive_name = EmptyString →
     InputFile.is_alive (ObjectFile_create ctx filename archive_name) = true) ∧
  (archive_name ≠ EmptyString →
     InputFile.is_alive (ObjectFile_create ctx filename archive_name) = all_load ctx) ∧
  (needed_l ctx = true →
     InputFile.is_alive (DylibFile_init ctx filename) = true).
Proof.
  unfold ObjectFile_create, DylibFile_init, string_empty; simpl.
  split; [|split].
  - intros ->. by rewrite bool_decide_eq_true_2.
  - intros Hne. by rewrite bool_decide_eq_false_2.
  - by intros ->.
Qed.

Lemma create_is_alive_witness :
  InputFile.is_alive (ObjectFile_create ctx_default "a.o" EmptyString) = true ∧
  InputFile.is_alive (ObjectFile_create ctx_default "m.o" "libA.a") = false ∧
  InputFile.is_alive (DylibFile_init ctx_needed "libfoo.dylib") = true.
Proof.
  split; [|split].
  - apply (create_is_alive ctx_default "a.o" EmptyString). reflexivity.
  - apply (proj1 (proj2 (create_is_alive ctx_default "m.o" "libA.a"))). discriminate.
  - apply (create_is_alive ctx_needed "libfoo.dylib" EmptyString). reflexivity.
Defined.

(** C7, counterexample: under the all-load flag an archive member is alive
    as soon as it is constructed. *)
Lemma archive_member_alive_under_all_load :
  ¬ (∀ (ctx : Context) (filename archive_name : string),
       archive_name ≠ EmptyString →
       InputFile.is_alive (ObjectFile_create ctx filename archive_name) = false).
Proof.
  intros H. specialize (H ctx_all_load "m.o" "libA.a").
  discriminate H. discriminate.
Qed.

(** ** Ranks *)

Lemma kind_range (file : InputFile.t) (c w : bool) : 1 ≤ kind file c w ≤ 6.
Proof.
  unfold kind.
  destruct c, w, (InputFile.is_dylib file), (InputFile.is_alive file); simpl; lia.
Qed.

Lemma get_rank_kind (file : InputFile.t) (c w : bool) :
  0 ≤ InputFile.priority file < 2 ^ 24 →
  get_rank file c w = kind file c w * 2 ^ 24 + InputFile.priority file.
Proof.
  intros Hp. unfold get_rank, kind, u64. rewrite !Z.shiftl_mul_pow2 by lia.
  destruct c, w, (InputFile.is_dylib file), (InputFile.is_alive file); simpl negb;
    simpl orb; simpl andb; cbv iota; apply Z.mod_small; lia.
Qed.

Lemma get_rank_below_unowned (file : InputFile.t) (c w : bool) :
  0 ≤ InputFile.priority file < 2 ^ 24 →
  get_rank file c w < Z.shiftl 7 24.
Proof.
  intros Hp. rewrite get_rank_kind by done.
  pose proof (kind_range file c w). rewrite Z.shiftl_mul_pow2 by lia. lia.
Qed.

Lemma get_rank_sym_set_scope (files : Files) (sc : Scope) (s : Symbol.t) :
  get_rank_sym files (set_scope sc s) = get_rank_sym files s.
Proof. done. Qed.

(** ** One loop body of the resolver *)

Section Resolve.
Context (files : Files) (subsecs : SubsecHeap).

Lemma defined_type_common (msym : MachSym) :
  negb (ms_is_extern msym) || is_undef msym = false →
  is_common msym = (ms_type msym =? N_UNDF).
Proof.
  unfold is_undef, is_common.
  destruct (ms_type msym =? N_UNDF), (ms_is_extern msym), (ms_value msym =? 0);
    simpl; congruence.
Qed.

(** What a loop body does to a given symbol [p]. *)
Lemma resolve_symbol_effect (p : SymPtr) (f : FileId) (i : nat) (st st' : Store) :
  resolve_symbol files subsecs f i st = Some st' →
  match candidate files f i with
  | Some (q, c, w) =>
      if decide (q = p) then
        if get_rank (base (files f)) c w <? get_rank_sym files (st p) then
          Symbol.file (st' p) = Some f ∧
          Symbol.is_common (st' p) = c ∧
          Symbol.is_weak (st' p) = w || dylib_records_weak files f i
        else
          Symbol.file (st' p) = Symbol.file (st p) ∧
          Symbol.is_common (st' p) = Symbol.is_common (st p) ∧
          Symbol.is_weak (st' p) = Symbol.is_weak (st p)
      else st' p = st p
  | None => st' p = st p
  end.
Proof.
  unfold resolve_symbol, candidate, dylib_records_weak.
  destruct (files f) as [o|d] eqn:Hf; cbn [base].
  - unfold ObjectFile_resolve_symbol. rewrite Hf. cbn [base].
    destruct (mach_syms o !! i) as [msym|]; [|discriminate].
    destruct (InputFile.syms (obj_base o) !! i) as [q|]; [|discriminate].
    destruct (negb (ms_is_extern msym) || is_undef msym) eqn:Hdef.
    { intros [= <-]. done. }
    pose proof (defined_type_common msym Hdef) as Hc.
    rewrite get_rank_sym_set_scope.
    destruct (decide (q = p)) as [->|Hne].
    + destruct (_ <? _).
      * rewrite orb_false_r.
        destruct (ms_type msym =? N_UNDF) eqn:Ht1.
        { intros [= <-]. rewrite fn_lookup_insert. by rewrite Hc. }
        destruct (ms_type msym =? N_ABS).
        { intros [= <-]. rewrite fn_lookup_insert. by rewrite Hc. }
        destruct (ms_type msym =? N_SECT); [|discriminate].
        destruct (sym_to_subsec o !! i) as [[s|]|]; try discriminate.
        intros [= <-]. rewrite fn_lookup_insert. by rewrite Hc.
      * intros [= <-]. rewrite fn_lookup_insert. done.
    + destruct (_ <? _).
      * destruct (ms_type msym =? N_UNDF).
        { intros [= <-]. by rewrite fn_lookup_insert_ne. }
        destruct (ms_type msym =? N_ABS).
        { intros [= <-]. by rewrite fn_lookup_insert_ne. }
        destruct (ms_type msym =? N_SECT); [|discriminate].
        destruct (sym_to_subsec o !! i) as [[s|]|]; try discriminate.
        intros [= <-]. by rewrite fn_lookup_insert_ne.
      * intros [= <-]. by rewrite fn_lookup_insert_ne.
  - unfold DylibFile_resolve_symbol. rewrite Hf. cbn [base].
    destruct (InputFile.syms (dylib_base d) !! i) as [q|]; [|discriminate].
    destruct (decide (q = p)) as [->|Hne].
    + destruct (_ <? _).
      * destruct (is_weak_symbol d !! i) as [w|]; [|discriminate].
        intros [= <-]. rewrite fn_lookup_insert. done.
      * intros [= <-]. done.
    + destruct (_ <? _).
      * destruct (is_weak_symbol d !! i) as [w|]; [|discriminate].
        intros [= <-]. by rewrite fn_lookup_insert_ne.
      * intros [= <-]. done.
Qed.
End Resolve.

(** ** The owner after a schedule of loop bodies *)

Section Owner.
Context (files : Files) (subsecs : SubsecHeap) (p : SymPtr).

Lemma owner_inv_unowned (st : Store) :
  Symbol.file (st p) = None → owner_inv files p [] st.
Proof.
  intros H. unfold owner_inv. rewrite H.
  intros f i c w Hin. by apply not_elem_of_nil in Hin.
Qed.

Lemma owner_inv_same_elements (l1 l2 : list (FileId * nat)) (st : Store) :
  (∀ x, x ∈ l1 ↔ x ∈ l2) → owner_inv files p l1 st → owner_inv files p l2 st.
Proof.
  intros Heq. unfold owner_inv.
  destruct (Symbol.file (st p)) as [f0|].
  - intros [[i0 [Hin Hc]] Hmin]. split.
    + exists i0. split; [by apply Heq | done].
    + intros f i c w Hin'. apply Hmin. by apply Heq.
  - intros H f i c w Hin. apply H. by apply Heq.
Qed.

Lemma resolve_symbol_inv (done : list (FileId * nat)) (f : FileId) (i : nat)
    (st st' : Store) :
  0 ≤ InputFile.priority (base (files f)) < 2 ^ 24 →
  (∀ c w, candidate files f i = Some (p, c, w) →
          dylib_records_weak files f i = false) →
  owner_inv files p done st →
  resolve_symbol files subsecs f i st = Some st' →
  owner_inv files p ((f, i) :: done) st'.
Proof.
  intros Hprio Hweak Hinv Hstep.
  pose proof (resolve_symbol_effect files subsecs p f i st st' Hstep) as Heff.
  destruct (candidate files f i) as [[[q c] w]|] eqn:Hcand.
  - destruct (decide (q = p)) as [->|Hne].
    + rewrite (Hweak c w eq_refl), orb_false_r in Heff.
      destruct (get_rank (base (files f)) c w <? get_rank_sym files (st p)) eqn:Hlt.
      * destruct Heff as (Hfile & Hc & Hw).
        unfold owner_inv in *. rewrite Hfile, Hc, Hw. split.
        { exists i. split; [apply list_elem_of_here | done]. }
        intros f' i' c' w' Hin Hc'.
        apply elem_of_cons in Hin as [[= -> ->]|Hin].
        { rewrite Hcand in Hc'. injection Hc' as <- <-. lia. }
        apply Z.ltb_lt in Hlt. unfold get_rank_sym in Hlt.
        destruct (Symbol.file (st p)) as [f0|].
        -- destruct Hinv as [_ Hmin]. specialize (Hmin f' i' c' w' Hin Hc'). lia.
        -- by destruct (Hinv f' i' c' w' Hin).
      * destruct Heff as (Hfile & Hc & Hw).
        apply Z.ltb_ge in Hlt. unfold get_rank_sym in Hlt.
        unfold owner_inv in *. rewrite Hfile, Hc, Hw.
        destruct (Symbol.file (st p)) as [f0|].
        -- destruct Hinv as [[i0 [Hin0 Hc0]] Hmin]. split.
           { exists i0. split; [by apply list_elem_of_further | done]. }
           intros f' i' c' w' Hin Hc'.
           apply elem_of_cons in Hin as [[= -> ->]|Hin]; [|by eapply Hmin].
           rewrite Hcand in Hc'. injection Hc' as <- <-. done.
        -- pose proof (get_rank_below_unowned (base (files f)) c w Hprio). lia.
    + unfold owner_inv in *. rewrite Heff.
      destruct (Symbol.file (st p)) as [f0|].
      * destruct Hinv as [[i0 [Hin0 Hc0]] Hmin]. split.
        { exists i0. split; [by apply list_elem_of_further | done]. }
        intros f' i' c' w' Hin Hc'.
        apply elem_of_cons in Hin as [[= -> ->]|Hin]; [|by eapply Hmin].
        rewrite Hcand in Hc'. congruence.
      * intros f' i' c' w' Hin Hc'.
        apply elem_of_cons in Hin as [[= -> ->]|Hin]; [|by eapply Hinv].
        rewrite Hcand in Hc'. congruence.
  - unfold owner_inv in *. rewrite Heff.
    destruct (Symbol.file (st p)) as [f0|].
    + destruct Hinv as [[i0 [Hin0 Hc0]] Hmin]. split.
      { exists i0. split; [by apply list_elem_of_further | done]. }
      intros f' i' c' w' Hin Hc'.
      apply elem_of_cons in Hin as [[= -> ->]|Hin]; [|by eapply Hmin].
      rewrite Hcand in Hc'. discriminate.
    + intros f' i' c' w' Hin Hc'.
      apply elem_of_cons in Hin as [[= -> ->]|Hin]; [|by eapply Hinv].
      rewrite Hcand in Hc'. discriminate.
Qed.

Lemma run_steps_inv (sched done : list (FileId * nat)) (st st' : Store) :
  (∀ f i, (f, i) ∈ sched → 0 ≤ InputFile.priority (base (files f)) < 2 ^ 24) →
  (∀ f i c w, (f, i) ∈ sched → candidate files f i = Some (p, c, w) →
              dylib_records_weak files f i = false) →
  owner_inv files p done st →
  run_steps files subsecs sched st = Some st' →
  owner_inv files p (sched ++ done) st'.
Proof.
  revert done st.
  induction sched as [|[f i] sched IH]; intros done st Hprio Hweak Hinv Hrun.
  - injection Hrun as <-. done.
  - cbn [run_steps] in Hrun.
    destruct (resolve_symbol files subsecs f i st) as [st1|] eqn:Hstep;
      [|discriminate].
    assert (owner_inv files p ((f, i) :: done) st1) as Hinv1.
    { eapply resolve_symbol_inv; eauto.
      - eapply Hprio, list_elem_of_here.
      - intros c w. eapply Hweak, list_elem_of_here. }
    specialize (IH ((f, i) :: done) st1).
    eapply owner_inv_same_elements; [|apply IH; eauto].
    + intros x. cbn [app]. rewrite elem_of_cons, !elem_of_app, elem_of_cons. tauto.
    + intros f' i' Hin. eapply Hprio. by apply list_elem_of_further.
    + intros f' i' c w Hin. eapply Hweak. by apply list_elem_of_further.
Qed.
End Owner.

(** ** Calls as schedules *)

Lemma run_steps_app (files : Files) (subsecs : SubsecHeap)
    (l1 l2 : list (FileId * nat)) (st : Store) :
  run_steps files subsecs (l1 ++ l2) st =
    match run_steps files subsecs l1 st with
    | Some st' => run_steps files subsecs l2 st'
    | None => None
    end.
Proof.
  revert st. induction l1 as [|[f i] l1 IH]; intros st; [done|].
  cbn [app run_steps]. destruct (resolve_symbol files subsecs f i st); [apply IH | done].
Qed.

Lemma for_range_run_steps (files : Files) (subsecs : SubsecHeap) (f : FileId)
    (body : nat → Store → option Store) (i0 n : nat) (st : Store) :
  (∀ i s, body i s = resolve_symbol files subsecs f i s) →
  for_range body i0 n st = run_steps files subsecs ((λ i, (f, i)) <$> seq i0 n) st.
Proof.
  intros Hbody. revert i0 st.
  induction n as [|n IH]; intros i0 st; [done|].
  cbn [for_range seq fmap list_fmap run_steps]. rewrite Hbody.
  destruct (resolve_symbol files subsecs f i0 st); [apply IH | done].
Qed.

Lemma resolve_symbols_run_steps (files : Files) (subsecs : SubsecHeap)
    (f : FileId) (st : Store) :
  resolve_symbols files subsecs f st =
    run_steps files subsecs (steps_of_file files f) st.
Proof.
  unfold resolve_symbols, steps_of_file.
  destruct (files f) as [o|d] eqn:Hf; cbn [base].
  - apply for_range_run_steps. intros i s. unfold resolve_symbol. by rewrite Hf.
  - apply for_range_run_steps. intros i s. unfold resolve_symbol. by rewrite Hf.
Qed.

Lemma resolve_all_run_steps (files : Files) (subsecs : SubsecHeap)
    (calls : list FileId) (st : Store) :
  resolve_all files subsecs calls st =
    run_steps files subsecs (steps_of files calls) st.
Proof.
  revert st. induction calls as [|f calls IH]; intros st; [done|].
  unfold steps_of. cbn [resolve_all mbind list_bind]. fold (steps_of files calls).
  rewrite run_steps_app, resolve_symbols_run_steps.
  destruct (run_steps files subsecs (steps_of_file files f) st); [apply IH | done].
Qed.

Lemma candidate_in_steps (files : Files) (calls : list FileId) (f : FileId)
    (i : nat) (x : SymPtr * bool * bool) :
  f ∈ calls → candidate files f i = Some x → (f, i) ∈ steps_of files calls.
Proof.
  intros Hin Hc. unfold steps_of. apply list_elem_of_bind. exists f. split; [|done].
  unfold steps_of_file. apply list_elem_of_fmap. exists i. split; [done|].
  apply elem_of_seq. split; [lia|]. cbn.
  unfold candidate in Hc. destruct (files f) as [o|d]; cbn [base].
  - destruct (mach_syms o !! i); [|discriminate].
    destruct (InputFile.syms (obj_base o) !! i) eqn:Hs; [|discriminate].
    by apply lookup_lt_Some in Hs.
  - destruct (InputFile.syms (dylib_base d) !! i) eqn:Hs; [|discriminate].
    by apply lookup_lt_Some in Hs.
Qed.

Lemma steps_of_in_calls (files : Files) (calls : list FileId) (f : FileId) (i : nat) :
  (f, i) ∈ steps_of files calls → f ∈ calls.
Proof.
  unfold steps_of. intros H. apply list_elem_of_bind in H as (g & Hin & Hg).
  unfold steps_of_file in Hin. apply list_elem_of_fmap in Hin as (j & [= -> ->] & _).
  done.
Qed.

(** ** The owner after all calls *)

(** The precedence the resolver keeps.  When the file priorities lie in
    [0, 2^24) and
    no dylib competitor for the symbol is recorded weak, then after all
    [resolve_symbols] calls complete, in whatever order they ran, a symbol
    that started unowned and has at least one defined candidate is owned by
    a candidate of numerically smallest rank; the symbol records that
    candidate's common and weak flags; every rank is [kind << 24 + priority]
    with the kind of the seven-row table; and the owner's (kind, priority)
    pair is the smallest in lexicographic order. *)
Theorem resolve_all_owner_min_rank (files : Files) (subsecs : SubsecHeap)
    (calls : list FileId) (st0 st : Store) (p : SymPtr) :
  (∀ f, f ∈ calls → 0 ≤ InputFile.priority (base (files f)) < 2 ^ 24) →
  (∀ f i c w, f ∈ calls → candidate files f i = Some (p, c, w) →
              dylib_records_weak files f i = false) →
  Symbol.file (st0 p) = None →
  resolve_all files subsecs calls st0 = Some st →
  (∃ f i c w, f ∈ calls ∧ candidate files f i = Some (p, c, w)) →
  ∃ f i,
    f ∈ calls ∧
    candidate files f i = Some (p, Symbol.is_common (st p), Symbol.is_weak (st p)) ∧
    Symbol.file (st p) = Some f ∧
    get_rank_sym files (st p) =
      Z.shiftl (kind (base (files f)) (Symbol.is_common (st p)) (Symbol.is_weak (st p))) 24
      + InputFile.priority (base (files f)) ∧
    ∀ f' i' c' w', f' ∈ calls → candidate files f' i' = Some (p, c', w') →
      get_rank (base (files f')) c' w' =
        Z.shiftl (kind (base (files f')) c' w') 24 + InputFile.priority (base (files f')) ∧
      get_rank_sym files (st p) ≤ get_rank (base (files f')) c' w' ∧
      (kind (base (files f)) (Symbol.is_common (st p)) (Symbol.is_weak (st p))
         < kind (base (files f')) c' w' ∨
       (kind (base (files f)) (Symbol.is_common (st p)) (Symbol.is_weak (st p))
          = kind (base (files f')) c' w' ∧
        InputFile.priority (base (files f)) ≤ InputFile.priority (base (files f')))).
Proof.
  intros Hprio Hweak Hst0 Hrun (f1 & i1 & c1 & w1 & Hin1 & Hc1).
  rewrite resolve_all_run_steps in Hrun.
  assert (owner_inv files p (steps_of files calls ++ []) st) as Hinv.
  { eapply run_steps_inv; eauto.
    - intros f i Hin. eapply Hprio, steps_of_in_calls, Hin.
    - intros f i c w Hin. eapply Hweak, steps_of_in_calls, Hin.
    - by apply owner_inv_unowned. }
  rewrite app_nil_r in Hinv. unfold owner_inv in Hinv.
  destruct (Symbol.file (st p)) as [f0|] eqn:Hfile.
  - destruct Hinv as [[i0 [Hin0 Hc0]] Hmin].
    pose proof (steps_of_in_calls _ _ _ _ Hin0) as Hf0.
    exists f0, i0. split; [done|]. split; [done|]. split; [done|].
    unfold get_rank_sym. rewrite Hfile.
    rewrite (get_rank_kind (base (files f0))) by auto.
    rewrite !Z.shiftl_mul_pow2 by lia. split; [done|].
    intros f' i' c' w' Hin' Hc'.
    specialize (Hmin f' i' c' w' (candidate_in_steps _ _ _ _ _ Hin' Hc') Hc').
    rewrite (get_rank_kind (base (files f0))) in Hmin by auto.
    rewrite (get_rank_kind (base (files f'))) in * by auto.
    rewrite !Z.shiftl_mul_pow2 by lia.
    pose proof (Hprio f0 Hf0). pose proof (Hprio f' Hin').
    split; [done|]. split; [done|]. lia.
  - exfalso. eapply Hinv; [|exact Hc1]. eapply candidate_in_steps; eauto.
Qed.

Lemma resolve_all_owner_min_rank_witness :
  match resolve_all ex_files no_subsecs [1%nat; 0%nat] fresh_symbol with
  | Some st =>
      Symbol.file (st (Interned "_f")) = Some 0%nat ∧
      get_rank_sym ex_files (st (Interned "_f")) = Z.shiftl 1 24 + 1
  | None => False
  end.
Proof.
  destruct (resolve_all ex_files no_subsecs [1%nat; 0%nat] fresh_symbol)
    as [st|] eqn:Hrun; [|vm_compute in Hrun; discriminate].
  destruct (resolve_all_owner_min_rank ex_files no_subsecs [1%nat; 0%nat]
              fresh_symbol st (Interned "_f")) as (f & i & Hin & Hc & Hfile & Hrank & Hmin).
  - intros f Hf. apply elem_of_cons in Hf as [->|Hf]; [vm_compute; intuition discriminate|].
    apply elem_of_cons in Hf as [->|Hf]; [vm_compute; intuition discriminate|].
    by apply not_elem_of_nil in Hf.
  - intros f i c w _ _. destruct f as [|f]; [done|]. destruct i as [|[|i]]; done.
  - reflexivity.
  - exact Hrun.
  - exists 0%nat, 0%nat, false, false. split; [|reflexivity].
    apply list_elem_of_further, list_elem_of_here.
  - destruct (Hmin 0%nat 0%nat false false) as (_ & Hle & Hlex).
    { apply list_elem_of_further, list_elem_of_here. }
    { reflexivity. }
    destruct (Hmin 1%nat 0%nat false false) as (_ & Hle' & Hlex').
    { apply list_elem_of_here. }
    { reflexivity. }
    assert (f = 0%nat) as ->.
    { apply elem_of_cons in Hin as [->|Hin].
      - exfalso. destruct (Symbol.is_common (st (Interned "_f"))),
          (Symbol.is_weak (st (Interned "_f"))); vm_compute in Hlex;
          destruct Hlex as [?|[? ?]]; congruence.
      - apply elem_of_cons in Hin as [->|Hin]; [done|]. by apply not_elem_of_nil in Hin. }
    split; [done|]. rewrite Hrank.
    destruct i as [|[|i]]; try discriminate Hc.
    injection Hc as <- <-. reflexivity.
Defined.

(** Where the owner is not of the smallest rank.  First, two dylibs export
    [_x], one of them weakly.  A dylib always competes as a strong definition and records the
    weakness afterwards, so the owner depends on the order of the calls:
    whichever call runs last wins.  Measured by the ranks the entries are
    compared with, the owner after the order first-second is not the
    smallest; measured by the rows of the table, the owner after the order
    second-first is not the smallest.  Second, a priority of 2^24 or more
    runs into the bits of the kind: the weak definition of priority 1 keeps
    [_y] against the strong definition of priority 2^24 + 1, whose kind is
    smaller. *)
Lemma owner_not_of_smallest_rank :
  (∃ st, resolve_all ce_files no_subsecs [1%nat; 2%nat] fresh_symbol = Some st ∧
         ¬ owner_has_smallest_rank ce_files [1%nat; 2%nat] (Interned "_x") st
             (compared_rank ce_files)) ∧
  (∃ st, resolve_all ce_files no_subsecs [2%nat; 1%nat] fresh_symbol = Some st ∧
         ¬ owner_has_smallest_rank ce_files [2%nat; 1%nat] (Interned "_x") st
             (recorded_rank ce_files)) ∧
  (∃ st, resolve_all big_files no_subsecs [1%nat; 0%nat] fresh_symbol = Some st ∧
         Symbol.file (st (Interned "_y")) = Some 1%nat ∧
         candidate big_files 0%nat 0%nat = Some (Interned "_y", false, false) ∧
         candidate big_files 1%nat 0%nat = Some (Interned "_y", false, true) ∧
         kind (base (big_files 0%nat)) false false
           < kind (base (big_files 1%nat)) false true).
Proof.
  split; [|split].
  - eexists. split; [vm_compute; reflexivity|].
    intros (f & i & c & w & _ & Hc & Hfile & Hmin).
    vm_compute in Hfile. injection Hfile as <-.
    destruct i as [|[|i]]; try discriminate Hc.
    specialize (Hmin 1%nat 0%nat false false (list_elem_of_here _ _) eq_refl).
    vm_compute in Hmin. by apply Hmin.
  - eexists. split; [vm_compute; reflexivity|].
    intros (f & i & c & w & _ & Hc & Hfile & Hmin).
    vm_compute in Hfile. injection Hfile as <-.
    destruct i as [|[|i]]; try discriminate Hc.
    specialize (Hmin 2%nat 0%nat false false (list_elem_of_here _ _) eq_refl).
    vm_compute in Hmin. by apply Hmin.
  - eexists. split; [vm_compute; reflexivity|]. repeat split.
Qed.

(** C1, the code at two dylibs.  The dylib of priority 1 exports [_x]
    weakly, the dylib of priority 2 exports it strongly: by the table the
    first is a weak definition in a dylib (kind 4) and the second a strong
    one (kind 3), so the second has the smaller rank.  The resolver of a
    dylib compares every export as a strong definition and records the
    weakness afterwards.  When the strong dylib is resolved
    first and the weak one second, the weak one takes the symbol: the owner
    is the dylib of priority 1, the symbol is recorded weak, and the rank of
    the competitor it displaced is smaller than the rank the symbol has.  In
    the other order the strong dylib owns the symbol. *)
Theorem DylibFile_resolve_symbols_weak_takes_strong :
  (∃ st, resolve_all ce_files no_subsecs [2%nat; 1%nat] fresh_symbol = Some st ∧
         Symbol.file (st (Interned "_x")) = Some 1%nat ∧
         Symbol.is_weak (st (Interned "_x")) = true ∧
         candidate ce_files 2%nat 0%nat = Some (Interned "_x", false, false) ∧
         kind (base (ce_files 2%nat)) false false = 3 ∧
         kind (base (ce_files 1%nat)) false true = 4 ∧
         get_rank (base (ce_files 2%nat)) false false
           < get_rank_sym ce_files (st (Interned "_x"))) ∧
  (∃ st, resolve_all ce_files no_subsecs [1%nat; 2%nat] fresh_symbol = Some st ∧
         Symbol.file (st (Interned "_x")) = Some 2%nat ∧
         Symbol.is_weak (st (Interned "_x")) = false).
Proof.
  split; eexists; (split; [vm_compute; reflexivity|]); by repeat split.
Qed.

(** ** Loops *)

Lemma for_range_inv {St : Type} (body : nat → St → option St)
    (P : nat → St → Prop) (i0 n : nat) (s s' : St) :
  P i0 s →
  (∀ i t t', (i0 ≤ i < i0 + n)%nat → P i t → body i t = Some t' → P (S i) t') →
  for_range body i0 n s = Some s' →
  P (i0 + n)%nat s'.
Proof.
  revert i0 s. induction n as [|n IH]; intros i0 s H0 Hstep Hrun.
  - injection Hrun as <-. by rewrite Nat.add_0_r.
  - cbn [for_range] in Hrun. destruct (body i0 s) as [s1|] eqn:Hb; [|discriminate].
    replace (i0 + S n)%nat with (S i0 + n)%nat by lia.
    apply (IH (S i0) s1); [|intros i t t' Hi; apply Hstep; lia|done].
    apply (Hstep i0 s s1); [lia|done|done].
Qed.

(** ** The mark-live sweep *)

Lemma base_with_base (b : InputFile.t) (f : FileObj) : base (with_base b f) = b.
Proof. by destruct f. Qed.

Lemma with_alive_idemp (f : FileObj) : with_alive (with_alive f) = with_alive f.
Proof. by destruct f. Qed.

Lemma with_alive_is_alive (f : FileObj) : InputFile.is_alive (base (with_alive f)) = true.
Proof. by destruct f. Qed.

Lemma with_alive_is_dylib (f : FileObj) :
  InputFile.is_dylib (base (with_alive f)) = InputFile.is_dylib (base f).
Proof. by destruct f. Qed.

Lemma kept_upto_S (st : Store) (o : ObjectFile) (n : nat) :
  kept_upto st o (S n) =
    kept_upto st o n ++ match entry_keeps st o n with Some g => [g] | None => [] end.
Proof.
  unfold kept_upto. by rewrite seq_S, omap_app.
Qed.

Lemma mark_live_object_effect (st : Store) (o : ObjectFile) (i : nat)
    (s s' : Files * list FileId) :
  mark_live_object st o i s = Some s' →
  s' = match entry_keeps st o i with
       | None => s
       | Some g =>
           (exchange_alive s.1 g,
            if negb (InputFile.is_alive (base (s.1 g))) &&
               negb (InputFile.is_dylib (base (s.1 g)))
            then s.2 ++ [g] else s.2)
       end.
Proof.
  unfold mark_live_object, entry_keeps.
  destruct (mach_syms o !! i) as [msym|]; [|discriminate].
  destruct (InputFile.syms (obj_base o) !! i) as [p|]; [|discriminate].
  destruct (ms_is_extern msym); cbn [negb andb]; [|by intros [= <-]].
  destruct (Symbol.file (st p)) as [g|].
  2:{ intros [= <-]. by destruct (is_undef msym || _). }
  destruct (is_undef msym || _); [|by intros [= <-]].
  unfold exchange_alive at 1. rewrite fn_lookup_insert, with_alive_is_dylib.
  destruct (InputFile.is_alive (base (s.1 g))); cbn [negb andb]; [by intros [= <-]|].
  destruct (InputFile.is_dylib (base (s.1 g))); cbn [negb]; by intros [= <-].
Qed.

Lemma mark_live_object_inv (st : Store) (o : ObjectFile) (files : Files) (i : nat)
    (s s' : Files * list FileId) :
  mark_live_inv files (kept_upto st o i) s →
  mark_live_object st o i s = Some s' →
  mark_live_inv files (kept_upto st o (S i)) s'.
Proof.
  intros (Hfiles & Hnodup & Hfed) Hstep.
  apply mark_live_object_effect in Hstep. subst s'. rewrite kept_upto_S.
  destruct (entry_keeps st o i) as [g|]; [|by rewrite app_nil_r].
  set (K := kept_upto st o i) in *.
  assert (∀ g', g' ∈ K ++ [g] ↔ g' ∈ K ∨ g' = g) as Hin.
  { intros g'. rewrite elem_of_app, list_elem_of_singleton. tauto. }
  split; [|split]; cbn [fst snd].
  - intros g'. unfold exchange_alive.
    destruct (decide (g = g')) as [<-|Hne].
    + rewrite fn_lookup_insert, Hfiles.
      rewrite (decide_True (P := g ∈ K ++ [g])) by (apply Hin; tauto).
      destruct (decide (g ∈ K)); [apply with_alive_idemp | done].
    + rewrite fn_lookup_insert_ne by done. rewrite Hfiles.
      destruct (decide (g' ∈ K)) as [HK|HK].
      * rewrite decide_True; [done | apply Hin; tauto].
      * rewrite decide_False; [done |]. rewrite Hin. intros [?|?]; [done | congruence].
  - destruct (_ && _) eqn:Hnew; [|done].
    apply NoDup_app. split; [done|]. split; [|apply NoDup_singleton].
    intros g' Hg' Heq. apply list_elem_of_singleton in Heq as ->.
    apply Hfed in Hg' as (HK & _ & _).
    rewrite Hfiles, decide_True in Hnew by done.
    by rewrite with_alive_is_alive in Hnew.
  - intros g'. rewrite Hin.
    rewrite Hfiles.
    destruct (decide (g ∈ K)) as [HK|HK].
    + rewrite with_alive_is_alive. cbn [negb andb]. rewrite Hfed.
      split; [tauto|]. intros [[?| ->] ?]; tauto.
    + destruct (InputFile.is_alive (base (files g))) eqn:Ha; cbn [negb andb].
      { rewrite Hfed. split; [tauto|]. intros [[?| ->] [? ?]]; [tauto | congruence]. }
      destruct (InputFile.is_dylib (base (files g))) eqn:Hd; cbn [negb].
      { rewrite Hfed. split; [tauto|]. intros [[?| ->] [? ?]]; [tauto | congruence]. }
      rewrite elem_of_app, list_elem_of_singleton, Hfed.
      split; [intros [?| ->]; tauto | tauto].
Qed.

Lemma elem_of_kept_upto (st : Store) (o : ObjectFile) (g : FileId) :
  g ∈ kept_upto st o (length (InputFile.syms (obj_base o))) ↔ keeps st o g.
Proof.
  unfold kept_upto, keeps. rewrite list_elem_of_omap. split.
  - intros (i & _ & Hk). unfold entry_keeps in Hk.
    destruct (mach_syms o !! i) as [msym|] eqn:Hm; [|discriminate].
    destruct (InputFile.syms (obj_base o) !! i) as [p|] eqn:Hp; [|discriminate].
    destruct (ms_is_extern msym) eqn:He; [|discriminate].
    destruct (is_undef msym || _) eqn:Hkeep; [|discriminate].
    exists i, msym, p. by rewrite Hkeep.
  - intros (i & msym & p & Hm & Hp & He & Hf & Hkeep).
    exists i. split.
    + apply elem_of_seq. apply lookup_lt_Some in Hp. lia.
    + unfold entry_keeps. by rewrite Hm, Hp, He, Hkeep.
Qed.

(** C3, as the code has it: the sweep over an object sets [is_alive] of the
    owner of every extern entry that is undefined, or common while the
    resolved definition is not common, and it does so for every such owner,
    dylib or not; nothing else in the file heap changes.  The files handed
    to the feeder are handed once each, and they are exactly the owners so
    kept that are not dylibs and were not alive before the sweep. *)
Theorem mark_live_objects_spec (st : Store) (o : ObjectFile) (files files' : Files)
    (fed : list FileId) :
  mark_live_objects st o files = Some (files', fed) →
  (∀ g, keeps st o g →
        files' g = with_alive (files g) ∧
        InputFile.is_alive (base (files' g)) = true) ∧
  (∀ g, ¬ keeps st o g → files' g = files g) ∧
  NoDup fed ∧
  (∀ g, g ∈ fed ↔
        keeps st o g ∧ InputFile.is_alive (base (files g)) = false ∧
        InputFile.is_dylib (base (files g)) = false).
Proof.
  intros Hrun. unfold mark_live_objects in Hrun.
  apply (for_range_inv _ (λ n s, mark_live_inv files (kept_upto st o n) s)) in Hrun.
  - cbn [Nat.add] in Hrun. destruct Hrun as (Hfiles & Hnodup & Hfed).
    cbn [fst snd] in *.
    split; [|split; [|split]].
    + intros g Hk. apply elem_of_kept_upto in Hk.
      rewrite Hfiles, decide_True by done. split; [done | apply with_alive_is_alive].
    + intros g Hk. rewrite <- elem_of_kept_upto in Hk.
      by rewrite Hfiles, decide_False.
    + done.
    + intros g. by rewrite Hfed, elem_of_kept_upto.
  - split; [|split]; cbn [fst snd].
    + intros g. rewrite decide_False; [done | apply not_elem_of_nil].
    + apply NoDup_nil_2.
    + intros g. split; [intros H; by apply not_elem_of_nil in H|].
      intros [H _]. by apply not_elem_of_nil in H.
  - intros i t t' _. apply mark_live_object_inv.
Qed.

Lemma mark_live_objects_spec_witness :
  match mark_live_objects ml_store ml_obj ml_files_archive with
  | Some (files', fed) =>
      InputFile.is_alive (base (files' 1%nat)) = true ∧ 1%nat ∈ fed
  | None => False
  end.
Proof.
  destruct (mark_live_objects ml_store ml_obj ml_files_archive)
    as [[files' fed]|] eqn:Hrun; [|vm_compute in Hrun; discriminate].
  destruct (mark_live_objects_spec _ _ _ _ _ Hrun) as (Hkept & _ & _ & Hfed).
  assert (keeps ml_store ml_obj 1%nat) as Hk.
  { exists 0%nat, (mkMachSym true N_UNDF false 0 0 0), (Interned "_foo").
    repeat split; reflexivity. }
  split.
  - by apply Hkept.
  - apply Hfed. split; [done|]. split; reflexivity.
Defined.

(** C3, counterexample: the owner of the undefined [_foo] is a dylib that
    is not alive; the sweep sets its [is_alive] and feeds nothing. *)
Lemma mark_live_sets_dylib_alive :
  ∃ files' fed,
    mark_live_objects ml_store ml_obj ml_files_dylib = Some (files', fed) ∧
    InputFile.is_dylib (base (ml_files_dylib 1%nat)) = true ∧
    InputFile.is_alive (base (ml_files_dylib 1%nat)) = false ∧
    InputFile.is_alive (base (files' 1%nat)) = true ∧
    fed = [].
Proof.
  eexists. eexists. split; [vm_compute; reflexivity|].
  repeat split; reflexivity.
Qed.

(** ** The duplicate-symbol check *)

Lemma check_duplicate_symbol_effect (st : Store) (this : FileId) (o : ObjectFile)
    (i : nat) (log : list Diagnostic) :
  (i < length (mach_syms o))%nat →
  (length (mach_syms o) ≤ length (InputFile.syms (obj_base o)))%nat →
  check_duplicate_symbol st this o i log =
    Some (log ++ match duplicate_at st this o i with Some d => [d] | None => [] end).
Proof.
  intros Hi Hlen. unfold check_duplicate_symbol, duplicate_at.
  destruct (lookup_lt_is_Some_2 (mach_syms o) i Hi) as [msym ->].
  destruct (lookup_lt_is_Some_2 (InputFile.syms (obj_base o)) i) as [sym ->]; [lia|].
  destruct (Symbol.file (st sym)) as [g|]; [|by rewrite app_nil_r].
  destruct (decide (g ≠ this)) as [Hne|Heq].
  - rewrite bool_decide_eq_false_2 by done.
    destruct (is_undef msym), (is_common msym), (has_flag (ms_desc msym) N_WEAK_DEF);
      cbn [negb andb orb]; by rewrite ?app_nil_r.
  - rewrite bool_decide_eq_true_2 by (by destruct (decide (g = this))).
    cbn [negb andb]. by rewrite app_nil_r.
Qed.

Lemma check_duplicate_symbols_range (st : Store) (this : FileId) (o : ObjectFile)
    (i0 n : nat) (log : list Diagnostic) :
  (i0 + n ≤ length (mach_syms o))%nat →
  (length (mach_syms o) ≤ length (InputFile.syms (obj_base o)))%nat →
  for_range (check_duplicate_symbol st this o) i0 n log =
    Some (log ++ omap (duplicate_at st this o) (seq i0 n)).
Proof.
  revert i0 log. induction n as [|n IH]; intros i0 log Hn Hlen.
  - by rewrite app_nil_r.
  - cbn [for_range seq]. rewrite check_duplicate_symbol_effect by (done || lia).
    rewrite IH by (done || lia). rewrite <- app_assoc. do 2 f_equal.
    cbn [omap list_omap]. by destruct (duplicate_at st this o i0).
Qed.

Lemma duplicate_at_Some (st : Store) (this : FileId) (o : ObjectFile) (i : nat)
    (d : Diagnostic) :
  duplicate_at st this o i = Some d ↔
  ∃ g sym, d = DuplicateSymbol this g sym ∧ is_duplicate st this o i g sym.
Proof.
  unfold duplicate_at, is_duplicate. split.
  - destruct (InputFile.syms (obj_base o) !! i) as [sym|]; [|discriminate].
    destruct (mach_syms o !! i) as [msym|]; [|discriminate].
    destruct (Symbol.file (st sym)) as [g|] eqn:Hfile; [|discriminate].
    destruct (decide (g ≠ this)); [|discriminate].
    destruct (is_undef msym) eqn:?, (is_common msym) eqn:?,
      (has_flag (ms_desc msym) N_WEAK_DEF) eqn:?; cbn [orb]; try discriminate.
    intros [= <-]. exists g, sym. split; [done|]. by exists msym.
  - intros (g & sym & -> & msym & -> & -> & -> & Hne & -> & -> & ->).
    destruct (decide (g ≠ this)); [done | contradiction].
Qed.

(** C9: running the check on every object file (each with one symbol per
    symbol-table entry) never aborts; it logs one diagnostic, naming this
    file, the owner and the symbol, for each entry whose symbol is owned by
    a different file while the entry is not undefined, not common and
    without the weak-definition bit, in the order of the files and entries,
    and it logs nothing else. *)
Theorem check_duplicate_symbols_reports_all (st : Store)
    (objs : list (FileId * ObjectFile)) (log : list Diagnostic) :
  Forall (λ x, (length (mach_syms x.2) ≤ length (InputFile.syms (obj_base x.2)))%nat)
         objs →
  check_all_duplicate_symbols st objs log = Some (log ++ objs ≫= duplicates_of st) ∧
  ∀ d, d ∈ objs ≫= duplicates_of st ↔
       ∃ this o i g sym,
         (this, o) ∈ objs ∧ d = DuplicateSymbol this g sym ∧
         is_duplicate st this o i g sym.
Proof.
  intros Hlen. split.
  - revert log. induction Hlen as [|[this o] objs Hx _ IH]; intros log.
    + by rewrite app_nil_r.
    + cbn [check_all_duplicate_symbols]. unfold check_duplicate_symbols.
      rewrite check_duplicate_symbols_range by (done || lia).
      rewrite IH. cbn [mbind list_bind]. by rewrite app_assoc.
  - intros d. rewrite list_elem_of_bind. split.
    + intros ([this o] & Hd & Hin). unfold duplicates_of in Hd. cbn [fst snd] in Hd.
      apply list_elem_of_omap in Hd as (i & _ & Hd).
      apply duplicate_at_Some in Hd as (g & sym & -> & Hdup).
      by exists this, o, i, g, sym.
    + intros (this & o & i & g & sym & Hin & -> & Hdup).
      exists (this, o). split; [|done]. unfold duplicates_of. cbn [fst snd].
      apply list_elem_of_omap. exists i. split.
      * destruct Hdup as (msym & _ & Hm & _). apply lookup_lt_Some in Hm.
        apply elem_of_seq. lia.
      * apply duplicate_at_Some. by exists g, sym.
Qed.

Lemma check_duplicate_symbols_reports_all_witness :
  check_all_duplicate_symbols dup_store [(1%nat, dup_obj1); (2%nat, dup_obj2)] [] =
    Some [DuplicateSymbol 2%nat 1%nat (Interned "_g")].
Proof.
  apply (proj1 (check_duplicate_symbols_reports_all dup_store
                  [(1%nat, dup_obj1); (2%nat, dup_obj2)] [] ltac:(repeat constructor))).
Defined.

(** ** Promotion of regions to alternative entries *)

(** C5, counterexample: three symbols at offset 0 of a section of 16
    bytes give three regions; the second is promoted, and the loop steps
    over the third, which has the offset of its predecessor and is left
    unmarked. *)
Theorem promote_alt_entries_steps_over_third :
  ∃ r0 r1 r2,
    fix_regions 16 three_at_zero = [r0; r1; r2] ∧
    SplitRegion.offset r0 = SplitRegion.offset r1 ∧
    SplitRegion.offset r1 = SplitRegion.offset r2 ∧
    SplitRegion.is_alt_entry r1 = true ∧
    SplitRegion.is_alt_entry r2 = false.
Proof. do 3 eexists. split; [vm_compute; reflexivity|]. by repeat split. Qed.

(** The second of a pair at one offset is promoted. *)
Lemma promote_alt_entries_pair (a b : SplitRegion.t) :
  SplitRegion.offset a = SplitRegion.offset b →
  promote_alt_entries 2 1 [a; b] = [a; SplitRegion.set_is_alt_entry true b].
Proof.
  intros Heq. cbn [promote_alt_entries length]. rewrite bool_decide_eq_true_2 by lia.
  cbn [lookup list_lookup Nat.sub]. simpl. by rewrite Heq, Z.eqb_refl.
Qed.

(** Of a run of three at one offset only the second is promoted: the third
    keeps the mark it had. *)
Lemma promote_alt_entries_run_of_three (a b c : SplitRegion.t) :
  SplitRegion.offset a = SplitRegion.offset b →
  SplitRegion.offset b = SplitRegion.offset c →
  promote_alt_entries 3 1 [a; b; c] = [a; SplitRegion.set_is_alt_entry true b; c].
Proof.
  intros Hab Hbc. cbn [promote_alt_entries length].
  rewrite bool_decide_eq_true_2 by lia.
  cbn [lookup list_lookup Nat.sub]. simpl. by rewrite Hab, Z.eqb_refl.
Qed.

(** ** The [__cstring] splitter *)

Lemma split_cstring_S (fuel isec : nat) (hdr_addr hdr_p2align : Z)
    (str : list Byte.byte) (pos : nat) (acc : list Subsection) :
  split_cstring (S fuel) isec hdr_addr hdr_p2align str pos acc =
    if bool_decide (pos < length str)%nat then
      match str_find Byte.x00 str pos with
      | None => None
      | Some end0 =>
          let end1 :=
            match str_find_first_not_of Byte.x00 str end0 with
            | Some e => e
            | None => length str
            end in
          split_cstring fuel isec hdr_addr hdr_p2align str end1
            (acc ++
             [add_subsection isec hdr_addr (Z.of_nat pos)
                (Z.of_nat end1 - Z.of_nat pos)
                (Z.min (u8 hdr_p2align) (u8 (countr_zero (Z.of_nat pos))))])
      end
    else Some acc.
Proof. reflexivity. Qed.

(** More fuel does not change what the splitter returns. *)
Lemma split_cstring_more_fuel (fuel isec : nat) (hdr_addr hdr_p2align : Z)
    (str : list Byte.byte) :
  ∀ pos acc r,
    split_cstring fuel isec hdr_addr hdr_p2align str pos acc = Some r →
    split_cstring (S fuel) isec hdr_addr hdr_p2align str pos acc = Some r.
Proof.
  induction fuel as [|fuel IH]; intros pos acc r.
  - cbn [split_cstring]. by case_bool_decide.
  - rewrite (split_cstring_S (S fuel)), (split_cstring_S fuel).
    case_bool_decide; [|done].
    destruct (str_find Byte.x00 str pos); [|done]. apply IH.
Qed.

(** C6, as the code has it: the bytes ["hi\0\0yo\0"] at alignment 0 give
    exactly two subsections, [0,4) and [4,7), each with alignment 0: a
    string takes the run of terminators that follows it. *)
Theorem split_cstring_hi_yo (n isec : nat) (hdr_addr : Z) :
  split_cstring (S (S n)) isec hdr_addr 0 hi_yo 0 [] =
    Some [mkSubsection isec 0 4 (u32 (hdr_addr + 0)) 0 0 0;
          mkSubsection isec 4 3 (u32 (hdr_addr + 4)) 0 0 0].
Proof. destruct n; reflexivity. Qed.

(** C6, counterexample: the splitter does not give three subsections. *)
Lemma split_cstring_hi_yo_not_three :
  ¬ ∃ a b c,
      split_cstring (length hi_yo) 0 0 0 hi_yo 0 [] = Some [a; b; c] ∧
      (input_offset a, input_size a, p2align a) = (0, 3, 0) ∧
      (input_offset b, input_size b, p2align b) = (3, 3, 0) ∧
      (input_offset c, input_size c, p2align c) = (6, 1, 0).
Proof. intros (a & b & c & H & _). vm_compute in H. discriminate H. Qed.

(** ** The library search *)

Lemma find_in_roots_first_open (fs : FileSystem) (roots : list string) (path : string) :
  find_in_roots fs roots path = first_open fs (roots ≫= λ root, tried_under root path).
Proof.
  induction roots as [|root roots IH]; [done|].
  cbn [find_in_roots mbind list_bind]. unfold tried_under at 1.
  destruct (ends_with path ".tbd").
  - cbn [app first_open]. destruct (fs (root +:+ path)); [done | apply IH].
  - destruct (ends_with path ".dylib"); cbn [app first_open].
    + destruct (fs (root +:+ _ +:+ ".tbd")); [done|].
      destruct (fs (root +:+ path)); [done|].
      destruct (fs (root +:+ path +:+ ".tbd")); [done|].
      destruct (fs (root +:+ path +:+ ".dylib")); [done | apply IH].
    + destruct (fs (root +:+ path +:+ ".tbd")); [done|].
      destruct (fs (root +:+ path +:+ ".dylib")); [done | apply IH].
Qed.

(** C8, the code at a path that ends in [.dylib]: under the root [/sdk]
    neither [/sdk/usr/lib/libfoo.tbd] nor [/sdk/usr/lib/libfoo.dylib]
    opens, and the search goes on to [/sdk/usr/lib/libfoo.dylib.tbd], which
    it returns; the paths tried under the root are four. *)
Theorem find_external_lib_dylib_falls_through :
  fs_stub_only "/sdk/usr/lib/libfoo.tbd" = None ∧
  fs_stub_only "/sdk/usr/lib/libfoo.dylib" = None ∧
  find_external_lib fs_stub_only ctx_sdk "/usr/lib/libbar.dylib"
                    "/usr/lib/libfoo.dylib" = Some stub_file ∧
  tried_under "/sdk" "/usr/lib/libfoo.dylib" =
    ["/sdk/usr/lib/libfoo.tbd"; "/sdk/usr/lib/libfoo.dylib";
     "/sdk/usr/lib/libfoo.dylib.tbd"; "/sdk/usr/lib/libfoo.dylib.dylib"].
Proof. repeat split; reflexivity. Qed.

(** The parts of the search that agree with the description: a relative
    path is opened as it is, and an absolute path gets the first file that
    opens among the paths tried under the roots, in order. *)
Lemma find_external_lib_search (fs : FileSystem) (ctx : Context) (parent path : string) :
  find_external_lib fs ctx parent path =
    if starts_with_slash path then
      first_open fs (arg_syslibroot ctx ≫= λ root, tried_under root path)
    else fs path.
Proof.
  unfold find_external_lib. destruct (starts_with_slash path); cbn [negb]; [|done].
  apply find_in_roots_first_open.
Qed.

(** ** Creating a dylib and its reexports *)

Lemma merge_reexports_spec (create : MappedFile → option DylibFile)
    (fs : FileSystem) (ctx : Context) (install_name : string)
    (paths : list string) (e w e' w' : gset string) :
  merge_reexports create fs ctx install_name paths e w = Some (e', w') →
  e ⊆ e' ∧ w ⊆ w' ∧
  (∀ path, path ∈ paths →
     ∃ mf child,
       find_external_lib fs ctx install_name path = Some mf ∧
       create mf = Some child ∧
       exports child ⊆ e' ∧ weak_exports child ⊆ w') ∧
  (∀ name, name ∈ e' →
     name ∈ e ∨
     ∃ path mf child,
       path ∈ paths ∧ find_external_lib fs ctx install_name path = Some mf ∧
       create mf = Some child ∧ name ∈ exports child) ∧
  (∀ name, name ∈ w' →
     name ∈ w ∨
     ∃ path mf child,
       path ∈ paths ∧ find_external_lib fs ctx install_name path = Some mf ∧
       create mf = Some child ∧ name ∈ weak_exports child).
Proof.
  revert e w. induction paths as [|path paths IH]; intros e w Hrun.
  - injection Hrun as <- <-. repeat split; try done.
    + intros path Hin. by apply not_elem_of_nil in Hin.
    + by left.
    + by left.
  - cbn [merge_reexports] in Hrun.
    destruct (find_external_lib fs ctx install_name path) as [mf|] eqn:Hfind;
      [|discriminate].
    destruct (create mf) as [child|] eqn:Hcreate; [|discriminate].
    apply IH in Hrun as (He & Hw & Hchildren & Hfrom_e & Hfrom_w). clear IH.
    split; [etrans; [apply union_subseteq_l | exact He]|].
    split; [etrans; [apply union_subseteq_l | exact Hw]|]. split; [|split].
    + intros path' Hin. apply elem_of_cons in Hin as [->|Hin]; [|by apply Hchildren].
      exists mf, child. split; [done|]. split; [done|].
      split; (etrans; [apply union_subseteq_r|]); [exact He | exact Hw].
    + intros name Hin. apply Hfrom_e in Hin as [Hin|(path' & mf' & c & Hp & Hf & Hc & Hn)].
      * apply elem_of_union in Hin as [Hin|Hin]; [by left|].
        right. exists path, mf, child. split; [apply list_elem_of_here | done].
      * right. exists path', mf', c. split; [by apply list_elem_of_further | done].
    + intros name Hin. apply Hfrom_w in Hin as [Hin|(path' & mf' & c & Hp & Hf & Hc & Hn)].
      * apply elem_of_union in Hin as [Hin|Hin]; [by left|].
        right. exists path, mf, child. split; [apply list_elem_of_here | done].
      * right. exists path', mf', c. split; [by apply list_elem_of_further | done].
Qed.

Lemma DylibFile_create_unfold (fuel : nat) (fs : FileSystem) (ctx : Context)
    (mf : MappedFile) (d : DylibFile) :
  DylibFile_create fuel fs ctx mf = Some d →
  ∃ fuel' s,
    fuel = S fuel' ∧
    merge_reexports (DylibFile_create fuel' fs ctx) fs ctx
      (tbd_install_name (mf_dylib mf)) (tbd_reexported_libs (mf_dylib mf))
      (tbd_exports (mf_dylib mf)) (tbd_weak_exports (mf_dylib mf))
    = Some (exports d, weak_exports d) ∧
    s = push_weak_exports (exports d) (elements (weak_exports d))
          (push_exports (elements (exports d)) ([], [])) ∧
    InputFile.syms (dylib_base d) = s.1 ∧ is_weak_symbol d = s.2.
Proof.
  destruct fuel as [|fuel']; [discriminate|]. cbn [DylibFile_create].
  intros Hrun. exists fuel'.
  destruct (merge_reexports _ _ _ _ _ _ _) as [[e w]|]; [|by destruct (mf_type mf)].
  destruct (mf_type mf); try discriminate; injection Hrun as <-;
    eexists; cbn [exports weak_exports dylib_base is_weak_symbol InputFile.syms
                  InputFile.set_syms]; repeat split; reflexivity.
Qed.

Lemma merge_reexports_mono (create1 create2 : MappedFile → option DylibFile)
    (fs : FileSystem) (ctx : Context) (install_name : string)
    (paths : list string) (e w : gset string) (r : gset string * gset string) :
  (∀ mf d, create1 mf = Some d → create2 mf = Some d) →
  merge_reexports create1 fs ctx install_name paths e w = Some r →
  merge_reexports create2 fs ctx install_name paths e w = Some r.
Proof.
  intros Hmono. revert e w. induction paths as [|path paths IH]; intros e w; [done|].
  cbn [merge_reexports].
  destruct (find_external_lib fs ctx install_name path) as [mf|]; [|done].
  destruct (create1 mf) as [child|] eqn:Hc; [|done].
  rewrite (Hmono _ _ Hc). apply IH.
Qed.

(** More fuel does not change what [DylibFile_create] returns. *)
Lemma DylibFile_create_more_fuel (fuel : nat) (fs : FileSystem) (ctx : Context) :
  ∀ mf d, DylibFile_create fuel fs ctx mf = Some d →
          DylibFile_create (S fuel) fs ctx mf = Some d.
Proof.
  induction fuel as [|fuel IH]; intros mf d Hrun; [discriminate|].
  cbn [DylibFile_create] in Hrun |- *.
  destruct (merge_reexports (DylibFile_create fuel fs ctx) _ _ _ _ _ _)
    as [[e w]|] eqn:Hmerge; [|by destruct (mf_type mf)].
  apply (merge_reexports_mono _ (DylibFile_create (S fuel) fs ctx)) in Hmerge;
    [|exact IH].
  cbn [DylibFile_create] in Hmerge. by rewrite Hmerge.
Qed.

Lemma DylibFile_create_closed (fs : FileSystem) (ctx : Context)
    (mf mf' : MappedFile) :
  reexported fs ctx mf mf' →
  ∀ fuel d, DylibFile_create fuel fs ctx mf = Some d →
    tbd_exports (mf_dylib mf') ⊆ exports d ∧
    tbd_weak_exports (mf_dylib mf') ⊆ weak_exports d.
Proof.
  induction 1 as [mf|mf child mf' path Hpath Hfind _ IH]; intros fuel d Hrun.
  - apply DylibFile_create_unfold in Hrun as (fuel' & s & _ & Hmerge & _).
    apply merge_reexports_spec in Hmerge as (He & Hw & _). done.
  - apply DylibFile_create_unfold in Hrun as (fuel' & s & _ & Hmerge & _).
    apply merge_reexports_spec in Hmerge as (_ & _ & Hchildren & _).
    destruct (Hchildren path Hpath) as (mf1 & c & Hfind1 & Hc & He & Hw).
    rewrite Hfind in Hfind1. injection Hfind1 as <-.
    destruct (IH _ _ Hc) as [He' Hw']. split; etrans; eauto.
Qed.

Lemma DylibFile_create_from (fuel : nat) (fs : FileSystem) (ctx : Context) :
  ∀ mf d, DylibFile_create fuel fs ctx mf = Some d →
    (∀ name, name ∈ exports d →
       ∃ mf', reexported fs ctx mf mf' ∧ name ∈ tbd_exports (mf_dylib mf')) ∧
    (∀ name, name ∈ weak_exports d →
       ∃ mf', reexported fs ctx mf mf' ∧ name ∈ tbd_weak_exports (mf_dylib mf')).
Proof.
  induction fuel as [|fuel IH]; intros mf d Hrun; [discriminate|].
  apply DylibFile_create_unfold in Hrun as (fuel' & s & [= <-] & Hmerge & _).
  apply merge_reexports_spec in Hmerge as (_ & _ & _ & Hfrom_e & Hfrom_w).
  split; intros name Hin.
  - apply Hfrom_e in Hin as [Hin|(path & mf1 & c & Hp & Hf & Hc & Hn)].
    + exists mf. split; [constructor | done].
    + destruct (IH _ _ Hc) as [He _]. destruct (He name Hn) as (mf' & Hre & Hin').
      exists mf'. split; [|done]. by eapply reexported_child.
  - apply Hfrom_w in Hin as [Hin|(path & mf1 & c & Hp & Hf & Hc & Hn)].
    + exists mf. split; [constructor | done].
    + destruct (IH _ _ Hc) as [_ Hw]. destruct (Hw name Hn) as (mf' & Hre & Hin').
      exists mf'. split; [|done]. by eapply reexported_child.
Qed.

Lemma push_exports_spec (names : list string) (s : list SymPtr * list bool) :
  push_exports names s =
    (s.1 ++ (get_symbol <$> names), s.2 ++ replicate (length names) false).
Proof.
  unfold push_exports. revert s.
  induction names as [|name names IH]; intros [sy ws].
  - cbn. by rewrite !app_nil_r.
  - cbn [foldl]. rewrite IH. cbn [fst snd fmap list_fmap length replicate].
    by rewrite <- !app_assoc.
Qed.

Lemma push_weak_exports_spec (e : gset string) (names : list string)
    (s : list SymPtr * list bool) :
  push_weak_exports e names s =
    (s.1 ++ (get_symbol <$> filter (λ name, name ∉ e) names),
     s.2 ++ replicate (length (filter (λ name, name ∉ e) names)) true).
Proof.
  unfold push_weak_exports. revert s.
  induction names as [|name names IH]; intros [sy ws].
  - cbn. by rewrite !app_nil_r.
  - cbn [foldl]. rewrite IH. destruct (decide (name ∈ e)) as [Hin|Hin].
    + rewrite filter_cons_False by (intros ?; contradiction). done.
    + rewrite filter_cons_True by done.
      cbn [fst snd fmap list_fmap length replicate]. by rewrite <- !app_assoc.
Qed.

#[local] Instance get_symbol_inj : Inj (=) (=) get_symbol.
Proof. intros a b. unfold get_symbol. congruence. Qed.

(** C2: when [DylibFile::create] returns for a file, every name that a
    library reached through its chain of reexports (or the file itself)
    exports is in [exports], every name one of them exports weakly is in
    [weak_exports], and the two sets hold nothing else; [syms] holds the
    interned symbol of every name of [exports] and of every name of
    [weak_exports] that is not in [exports], each once and no other, and
    [is_weak_symbol] is true at exactly the symbols of the second group. *)
Theorem DylibFile_create_reexport_closure (fuel : nat) (fs : FileSystem)
    (ctx : Context) (mf : MappedFile) (d : DylibFile) :
  DylibFile_create fuel fs ctx mf = Some d →
  (∀ mf' name, reexported fs ctx mf mf' →
     (name ∈ tbd_exports (mf_dylib mf') → name ∈ exports d) ∧
     (name ∈ tbd_weak_exports (mf_dylib mf') → name ∈ weak_exports d)) ∧
  (∀ name, name ∈ exports d →
     ∃ mf', reexported fs ctx mf mf' ∧ name ∈ tbd_exports (mf_dylib mf')) ∧
  (∀ name, name ∈ weak_exports d →
     ∃ mf', reexported fs ctx mf mf' ∧ name ∈ tbd_weak_exports (mf_dylib mf')) ∧
  NoDup (InputFile.syms (dylib_base d)) ∧
  (∀ p, p ∈ InputFile.syms (dylib_base d) ↔
        ∃ name, p = get_symbol name ∧ (name ∈ exports d ∨ name ∈ weak_exports d)) ∧
  length (is_weak_symbol d) = length (InputFile.syms (dylib_base d)) ∧
  (∀ i name, InputFile.syms (dylib_base d) !! i = Some (get_symbol name) →
             is_weak_symbol d !! i = Some (bool_decide (name ∉ exports d))).
Proof.
  intros Hrun.
  split; [|split; [|split]].
  { intros mf' name Hre.
    destruct (DylibFile_create_closed _ _ _ _ Hre _ _ Hrun) as [He Hw].
    split; intros Hin; [by apply He | by apply Hw]. }
  { by apply (DylibFile_create_from _ _ _ _ _ Hrun). }
  { by apply (DylibFile_create_from _ _ _ _ _ Hrun). }
  apply DylibFile_create_unfold in Hrun as (fuel' & s & _ & _ & Hs & Hsyms & Hws).
  rewrite push_weak_exports_spec, push_exports_spec in Hs. cbn [fst snd app] in Hs.
  rewrite Hsyms, Hws, Hs. cbn [fst snd]. clear Hsyms Hws Hs s.
  set (A := elements (exports d)).
  set (B := filter (λ name, name ∉ exports d) (elements (weak_exports d))).
  assert (∀ name, name ∈ A ↔ name ∈ exports d) as HA by (intros; apply elem_of_elements).
  assert (∀ name, name ∈ B ↔ (name ∉ exports d) ∧ name ∈ weak_exports d) as HB.
  { intros name. unfold B. by rewrite list_elem_of_filter, elem_of_elements. }
  split; [|split; [|split]].
  - apply NoDup_app. split; [|split].
    + apply (NoDup_fmap_2 _), NoDup_elements.
    + intros p Hp Hp'. apply list_elem_of_fmap in Hp as (n1 & -> & Hn1).
      apply list_elem_of_fmap in Hp' as (n2 & Heq & Hn2).
      apply (inj get_symbol) in Heq as <-. apply HA in Hn1. apply HB in Hn2. tauto.
    + apply (NoDup_fmap_2 _), NoDup_filter, NoDup_elements.
  - intros p. rewrite elem_of_app, !list_elem_of_fmap. split.
    + intros [(n & -> & Hn)|(n & -> & Hn)]; exists n; split; try done.
      * left. by apply HA.
      * right. by apply HB.
    + intros (n & -> & Hn). destruct (decide (n ∈ exports d)) as [He|He].
      * left. exists n. split; [done | by apply HA].
      * right. exists n. split; [done|]. apply HB. tauto.
  - by rewrite !length_app, !length_replicate, !length_fmap.
  - intros i name Hi.
    destruct (decide (i < length A)%nat) as [Hlt|Hge].
    + rewrite lookup_app_l in Hi by (by rewrite length_fmap).
      rewrite lookup_app_l by (by rewrite length_replicate).
      rewrite lookup_replicate_2 by done.
      apply list_elem_of_lookup_2, list_elem_of_fmap in Hi as (n & Heq & Hn).
      apply (inj get_symbol) in Heq as <-. apply HA in Hn.
      rewrite bool_decide_eq_false_2; [done | tauto].
    + rewrite lookup_app_r in Hi by (rewrite length_fmap; lia).
      rewrite lookup_app_r by (rewrite length_replicate; lia).
      rewrite length_fmap in Hi. rewrite length_replicate.
      pose proof (lookup_lt_Some _ _ _ Hi) as Hlt. rewrite length_fmap in Hlt.
      rewrite lookup_replicate_2 by done.
      apply list_elem_of_lookup_2, list_elem_of_fmap in Hi as (n & Heq & Hn).
      apply (inj get_symbol) in Heq as <-. apply HB in Hn.
      rewrite bool_decide_eq_true_2; [done | tauto].
Qed.

Lemma DylibFile_create_reexport_closure_witness :
  match DylibFile_create 2 fs_foo_bar ctx_default libbar_file with
  | Some d => "_foo" ∈ exports d ∧ "_wfoo" ∈ weak_exports d
  | None => False
  end.
Proof.
  destruct (DylibFile_create 2 fs_foo_bar ctx_default libbar_file) as [d|] eqn:Hrun;
    [|vm_compute in Hrun; discriminate].
  destruct (DylibFile_create_reexport_closure _ _ _ _ _ Hrun) as (Hclosed & _).
  assert (reexported fs_foo_bar ctx_default libbar_file libfoo_file) as Hre.
  { eapply (reexported_child _ _ _ libfoo_file _ "libfoo.dylib").
    - apply list_elem_of_here.
    - reflexivity.
    - constructor. }
  destruct (Hclosed libfoo_file "_foo" Hre) as [He _].
  destruct (Hclosed libfoo_file "_wfoo" Hre) as [_ Hw].
  split; [apply He | apply Hw]; cbn [libfoo_file mf_dylib tbd_exports tbd_weak_exports];
    by apply elem_of_singleton.
Defined.

(** ** Sorting *)

Lemma insert_sorted_perm {A : Type} (less : A → A → bool) (x : A) (l : list A) :
  insert_sorted less x l ≡ₚ x :: l.
Proof.
  induction l as [|y l IH]; [done|]. cbn [insert_sorted].
  destruct (less y x); [|done]. rewrite IH. apply Permutation_swap.
Qed.

Lemma sort_perm {A : Type} (less : A → A → bool) (l : list A) : sort less l ≡ₚ l.
Proof.
  induction l as [|x l IH]; [done|]. cbn [sort].
  by rewrite insert_sorted_perm, IH.
Qed.

Section SortSorted.
Context {A : Type} (less : A → A → bool) (P : A → Prop).
Hypothesis less_asym : ∀ a b, P a → P b → less a b = true → less b a = false.
Hypothesis le_trans :
  ∀ a b c, P a → P b → P c → less b a = false → less c b = false → less c a = false.

Lemma insert_sorted_sorted (x : A) (l : list A) :
  P x → Forall P l →
  StronglySorted (λ a b, less b a = false) l →
  StronglySorted (λ a b, less b a = false) (insert_sorted less x l).
Proof.
  intros Hx HP Hsorted. induction Hsorted as [|y l Hl IH Hy]; cbn [insert_sorted].
  - by repeat constructor.
  - apply Forall_cons in HP as [HPy HPl].
    destruct (less y x) eqn:Hyx.
    + constructor; [by apply IH|].
      rewrite insert_sorted_perm. constructor; [by apply less_asym | done].
    + constructor; [by constructor|]. constructor; [done|].
      rewrite Forall_forall in Hy, HPl |- *. intros z Hz.
      apply (le_trans x y z); auto.
Qed.

Lemma sort_sorted (l : list A) :
  Forall P l → StronglySorted (λ a b, less b a = false) (sort less l).
Proof.
  induction 1 as [|x l Hx HP IH]; cbn [sort]; [constructor|].
  apply insert_sorted_sorted; [done | by rewrite sort_perm | done].
Qed.
End SortSorted.

Lemma StronglySorted_lookup {A : Type} (R : A → A → Prop) (l : list A)
    (i j : nat) (a b : A) :
  StronglySorted R l → (i < j)%nat → l !! i = Some a → l !! j = Some b → R a b.
Proof.
  intros Hsorted. revert i j.
  induction Hsorted as [|x l Hl IH Hx]; intros i j Hij Hi Hj; [done|].
  destruct j as [|j]; [lia|]. cbn in Hj. destruct i as [|i].
  - injection Hi as <-. rewrite Forall_forall in Hx.
    by eapply Hx, list_elem_of_lookup_2.
  - cbn in Hi. apply (IH i j); [lia | done | done].
Qed.

(** ** Associating unwind records with subsections *)

Lemma unwind_less_asym (heap : SubsecHeap) (a b : UnwindRecord.t) :
  unwind_less heap a b = true → unwind_less heap b a = false.
Proof.
  unfold unwind_less.
  destruct (UnwindRecord.subsec a) as [sa|], (UnwindRecord.subsec b) as [sb|];
    try done.
  intros H. apply orb_true_iff in H as [H|H].
  - apply Z.ltb_lt in H. apply orb_false_iff. split; [lia|].
    apply andb_false_iff. left. lia.
  - apply andb_true_iff in H as [H1 H2]. apply Z.eqb_eq in H1. apply Z.ltb_lt in H2.
    apply orb_false_iff. split; [lia|]. apply andb_false_iff. right. lia.
Qed.

Lemma unwind_less_false (heap : SubsecHeap) (a b : UnwindRecord.t) :
  is_Some (UnwindRecord.subsec a) → is_Some (UnwindRecord.subsec b) →
  unwind_less heap b a = false ↔ unwind_key_le heap a b.
Proof.
  intros [sa Ha] [sb Hb]. unfold unwind_less, unwind_key_le. rewrite Ha, Hb. split.
  - intros H. exists sa, sb. split; [done|]. split; [done|].
    apply orb_false_iff in H as [H1 H2]. apply Z.ltb_ge in H1.
    apply andb_false_iff in H2 as [H2|H2]; [apply Z.eqb_neq in H2 | apply Z.ltb_ge in H2];
      lia.
  - intros (sa' & sb' & [= <-] & [= <-] & H).
    apply orb_false_iff. split; [lia|]. apply andb_false_iff.
    destruct H as [H|[H1 H2]]; [left | right]; lia.
Qed.

Lemma unwind_le_trans (heap : SubsecHeap) (a b c : UnwindRecord.t) :
  is_Some (UnwindRecord.subsec a) → is_Some (UnwindRecord.subsec b) →
  is_Some (UnwindRecord.subsec c) →
  unwind_less heap b a = false → unwind_less heap c b = false →
  unwind_less heap c a = false.
Proof.
  intros Ha Hb Hc. rewrite !unwind_less_false by done.
  intros (sa & sb & Hsa & Hsb & H1) (sb' & sc & Hsb' & Hsc & H2).
  rewrite Hsb in Hsb'. injection Hsb' as <-.
  exists sa, sc. split; [done|]. split; [done|]. lia.
Qed.

Lemma run_end_spec (recs : list UnwindRecord.t) (s : SubsecPtr) (fuel j : nat) :
  (j ≤ length recs)%nat →
  (j ≤ run_end recs s fuel j ≤ length recs)%nat ∧
  ∀ k, (j ≤ k < run_end recs s fuel j)%nat →
       ∃ r, recs !! k = Some r ∧ UnwindRecord.subsec r = Some s.
Proof.
  revert j. induction fuel as [|fuel IH]; intros j Hj; cbn [run_end].
  - split; [lia|]. intros k Hk. lia.
  - destruct (recs !! j) as [r|] eqn:Hr; [|split; [lia | intros k Hk; lia]].
    case_bool_decide as Hs; [|split; [lia | intros k Hk; lia]].
    pose proof (lookup_lt_Some _ _ _ Hr) as Hlt.
    destruct (IH (S j) ltac:(lia)) as [Hrange Hall]. split; [lia|].
    intros k Hk. destruct (decide (k = j)) as [->|Hne]; [by exists r|].
    apply Hall. lia.
Qed.

Lemma install_unwind_inv (recs : list UnwindRecord.t) (heap0 : SubsecHeap) :
  Forall (λ r, is_Some (UnwindRecord.subsec r)) recs →
  ∀ fuel i heap,
    (i ≤ length recs)%nat → (length recs - i ≤ fuel)%nat →
    install_inv recs heap0 i heap →
    install_inv recs heap0 (length recs) (install_unwind fuel i recs heap).
Proof.
  intros Hsome. induction fuel as [|fuel IH]; intros i heap Hi Hfuel Hinv.
  - replace (length recs) with i by lia. done.
  - cbn [install_unwind].
    destruct (recs !! i) as [r|] eqn:Hr.
    2:{ apply lookup_ge_None in Hr. replace (length recs) with i by lia. done. }
    pose proof (lookup_lt_Some _ _ _ Hr) as Hlt.
    destruct (UnwindRecord.subsec r) as [s|] eqn:Hs.
    2:{ rewrite Forall_lookup in Hsome. destruct (Hsome i r Hr) as [? ?]. congruence. }
    destruct (run_end_spec recs s (length recs) (S i) ltac:(lia)) as [Hrange Hrun].
    set (j := run_end recs s (length recs) (S i)) in *.
    apply IH; [lia | lia |].
    destruct Hinv as (Haddr & Hframe & Hspans).
    assert (∀ k, (i ≤ k < j)%nat →
                 ∃ r', recs !! k = Some r' ∧ UnwindRecord.subsec r' = Some s) as Hrun'.
    { intros k Hk. destruct (decide (k = i)) as [->|Hne]; [by exists r|].
      apply Hrun. lia. }
    split; [|split].
    + intros s'. destruct (decide (s = s')) as [<-|Hne].
      * rewrite !fn_lookup_insert. apply Haddr.
      * rewrite !fn_lookup_insert_ne by done. apply Haddr.
    + intros s' Hunseen. destruct (decide (s = s')) as [<-|Hne].
      * exfalso. by apply (Hunseen i r ltac:(lia) Hr).
      * rewrite !fn_lookup_insert_ne by done. apply Hframe.
        intros k r' Hk. apply Hunseen. lia.
    + intros s' k r' Hk Hr' Hs'. destruct (decide (s = s')) as [<-|Hne].
      * unfold unwind_span_ok. rewrite !fn_lookup_insert. cbn.
        split; [lia|]. split; [lia|]. split; [lia|].
        intros k' Hk'. apply Hrun'. lia.
      * assert (k < i)%nat as Hki.
        { destruct (decide (k < i)%nat) as [?|Hge]; [done|].
          destruct (Hrun' k ltac:(lia)) as (r'' & Hr'' & Hs'').
          rewrite Hr' in Hr''. injection Hr'' as <-. congruence. }
        destruct (Hspans s' k r' Hki Hr' Hs') as (H0 & H1 & Hb & Hall).
        unfold unwind_span_ok. rewrite !fn_lookup_insert_ne by done.
        split; [done|]. split; [done|]. split; [lia | done].
Qed.

Lemma unwind_key_le_same_addr (heap heap' : SubsecHeap) (a b : UnwindRecord.t) :
  (∀ s, input_addr (heap' s) = input_addr (heap s)) →
  unwind_key_le heap a b → unwind_key_le heap' a b.
Proof.
  intros Haddr (sa & sb & Ha & Hb & H). exists sa, sb. by rewrite !Haddr.
Qed.

(** C4: when [parse_compact_unwind] returns, every record has a
    subsection; the records are sorted by the pair of the subsection's
    input address and the offset; and for every subsection that has a
    record, the records with indices from [unwind_offset] up to
    [unwind_offset + nunwind] all belong to that subsection (the span is not
    empty and lies within the sequence).  The other subsections are as they
    were. *)
Theorem parse_compact_unwind_attach (heap : SubsecHeap) (o : ObjectFile)
    (hdr_size : Z) (src : nat → CompactUnwindEntry.t) (rels : list MachRel.t)
    (recs : list UnwindRecord.t) (heap' : SubsecHeap) :
  parse_compact_unwind heap o hdr_size src rels = Some (recs, heap') →
  (∀ r, r ∈ recs → is_Some (UnwindRecord.subsec r)) ∧
  (∀ i j ri rj, (i < j)%nat → recs !! i = Some ri → recs !! j = Some rj →
                unwind_key_le heap' ri rj) ∧
  (∀ s r, r ∈ recs → UnwindRecord.subsec r = Some s →
          unwind_span_ok recs heap' s (length recs)) ∧
  (∀ s, (∀ r, r ∈ recs → UnwindRecord.subsec r ≠ Some s) → heap' s = heap s).
Proof.
  unfold parse_compact_unwind.
  destruct (negb _); [discriminate|].
  destruct (apply_unwind_relocs _ _ _ _ _ _) as [recs1|]; [|discriminate].
  destruct (forallb _ recs1) eqn:Hall; [|discriminate].
  intros [= <- <-].
  assert (Forall (λ r, is_Some (UnwindRecord.subsec r)) recs1) as Hsome1.
  { apply Forall_forall. intros r Hr.
    rewrite forallb_forall in Hall. apply list_elem_of_In, Hall in Hr.
    by apply bool_decide_eq_true in Hr. }
  set (recs := sort (unwind_less heap) recs1) in *.
  assert (Forall (λ r, is_Some (UnwindRecord.subsec r)) recs) as Hsome.
  { unfold recs. by rewrite sort_perm. }
  assert (install_inv recs heap (length recs)
            (install_unwind (length recs) 0 recs heap)) as (Haddr & Hframe & Hspans).
  { apply install_unwind_inv; [done | lia | lia |].
    split; [done|]. split; [done|]. intros s k r Hk. lia. }
  split; [|split; [|split]].
  - by apply Forall_forall.
  - intros i j ri rj Hij Hi Hj.
    apply (unwind_key_le_same_addr heap); [done|].
    rewrite Forall_lookup in Hsome.
    apply unwind_less_false; [by eapply Hsome | by eapply Hsome |].
    eapply (StronglySorted_lookup (λ a b, unwind_less heap b a = false) recs i j);
      [|done|done|done].
    apply (sort_sorted _ (λ r, is_Some (UnwindRecord.subsec r))); [| |done].
    + intros a b _ _. apply unwind_less_asym.
    + apply unwind_le_trans.
  - intros s r Hr Hs. apply list_elem_of_lookup_1 in Hr as [k Hk].
    apply (Hspans s k r); [by eapply lookup_lt_Some | done | done].
  - intros s Hunseen. apply Hframe. intros k r _ Hk.
    by eapply Hunseen, list_elem_of_lookup_2.
Qed.

Lemma parse_compact_unwind_attach_witness :
  match parse_compact_unwind cu_heap cu_obj 96 cu_src cu_rels with
  | Some (recs, heap') =>
      unwind_span_ok recs heap' 1%nat (length recs) ∧
      unwind_offset (heap' 1%nat) = 1 ∧ nunwind (heap' 1%nat) = 2
  | None => False
  end.
Proof.
  destruct (parse_compact_unwind cu_heap cu_obj 96 cu_src cu_rels)
    as [[recs heap']|] eqn:Hrun; [|vm_compute in Hrun; discriminate].
  destruct (parse_compact_unwind_attach _ _ _ _ _ _ _ Hrun) as (_ & _ & Hspan & _).
  vm_compute in Hrun. injection Hrun as <- <-.
  split; [|split; reflexivity].
  eapply Hspan; [apply list_elem_of_further, list_elem_of_here | reflexivity].
Defined.


(** * Further properties *)

(** ** Looking up subsections and symbols by address *)

Lemma upper_bound_spec (heap : SubsecHeap) (addr : Z) (l : list SubsecPtr) :
  (upper_bound heap addr l ≤ length l)%nat ∧
  (∀ i s, (i < upper_bound heap addr l)%nat → l !! i = Some s →
          input_addr (heap s) ≤ addr) ∧
  (∀ s, l !! upper_bound heap addr l = Some s → addr < input_addr (heap s)).
Proof.
  induction l as [|x l (IH1 & IH2 & IH3)]; cbn [upper_bound length].
  - split; [lia|]. split; [intros; lia | intros s H; discriminate H].
  - destruct (addr <? input_addr (heap x)) eqn:Hx.
    + split; [lia|]. split; [intros; lia|].
      intros s [= <-]. by apply Z.ltb_lt.
    + apply Z.ltb_ge in Hx. split; [lia|]. split.
      * intros [|i] s Hi Hs; [by injection Hs as <- | apply (IH2 i); [lia | done]].
      * intros s Hs. by apply IH3.
Qed.

(** X1: on a vector sorted by address, [find_subsection] returns the last
    subsection that starts at or below the address, and null exactly when
    every subsection starts above it. *)
Theorem find_subsection_last_at_or_below (heap : SubsecHeap) (o : ObjectFile)
    (addr : Z) :
  sorted_by_addr heap (subsections o) →
  match find_subsection heap o addr with
  | Some s =>
      ∃ i, subsections o !! i = Some s ∧ input_addr (heap s) ≤ addr ∧
           ∀ j sj, (i < j)%nat → subsections o !! j = Some sj →
                   addr < input_addr (heap sj)
  | None => ∀ s, s ∈ subsections o → addr < input_addr (heap s)
  end.
Proof.
  intros Hsorted. unfold find_subsection.
  destruct (upper_bound_spec heap addr (subsections o)) as (Hlen & Hbelow & Hat).
  assert (∀ j sj, (upper_bound heap addr (subsections o) ≤ j)%nat →
                  subsections o !! j = Some sj → addr < input_addr (heap sj)) as Habove.
  { intros j sj Hj Hsj.
    destruct (subsections o !! upper_bound heap addr (subsections o)) as [sk|] eqn:Hk.
    - specialize (Hat sk eq_refl).
      destruct (decide (upper_bound heap addr (subsections o) = j)) as [<-|Hne].
      + rewrite Hk in Hsj. by injection Hsj as <-.
      + assert (upper_bound heap addr (subsections o) < j)%nat as Hlt by lia.
        specialize (Hsorted _ j sk sj Hlt Hk Hsj). lia.
    - apply lookup_ge_None in Hk. apply lookup_lt_Some in Hsj. lia. }
  destruct (upper_bound heap addr (subsections o)) as [|it] eqn:Hub.
  - intros s Hs. apply list_elem_of_lookup_1 in Hs as [j Hj].
    apply (Habove j); [lia | done].
  - destruct (subsections o !! it) as [s|] eqn:Hs.
    + exists it. split; [done|]. split; [apply (Hbelow it); [lia | done]|].
      intros j sj Hj. apply Habove. lia.
    + apply lookup_ge_None in Hs. lia.
Qed.

Lemma find_subsection_last_at_or_below_witness :
  ∃ i, subsections cu_obj !! i = Some 1%nat ∧ input_addr (cu_heap 1%nat) ≤ 20 ∧
       ∀ j sj, (i < j)%nat → subsections cu_obj !! j = Some sj →
               20 < input_addr (cu_heap sj).
Proof.
  apply (find_subsection_last_at_or_below cu_heap cu_obj 20).
  intros [|[|i]] [|[|[|j]]] si sj Hij Hi Hj; try lia; try discriminate;
    injection Hi as <-; injection Hj as <-; vm_compute; discriminate.
Defined.

Lemma find_symbol_from_spec (syms : list SymPtr) (addr : Z) (ms : list MachSym)
    (i0 : nat) :
  match find_symbol_from syms addr ms i0 with
  | Some p =>
      ∃ k msym, ms !! k = Some msym ∧ syms !! (i0 + k)%nat = Some p ∧
                ms_is_extern msym = true ∧ ms_value msym = addr ∧
                ∀ j mj, (j < k)%nat → ms !! j = Some mj →
                        ¬ (ms_is_extern mj = true ∧ ms_value mj = addr)
  | None =>
      (∀ k msym, ms !! k = Some msym →
                 ¬ (ms_is_extern msym = true ∧ ms_value msym = addr)) ∨
      ∃ k, (length syms ≤ i0 + k)%nat ∧ (k < length ms)%nat
  end.
Proof.
  revert i0. induction ms as [|m ms IH]; intros i0; cbn [find_symbol_from].
  - left. intros k msym H. discriminate H.
  - destruct (ms_is_extern m && (ms_value m =? addr)) eqn:Hm.
    + apply andb_true_iff in Hm as [He Hv]. apply Z.eqb_eq in Hv.
      destruct (syms !! i0) as [p|] eqn:Hp.
      * exists 0%nat, m. rewrite Nat.add_0_r. repeat split; try done.
        intros j mj Hj. lia.
      * right. exists 0%nat. apply lookup_ge_None in Hp. cbn [length]. lia.
    + specialize (IH (S i0)).
      assert (¬ (ms_is_extern m = true ∧ ms_value m = addr)) as Hnm.
      { intros [He Hv]. rewrite He, Hv, Z.eqb_refl in Hm. discriminate. }
      destruct (find_symbol_from syms addr ms (S i0)) as [p|].
      * destruct IH as (k & msym & Hk & Hp & He & Hv & Hfirst).
        exists (S k), msym. replace (i0 + S k)%nat with (S i0 + k)%nat by lia.
        repeat split; try done.
        intros [|j] mj Hj Hmj; [by injection Hmj as <-|].
        apply (Hfirst j); [lia | done].
      * destruct IH as [Hnone|(k & Hk1 & Hk2)].
        -- left. intros [|k] msym Hk; [by injection Hk as <- | by apply (Hnone k)].
        -- right. exists (S k). cbn [length]. lia.
Qed.

(** X2: [find_symbol] returns the symbol of the first extern entry of the
    symbol table whose value is the address, and null exactly when no extern
    entry has that value. *)
Theorem find_symbol_first_extern_at (o : ObjectFile) (addr : Z) :
  (length (mach_syms o) ≤ length (InputFile.syms (obj_base o)))%nat →
  match find_symbol o addr with
  | Some p =>
      ∃ i msym,
        mach_syms o !! i = Some msym ∧ InputFile.syms (obj_base o) !! i = Some p ∧
        ms_is_extern msym = true ∧ ms_value msym = addr ∧
        ∀ j mj, (j < i)%nat → mach_syms o !! j = Some mj →
                ¬ (ms_is_extern mj = true ∧ ms_value mj = addr)
  | None =>
      ∀ i msym, mach_syms o !! i = Some msym →
                ¬ (ms_is_extern msym = true ∧ ms_value msym = addr)
  end.
Proof.
  intros Hlen. unfold find_symbol.
  pose proof (find_symbol_from_spec (InputFile.syms (obj_base o)) addr (mach_syms o) 0)
    as H.
  destruct (find_symbol_from _ _ _ _) as [p|]; [done|].
  destruct H as [H|(k & Hk1 & Hk2)]; [done | lia].
Qed.

Lemma find_symbol_first_extern_at_witness :
  ∃ i msym,
    mach_syms dup_obj2 !! i = Some msym ∧
    InputFile.syms (obj_base dup_obj2) !! i = Some (Interned "_g") ∧
    ms_is_extern msym = true ∧ ms_value msym = 2 ∧
    ∀ j mj, (j < i)%nat → mach_syms dup_obj2 !! j = Some mj →
            ¬ (ms_is_extern mj = true ∧ ms_value mj = 2).
Proof.
  apply (find_symbol_first_extern_at dup_obj2 2). cbn. lia.
Defined.

(** ** The resolver *)

Lemma ObjectFile_resolve_symbol_scope (files : Files) (subsecs : SubsecHeap)
    (this : FileId) (o : ObjectFile) (i : nat) (st st' : Store) (p : SymPtr) :
  ObjectFile_resolve_symbol files subsecs this o i st = Some st' →
  (Symbol.scope (st p) = SCOPE_EXTERN → Symbol.scope (st' p) = SCOPE_EXTERN) ∧
  (∀ msym, mach_syms o !! i = Some msym →
           InputFile.syms (obj_base o) !! i = Some p →
           ms_is_extern msym = true → is_undef msym = false →
           is_private_extern (base (files this)) msym = false →
           Symbol.scope (st' p) = SCOPE_EXTERN).
Proof.
  unfold ObjectFile_resolve_symbol.
  destruct (mach_syms o !! i) as [msym|]; [|discriminate].
  destruct (InputFile.syms (obj_base o) !! i) as [q|]; [|discriminate].
  destruct (negb (ms_is_extern msym) || is_undef msym) eqn:Hdef.
  { intros [= <-]. split; [done|]. intros m [= <-] _ He Hu.
    rewrite He, Hu in Hdef. discriminate. }
  assert (∀ x, Symbol.scope x = SCOPE_EXTERN →
               merge_scope (base (files this)) x msym = SCOPE_EXTERN) as Hkeep.
  { intros x Hx. unfold merge_scope. by rewrite decide_True. }
  assert (∀ x, is_private_extern (base (files this)) msym = false →
               merge_scope (base (files this)) x msym = SCOPE_EXTERN) as Hpub.
  { intros x Hx. unfold merge_scope. rewrite Hx. by destruct (decide _). }
  assert (∀ x : Symbol.t,
            Symbol.scope x = merge_scope (base (files this)) (st q) msym →
            st' = <[q := x]> st →
            (Symbol.scope (st p) = SCOPE_EXTERN → Symbol.scope (st' p) = SCOPE_EXTERN) ∧
            (∀ m, Some msym = Some m → Some q = Some p →
                  ms_is_extern m = true → is_undef m = false →
                  is_private_extern (base (files this)) m = false →
                  Symbol.scope (st' p) = SCOPE_EXTERN)) as Hcase.
  { intros x Hx ->. split.
    - intros Hp. destruct (decide (q = p)) as [->|Hne].
      + rewrite fn_lookup_insert, Hx. by apply Hkeep.
      + by rewrite fn_lookup_insert_ne.
    - intros m [= <-] [= ->] _ _ Hpriv. rewrite fn_lookup_insert, Hx. by apply Hpub. }
  destruct (_ <? _).
  - destruct (ms_type msym =? N_UNDF).
    { intros [= <-]. eapply Hcase; [|reflexivity]; reflexivity. }
    destruct (ms_type msym =? N_ABS).
    { intros [= <-]. eapply Hcase; [|reflexivity]; reflexivity. }
    destruct (ms_type msym =? N_SECT); [|discriminate].
    destruct (sym_to_subsec o !! i) as [[s|]|]; try discriminate.
    intros [= <-]. eapply Hcase; [|reflexivity]; reflexivity.
  - intros [= <-]. eapply Hcase; [|reflexivity]; reflexivity.
Qed.

(** X3: a call of [ObjectFile::resolve_symbols] never takes the extern scope
    away from a symbol, and it gives the extern scope to every symbol that
    the file defines (extern and not undefined) in an entry that is not
    private. *)
Theorem ObjectFile_resolve_symbols_scope (files : Files) (subsecs : SubsecHeap)
    (this : FileId) (o : ObjectFile) (st st' : Store) :
  ObjectFile_resolve_symbols files subsecs this o st = Some st' →
  (∀ p, Symbol.scope (st p) = SCOPE_EXTERN → Symbol.scope (st' p) = SCOPE_EXTERN) ∧
  (∀ i msym p,
     mach_syms o !! i = Some msym → InputFile.syms (obj_base o) !! i = Some p →
     ms_is_extern msym = true → is_undef msym = false →
     is_private_extern (base (files this)) msym = false →
     Symbol.scope (st' p) = SCOPE_EXTERN).
Proof.
  intros Hrun. unfold ObjectFile_resolve_symbols in Hrun.
  apply (for_range_inv _ (λ n s,
    (∀ p, Symbol.scope (st p) = SCOPE_EXTERN → Symbol.scope (s p) = SCOPE_EXTERN) ∧
    (∀ i msym p, (i < n)%nat →
       mach_syms o !! i = Some msym → InputFile.syms (obj_base o) !! i = Some p →
       ms_is_extern msym = true → is_undef msym = false →
       is_private_extern (base (files this)) msym = false →
       Symbol.scope (s p) = SCOPE_EXTERN))) in Hrun.
  - destruct Hrun as [Hkeep Hpub]. split; [done|].
    intros i msym p Hm Hp. apply (Hpub i); [|done|done].
    apply lookup_lt_Some in Hp. lia.
  - split; [done|]. intros i msym p Hi. lia.
  - intros i t t' _ [Hkeep Hpub] Hstep. split.
    + intros p Hp.
      by apply (ObjectFile_resolve_symbol_scope _ _ _ _ _ _ _ p Hstep), Hkeep.
    + intros j msym p Hj Hm Hp He Hu Hpriv.
      destruct (decide (j = i)) as [->|Hne].
      * by eapply (ObjectFile_resolve_symbol_scope _ _ _ _ _ _ _ p Hstep).
      * apply (ObjectFile_resolve_symbol_scope _ _ _ _ _ _ _ p Hstep).
        apply (Hpub j msym); try done. lia.
Qed.

Lemma ObjectFile_resolve_symbols_scope_witness :
  match ObjectFile_resolve_symbols ex_files no_subsecs 0%nat ex_obj fresh_symbol with
  | Some st => Symbol.scope (st (Interned "_f")) = SCOPE_EXTERN
  | None => False
  end.
Proof.
  destruct (ObjectFile_resolve_symbols ex_files no_subsecs 0%nat ex_obj fresh_symbol)
    as [st|] eqn:Hrun; [|vm_compute in Hrun; discriminate].
  apply (ObjectFile_resolve_symbols_scope _ _ _ _ _ _ Hrun)
    with (i := 0%nat) (msym := mkMachSym true N_ABS false 0 0 16); reflexivity.
Defined.

Lemma run_steps_frame (files : Files) (subsecs : SubsecHeap) (p : SymPtr)
    (sched : list (FileId * nat)) (st st' : Store) :
  (∀ f i c w, (f, i) ∈ sched → candidate files f i ≠ Some (p, c, w)) →
  run_steps files subsecs sched st = Some st' →
  st' p = st p.
Proof.
  revert st. induction sched as [|[f i] sched IH]; intros st Hnone Hrun.
  - by injection Hrun as <-.
  - cbn [run_steps] in Hrun.
    destruct (resolve_symbol files subsecs f i st) as [st1|] eqn:Hstep; [|discriminate].
    rewrite (IH st1); [|intros f' i' c w Hin; apply Hnone; by apply list_elem_of_further|done].
    pose proof (resolve_symbol_effect files subsecs p f i st st1 Hstep) as Heff.
    destruct (candidate files f i) as [[[q c] w]|] eqn:Hc; [|done].
    destruct (decide (q = p)) as [->|Hne]; [|done].
    exfalso. by apply (Hnone f i c w (list_elem_of_here _ _)).
Qed.

(** X4: a symbol that none of the files competes for (no extern, defined
    entry of an object and no export of a dylib names it) is left exactly as
    it was by all the [resolve_symbols] calls. *)
Theorem resolve_all_frame (files : Files) (subsecs : SubsecHeap)
    (calls : list FileId) (st st' : Store) (p : SymPtr) :
  (∀ f i c w, f ∈ calls → candidate files f i ≠ Some (p, c, w)) →
  resolve_all files subsecs calls st = Some st' →
  st' p = st p.
Proof.
  intros Hnone Hrun. rewrite resolve_all_run_steps in Hrun.
  eapply run_steps_frame; [|done].
  intros f i c w Hin. eapply Hnone, steps_of_in_calls, Hin.
Qed.

Lemma resolve_all_frame_witness :
  match resolve_all ex_files no_subsecs [1%nat; 0%nat] fresh_symbol with
  | Some st => st (Interned "_other") = fresh_symbol (Interned "_other")
  | None => False
  end.
Proof.
  destruct (resolve_all ex_files no_subsecs [1%nat; 0%nat] fresh_symbol)
    as [st|] eqn:Hrun; [|vm_compute in Hrun; discriminate].
  apply (resolve_all_frame ex_files no_subsecs [1%nat; 0%nat] fresh_symbol st
           (Interned "_other")); [|exact Hrun].
  intros [|f] [|[|i]] c w _; cbn; congruence.
Defined.

Lemma get_rank_sym_fields (files : Files) (s s' : Symbol.t) :
  Symbol.file s' = Symbol.file s → Symbol.is_common s' = Symbol.is_common s →
  Symbol.is_weak s' = Symbol.is_weak s →
  get_rank_sym files s' = get_rank_sym files s.
Proof. unfold get_rank_sym. by intros -> -> ->. Qed.

(** X5: as long as no dylib records a symbol weak, no loop body of the
    resolver ever raises the rank of a symbol: along any sequence of
    [resolve_symbols] calls the rank of every symbol only goes down or stays. *)
Theorem resolve_all_rank_never_rises (files : Files) (subsecs : SubsecHeap)
    (calls : list FileId) (st st' : Store) (p : SymPtr) :
  (∀ f i, f ∈ calls → dylib_records_weak files f i = false) →
  resolve_all files subsecs calls st = Some st' →
  get_rank_sym files (st' p) ≤ get_rank_sym files (st p).
Proof.
  intros Hweak Hrun. rewrite resolve_all_run_steps in Hrun.
  assert (∀ f i, (f, i) ∈ steps_of files calls →
                 dylib_records_weak files f i = false) as Hweak'.
  { intros f i Hin. eapply Hweak, steps_of_in_calls, Hin. }
  clear Hweak. revert st Hrun Hweak'.
  induction (steps_of files calls) as [|[f i] sched IH]; intros st Hrun Hweak.
  - injection Hrun as <-. lia.
  - cbn [run_steps] in Hrun.
    destruct (resolve_symbol files subsecs f i st) as [st1|] eqn:Hstep; [|discriminate].
    etrans; [apply (IH st1 Hrun)|].
    { intros f' i' Hin. apply Hweak. by apply list_elem_of_further. }
    pose proof (resolve_symbol_effect files subsecs p f i st st1 Hstep) as Heff.
    rewrite (Hweak f i (list_elem_of_here _ _)) in Heff.
    destruct (candidate files f i) as [[[q c] w]|]; [|rewrite Heff; lia].
    destruct (decide (q = p)); [|rewrite Heff; lia].
    destruct (_ <? _) eqn:Hlt.
    + destruct Heff as (Hf & Hc & Hw). apply Z.ltb_lt in Hlt.
      unfold get_rank_sym at 1. rewrite Hf, Hc, Hw, orb_false_r. lia.
    + destruct Heff as (Hf & Hc & Hw). by rewrite (get_rank_sym_fields _ _ _ Hf Hc Hw).
Qed.

Lemma resolve_all_rank_never_rises_witness :
  match resolve_all ex_files no_subsecs [1%nat; 0%nat] fresh_symbol with
  | Some st => get_rank_sym ex_files (st (Interned "_f")) ≤ Z.shiftl 7 24
  | None => False
  end.
Proof.
  destruct (resolve_all ex_files no_subsecs [1%nat; 0%nat] fresh_symbol)
    as [st|] eqn:Hrun; [|vm_compute in Hrun; discriminate].
  apply (resolve_all_rank_never_rises ex_files no_subsecs [1%nat; 0%nat] fresh_symbol
           st (Interned "_f")); [|exact Hrun].
  intros [|f] [|[|i]] _; reflexivity.
Defined.

Lemma resolve_all_owner_inv (files : Files) (subsecs : SubsecHeap)
    (calls : list FileId) (st0 st : Store) (p : SymPtr) :
  (∀ f, f ∈ calls → 0 ≤ InputFile.priority (base (files f)) < 2 ^ 24) →
  (∀ f i c w, f ∈ calls → candidate files f i = Some (p, c, w) →
              dylib_records_weak files f i = false) →
  Symbol.file (st0 p) = None →
  resolve_all files subsecs calls st0 = Some st →
  owner_inv files p (steps_of files calls) st.
Proof.
  intros Hprio Hweak Hst0 Hrun. rewrite resolve_all_run_steps in Hrun.
  rewrite <- (app_nil_r (steps_of files calls)).
  eapply run_steps_inv; eauto.
  - intros f i Hin. eapply Hprio, steps_of_in_calls, Hin.
  - intros f i c w Hin. eapply Hweak, steps_of_in_calls, Hin.
  - by apply owner_inv_unowned.
Qed.

(** X6: the owner does not depend on the order of the calls.  When the
    priorities lie in [0, 2^24) and differ from file to file, and no dylib
    that competes for the symbol records it weak, two runs of the same
    [resolve_symbols] calls in different orders leave a symbol that started
    unowned with the same owner. *)
Theorem resolve_all_owner_order_independent (files : Files) (subsecs : SubsecHeap)
    (calls1 calls2 : list FileId) (st0 st1 st2 : Store) (p : SymPtr) :
  calls1 ≡ₚ calls2 →
  (∀ f, f ∈ calls1 → 0 ≤ InputFile.priority (base (files f)) < 2 ^ 24) →
  (∀ f g, f ∈ calls1 → g ∈ calls1 →
          InputFile.priority (base (files f)) = InputFile.priority (base (files g)) →
          f = g) →
  (∀ f i c w, f ∈ calls1 → candidate files f i = Some (p, c, w) →
              dylib_records_weak files f i = false) →
  Symbol.file (st0 p) = None →
  resolve_all files subsecs calls1 st0 = Some st1 →
  resolve_all files subsecs calls2 st0 = Some st2 →
  Symbol.file (st1 p) = Symbol.file (st2 p).
Proof.
  intros Hperm Hprio Hinj Hweak Hst0 Hrun1 Hrun2.
  assert (∀ f, f ∈ calls2 ↔ f ∈ calls1) as Hsame by (intros f; by rewrite Hperm).
  pose proof (resolve_all_owner_inv _ _ _ _ _ p Hprio Hweak Hst0 Hrun1) as Hinv1.
  assert (owner_inv files p (steps_of files calls2) st2) as Hinv2.
  { eapply resolve_all_owner_inv; eauto.
    - intros f Hf. by apply Hprio, Hsame.
    - intros f i c w Hf. by apply Hweak, Hsame. }
  unfold owner_inv in Hinv1, Hinv2.
  destruct (Symbol.file (st1 p)) as [f1|], (Symbol.file (st2 p)) as [f2|]; [| | |done].
  - destruct Hinv1 as [[i1 [Hin1 Hc1]] Hmin1], Hinv2 as [[i2 [Hin2 Hc2]] Hmin2].
    pose proof (steps_of_in_calls _ _ _ _ Hin1) as Hf1.
    pose proof (steps_of_in_calls _ _ _ _ Hin2) as Hf2. apply Hsame in Hf2.
    assert ((f2, i2) ∈ steps_of files calls1) as Hin2'
      by (eapply candidate_in_steps; eauto).
    assert ((f1, i1) ∈ steps_of files calls2) as Hin1'
      by (eapply candidate_in_steps; [by apply Hsame | eauto]).
    specialize (Hmin1 _ _ _ _ Hin2' Hc2). specialize (Hmin2 _ _ _ _ Hin1' Hc1).
    rewrite !get_rank_kind in Hmin1, Hmin2 by auto.
    pose proof (kind_range (base (files f1)) (Symbol.is_common (st1 p))
                           (Symbol.is_weak (st1 p))).
    pose proof (kind_range (base (files f2)) (Symbol.is_common (st2 p))
                           (Symbol.is_weak (st2 p))).
    pose proof (Hprio f1 Hf1). pose proof (Hprio f2 Hf2).
    f_equal. apply Hinj; [done | done | lia].
  - exfalso. destruct Hinv1 as [[i1 [Hin1 Hc1]] _].
    pose proof (steps_of_in_calls _ _ _ _ Hin1) as Hf1.
    eapply Hinv2; [|exact Hc1]. eapply candidate_in_steps; [by apply Hsame | eauto].
  - exfalso. destruct Hinv2 as [[i2 [Hin2 Hc2]] _].
    pose proof (steps_of_in_calls _ _ _ _ Hin2) as Hf2. apply Hsame in Hf2.
    eapply Hinv1; [|exact Hc2]. eapply candidate_in_steps; eauto.
Qed.

Lemma resolve_all_owner_order_independent_witness :
  match resolve_all ex_files no_subsecs [1%nat; 0%nat] fresh_symbol,
        resolve_all ex_files no_subsecs [0%nat; 1%nat] fresh_symbol with
  | Some st1, Some st2 =>
      Symbol.file (st1 (Interned "_f")) = Symbol.file (st2 (Interned "_f"))
  | _, _ => False
  end.
Proof.
  destruct (resolve_all ex_files no_subsecs [1%nat; 0%nat] fresh_symbol)
    as [st1|] eqn:Hrun1; [|vm_compute in Hrun1; discriminate].
  destruct (resolve_all ex_files no_subsecs [0%nat; 1%nat] fresh_symbol)
    as [st2|] eqn:Hrun2; [|vm_compute in Hrun2; discriminate].
  apply (resolve_all_owner_order_independent ex_files no_subsecs
           [1%nat; 0%nat] [0%nat; 1%nat] fresh_symbol st1 st2 (Interned "_f"));
    [apply Permutation_swap| | | |reflexivity|exact Hrun1|exact Hrun2].
  - intros f Hf. apply elem_of_cons in Hf as [->|Hf]; [vm_compute; intuition discriminate|].
    apply elem_of_cons in Hf as [->|Hf]; [vm_compute; intuition discriminate|].
    by apply not_elem_of_nil in Hf.
  - intros f g Hf Hg.
    apply elem_of_cons in Hf as [->|Hf]; [|apply list_elem_of_singleton in Hf as ->];
      (apply elem_of_cons in Hg as [->|Hg]; [|apply list_elem_of_singleton in Hg as ->]);
      vm_compute; congruence.
  - intros f i c w _ _. destruct f as [|f]; [done|]. destruct i as [|[|i]]; done.
Defined.

(** X7: a dylib never takes a symbol away from a definition in a live
    object.  When the priorities lie in [0, 2^24), a symbol that is owned by
    a file that is alive and not a dylib, and is not common, is left exactly
    as it was by [DylibFile::resolve_symbols]. *)
Theorem DylibFile_resolve_symbols_keeps_live_definition (files : Files)
    (this : FileId) (d : DylibFile) (st st' : Store) (p : SymPtr) (f : FileId) :
  InputFile.is_dylib (base (files this)) = true →
  0 ≤ InputFile.priority (base (files this)) < 2 ^ 24 →
  0 ≤ InputFile.priority (base (files f)) < 2 ^ 24 →
  Symbol.file (st p) = Some f →
  InputFile.is_dylib (base (files f)) = false →
  InputFile.is_alive (base (files f)) = true →
  Symbol.is_common (st p) = false →
  DylibFile_resolve_symbols files this d st = Some st' →
  st' p = st p.
Proof.
  intros Hdylib Hprio Hpriof Hfile Hnd Halive Hnc Hrun.
  unfold DylibFile_resolve_symbols in Hrun.
  apply (for_range_inv _ (λ _ s, s p = st p)) in Hrun; [done | done |].
  intros i t t' _ Ht Hstep. unfold DylibFile_resolve_symbol in Hstep.
  destruct (InputFile.syms (dylib_base d) !! i) as [q|]; [|discriminate].
  destruct (decide (q = p)) as [->|Hne].
  - assert ((get_rank (base (files this)) false false <? get_rank_sym files (t p))
            = false) as Hge.
    { apply Z.ltb_ge. rewrite Ht. unfold get_rank_sym. rewrite Hfile, Hnc.
      rewrite !get_rank_kind by done. unfold kind. rewrite Hdylib, Hnd, Halive.
      cbn [negb andb]. destruct (Symbol.is_weak (st p)); lia. }
    rewrite Hge in Hstep. by injection Hstep as <-.
  - destruct (_ <? _); [|by injection Hstep as <-].
    destruct (is_weak_symbol d !! i); [|discriminate].
    injection Hstep as <-. by rewrite fn_lookup_insert_ne.
Qed.

Lemma DylibFile_resolve_symbols_keeps_live_definition_witness :
  match ObjectFile_resolve_symbols ex_files no_subsecs 0%nat ex_obj fresh_symbol with
  | Some st =>
      match DylibFile_resolve_symbols ex_files 1%nat ex_dylib st with
      | Some st' => st' (Interned "_f") = st (Interned "_f")
      | None => False
      end
  | None => False
  end.
Proof.
  destruct (ObjectFile_resolve_symbols ex_files no_subsecs 0%nat ex_obj fresh_symbol)
    as [st|] eqn:Hrun0; [|vm_compute in Hrun0; discriminate].
  assert (st (Interned "_f") =
          Symbol.mk "_f" (Some 0%nat) None 16 SCOPE_EXTERN false false false) as Hst.
  { vm_compute in Hrun0. by injection Hrun0 as <-. }
  destruct (DylibFile_resolve_symbols ex_files 1%nat ex_dylib st) as [st'|] eqn:Hrun.
  - apply (DylibFile_resolve_symbols_keeps_live_definition ex_files 1%nat ex_dylib
             st st' (Interned "_f") 0%nat); try (by rewrite Hst); try done.
  - exfalso. unfold DylibFile_resolve_symbols in Hrun. cbn in Hrun.
    unfold DylibFile_resolve_symbol in Hrun. cbn in Hrun.
    destruct (_ <? _) in Hrun; discriminate.
Defined.

(** ** Loops that can abort *)

Lemma for_range_total {St : Type} (body : nat → St → option St) (i0 n : nat) (s : St) :
  (∀ i t, (i0 ≤ i < i0 + n)%nat → is_Some (body i t)) →
  is_Some (for_range body i0 n s).
Proof.
  revert i0 s. induction n as [|n IH]; intros i0 s Hbody; cbn [for_range]; [done|].
  destruct (Hbody i0 s ltac:(lia)) as [s1 ->].
  apply IH. intros i t Hi. apply Hbody. lia.
Qed.

Lemma for_range_ran {St : Type} (body : nat → St → option St) (i0 n : nat) (s s' : St) :
  for_range body i0 n s = Some s' →
  ∀ i, (i0 ≤ i < i0 + n)%nat → ∃ t, is_Some (body i t).
Proof.
  revert i0 s. induction n as [|n IH]; intros i0 s Hrun i Hi; [lia|].
  cbn [for_range] in Hrun. destruct (body i0 s) as [s1|] eqn:Hb; [|discriminate].
  destruct (decide (i = i0)) as [->|Hne]; [exists s; by rewrite Hb|].
  apply (IH (S i0) s1 Hrun). lia.
Qed.

(** ** The mark-live sweep, run again *)

Lemma mark_live_objects_inv (st : Store) (o : ObjectFile) (files : Files)
    (s : Files * list FileId) :
  mark_live_objects st o files = Some s →
  mark_live_inv files (kept_upto st o (length (InputFile.syms (obj_base o)))) s.
Proof.
  intros Hrun. unfold mark_live_objects in Hrun.
  apply (for_range_inv _ (λ n s, mark_live_inv files (kept_upto st o n) s)) in Hrun;
    [done | |].
  - split; [|split]; cbn [fst snd].
    + intros g. rewrite decide_False; [done | apply not_elem_of_nil].
    + apply NoDup_nil_2.
    + intros g. split; [intros H; by apply not_elem_of_nil in H|].
      intros [H _]. by apply not_elem_of_nil in H.
  - intros i t t' _. apply mark_live_object_inv.
Qed.

Lemma mark_live_object_runs (st : Store) (o : ObjectFile) (i : nat)
    (t u : Files * list FileId) :
  is_Some (mark_live_object st o i t) → is_Some (mark_live_object st o i u).
Proof.
  unfold mark_live_object.
  destruct (mach_syms o !! i) as [msym|]; [|by intros [? ?]].
  destruct (InputFile.syms (obj_base o) !! i) as [p|]; [|by intros [? ?]].
  intros _. destruct (negb (ms_is_extern msym)); [done|].
  destruct (Symbol.file (st p)); [|done].
  destruct (is_undef msym || _); [|done].
  destruct (negb _); [|done]. by destruct (negb _).
Qed.

(** X8: the sweep reaches its fixed point in one pass.  Running
    [mark_live_objects] a second time on the same object, with the symbols
    unchanged, completes, hands no file to the feeder and changes no file:
    every owner it would keep alive is alive already, and [is_alive] is
    never cleared. *)
Theorem mark_live_objects_second_pass (st : Store) (o : ObjectFile)
    (files files1 : Files) (fed1 : list FileId) :
  mark_live_objects st o files = Some (files1, fed1) →
  (∀ g, InputFile.is_alive (base (files g)) = true →
        InputFile.is_alive (base (files1 g)) = true) ∧
  ∃ files2,
    mark_live_objects st o files1 = Some (files2, []) ∧ ∀ g, files2 g = files1 g.
Proof.
  intros Hrun1.
  pose proof (mark_live_objects_inv _ _ _ _ Hrun1) as (Hfiles1 & _ & _).
  cbn [fst snd] in Hfiles1. split.
  { intros g Hg. rewrite Hfiles1. destruct (decide _); [apply with_alive_is_alive | done]. }
  assert (is_Some (mark_live_objects st o files1)) as [[files2 fed2] Hrun2].
  { apply for_range_total. intros i t Hi.
    destruct (for_range_ran _ _ _ _ _ Hrun1 i Hi) as [u Hu].
    by eapply mark_live_object_runs. }
  pose proof (mark_live_objects_inv _ _ _ _ Hrun2) as (Hfiles2 & _ & Hfed2).
  cbn [fst snd] in Hfiles2, Hfed2.
  assert (fed2 = []) as ->.
  { apply elem_of_nil_inv. intros g Hg. apply Hfed2 in Hg as (HK & Hdead & _).
    rewrite Hfiles1, decide_True in Hdead by done.
    by rewrite with_alive_is_alive in Hdead. }
  exists files2. split; [done|]. intros g. rewrite Hfiles2, Hfiles1.
  destruct (decide _); [apply with_alive_idemp | done].
Qed.

Lemma mark_live_objects_second_pass_witness :
  match mark_live_objects ml_store ml_obj ml_files_archive with
  | Some (files1, fed1) =>
      ∃ files2, mark_live_objects ml_store ml_obj files1 = Some (files2, []) ∧
                ∀ g, files2 g = files1 g
  | None => False
  end.
Proof.
  destruct (mark_live_objects ml_store ml_obj ml_files_archive)
    as [[files1 fed1]|] eqn:Hrun; [|vm_compute in Hrun; discriminate].
  apply (mark_live_objects_second_pass _ _ _ _ _ Hrun).
Defined.

(** ** Clearing, again *)

Lemma clear_symbols_at (this : FileId) (syms : list SymPtr) (st : Store) (p : SymPtr) :
  clear_symbols this syms st p =
    if decide (p ∈ syms ∧ Symbol.file (st p) = Some this) then
      Symbol.mk (Symbol.name (st p)) None None 0 SCOPE_LOCAL false false false
    else st p.
Proof.
  unfold clear_symbols. revert st.
  induction syms as [|x l IH]; intros st; [by simpl|].
  cbn [foldl]. rewrite IH, clear_symbol_at. clear IH.
  destruct (decide (p = x ∧ Symbol.file (st p) = Some this)) as [[Hpx Hown]|Hn].
  - subst x. cbn [Symbol.file].
    case_decide as H1; [destruct H1 as [_ ?]; discriminate|].
    case_decide as H2; [done|].
    exfalso. apply H2. split; [apply list_elem_of_here | done].
  - case_decide as H1; case_decide as H2; try done.
    + exfalso. apply H2. destruct H1. split; [by apply list_elem_of_further | done].
    + exfalso. destruct H2 as [Hin Hown].
      apply elem_of_cons in Hin as [->|Hin]; tauto.
Qed.

(** X9: after [clear_symbols] the file owns none of the symbols of [syms];
    a symbol it gave up has the rank of an unclaimed symbol, so that any
    later candidate can take it; and clearing a second time changes
    nothing. *)
Theorem clear_symbols_disowns (files : Files) (this : FileId) (syms : list SymPtr)
    (st : Store) (p : SymPtr) :
  (p ∈ syms → Symbol.file (clear_symbols this syms st p) ≠ Some this) ∧
  (p ∈ syms → Symbol.file (st p) = Some this →
   get_rank_sym files (clear_symbols this syms st p) = Z.shiftl 7 24) ∧
  clear_symbols this syms (clear_symbols this syms st) p = clear_symbols this syms st p.
Proof.
  split; [|split].
  - intros Hin. rewrite clear_symbols_at.
    case_decide as H; [done|]. intros Hown. apply H. by split.
  - intros Hin Hown. rewrite clear_symbols_at, decide_True by done. done.
  - rewrite (clear_symbols_at this syms (clear_symbols this syms st)).
    case_decide as H; [|done]. destruct H as [Hin Hown].
    rewrite clear_symbols_at in Hown. case_decide as H'; [discriminate|].
    exfalso. apply H'. by split.
Qed.

Lemma clear_symbols_disowns_witness :
  Symbol.file (clear_symbols 1%nat [Interned "_g"] dup_store (Interned "_g")) ≠ Some 1%nat.
Proof.
  apply (clear_symbols_disowns dup_files 1%nat [Interned "_g"] dup_store (Interned "_g")).
  apply list_elem_of_here.
Defined.

(** ** The duplicate-symbol check, silent *)

(** X10: [check_duplicate_symbols] adds nothing to the log exactly when no
    entry of the file is a strong definition of a symbol that another file
    owns; in particular a file that owns every symbol it defines reports
    nothing. *)
Theorem check_duplicate_symbols_silent (st : Store) (this : FileId) (o : ObjectFile)
    (log : list Diagnostic) :
  (length (mach_syms o) ≤ length (InputFile.syms (obj_base o)))%nat →
  check_duplicate_symbols st this o log = Some log ↔
  ∀ i g sym, ¬ is_duplicate st this o i g sym.
Proof.
  intros Hlen. unfold check_duplicate_symbols.
  rewrite check_duplicate_symbols_range by (done || lia). split.
  - intros Heq i g sym Hdup.
    assert (omap (duplicate_at st this o) (seq 0 (length (mach_syms o))) = []) as Hnil.
    { injection Heq as Heq. apply (app_inv_head log). by rewrite app_nil_r. }
    assert (DuplicateSymbol this g sym ∈
            omap (duplicate_at st this o) (seq 0 (length (mach_syms o)))) as Hin.
    { apply list_elem_of_omap. exists i. split.
      - destruct Hdup as (msym & _ & Hm & _). apply lookup_lt_Some in Hm.
        apply elem_of_seq. lia.
      - apply duplicate_at_Some. by exists g, sym. }
    rewrite Hnil in Hin. by apply not_elem_of_nil in Hin.
  - intros Hnone. f_equal. rewrite <- (app_nil_r log) at 2. f_equal.
    apply elem_of_nil_inv. intros d Hd.
    apply list_elem_of_omap in Hd as (i & _ & Hd).
    apply duplicate_at_Some in Hd as (g & sym & _ & Hdup). by apply (Hnone i g sym).
Qed.

Lemma check_duplicate_symbols_silent_witness :
  check_duplicate_symbols dup_store 1%nat dup_obj1 [] = Some [].
Proof.
  apply (check_duplicate_symbols_silent dup_store 1%nat dup_obj1 []); [cbn; lia|].
  intros i g sym (msym & Hs & _ & Hf & Hne & _).
  destruct i as [|i]; [|discriminate]. injection Hs as <-.
  vm_compute in Hf. congruence.
Defined.

(** ** Promotion to alternative entries *)

Lemma promote_alt_entries_S (fuel i : nat) (r : list SplitRegion.t) :
  promote_alt_entries (S fuel) i r =
    if bool_decide (i < length r)%nat then
      match r !! (i - 1)%nat, r !! i with
      | Some a, Some b =>
          if SplitRegion.offset a =? SplitRegion.offset b then
            promote_alt_entries fuel (S (S i))
              (<[i := SplitRegion.set_is_alt_entry true b]> r)
          else promote_alt_entries fuel (S i) r
      | _, _ => r
      end
    else r.
Proof. reflexivity. Qed.

Lemma promote_alt_entries_rel (fuel : nat) :
  ∀ (i : nat) (r : list SplitRegion.t), (1 ≤ i)%nat →
    length (promote_alt_entries fuel i r) = length r ∧
    ∀ k a, r !! k = Some a →
      ∃ b, promote_alt_entries fuel i r !! k = Some b ∧ same_region a b ∧
           (SplitRegion.is_alt_entry a = true → SplitRegion.is_alt_entry b = true) ∧
           (SplitRegion.is_alt_entry b = true →
            SplitRegion.is_alt_entry a = true ∨
            ((i ≤ k)%nat ∧
             ∃ c, r !! (k - 1)%nat = Some c ∧
                  SplitRegion.offset c = SplitRegion.offset a)).
Proof.
  induction fuel as [|fuel IH]; intros i r Hi.
  { cbn [promote_alt_entries]. split; [done|]. intros k a Ha. exists a.
    repeat split; try done. by left. }
  rewrite promote_alt_entries_S.
  assert (∀ k a, r !! k = Some a →
            ∃ b, r !! k = Some b ∧ same_region a b ∧
              (SplitRegion.is_alt_entry a = true → SplitRegion.is_alt_entry b = true) ∧
              (SplitRegion.is_alt_entry b = true →
               SplitRegion.is_alt_entry a = true ∨
               ((i ≤ k)%nat ∧
                ∃ c, r !! (k - 1)%nat = Some c ∧
                     SplitRegion.offset c = SplitRegion.offset a))) as Hid.
  { intros k a Ha. exists a. repeat split; try done. by left. }
  case_bool_decide as Hlt; [|done].
  destruct (r !! (i - 1)%nat) as [x|] eqn:Hx; [|done].
  destruct (r !! i) as [y|] eqn:Hy; [|done].
  destruct (SplitRegion.offset x =? SplitRegion.offset y) eqn:Heq.
  - apply Z.eqb_eq in Heq.
    destruct (IH (S (S i)) (<[i := SplitRegion.set_is_alt_entry true y]> r) ltac:(lia))
      as [Hlen Hrel].
    rewrite length_insert in Hlen. split; [done|].
    intros k a Ha. destruct (decide (k = i)) as [->|Hne].
    + rewrite Hy in Ha. injection Ha as <-.
      destruct (Hrel i (SplitRegion.set_is_alt_entry true y)) as (b & Hb & Hsame & Hup & _).
      { by apply list_lookup_insert_eq. }
      exists b. split; [done|]. split; [done|]. split; [by intros _; apply Hup|].
      intros _. right. split; [lia|]. by exists x.
    + destruct (Hrel k a) as (b & Hb & Hsame & Hup & Hdown).
      { by rewrite list_lookup_insert_ne. }
      exists b. split; [done|]. split; [done|]. split; [done|].
      intros Hbt. destruct (Hdown Hbt) as [?|[Hk (c & Hc & Hoff)]]; [by left|].
      right. split; [lia|].
      destruct (decide ((k - 1)%nat = i)) as [Hki|Hki].
      * rewrite Hki, list_lookup_insert_eq in Hc by done.
        injection Hc as <-. exists y. by rewrite <- Hki in Hy.
      * rewrite list_lookup_insert_ne in Hc by done. by exists c.
  - destruct (IH (S i) r ltac:(lia)) as [Hlen Hrel]. split; [done|].
    intros k a Ha. destruct (Hrel k a Ha) as (b & Hb & Hsame & Hup & Hdown).
    exists b. split; [done|]. split; [done|]. split; [done|].
    intros Hbt. destruct (Hdown Hbt) as [?|[Hk ?]]; [by left|].
    right. split; [lia | done].
Qed.

(** X11: the promotion loop changes nothing but marks.  It keeps the number
    of regions, every region's offset, size and symbol index, never clears
    a mark, and marks a region only if it has the offset of its immediate
    predecessor. *)
Theorem promote_alt_entries_only_marks_collisions (r : list SplitRegion.t)
    (k : nat) (a : SplitRegion.t) :
  r !! k = Some a →
  length (promote_alt_entries (length r) 1 r) = length r ∧
  ∃ b, promote_alt_entries (length r) 1 r !! k = Some b ∧ same_region a b ∧
       (SplitRegion.is_alt_entry a = true → SplitRegion.is_alt_entry b = true) ∧
       (SplitRegion.is_alt_entry b = true →
        SplitRegion.is_alt_entry a = true ∨
        ((1 ≤ k)%nat ∧
         ∃ c, r !! (k - 1)%nat = Some c ∧ SplitRegion.offset c = SplitRegion.offset a)).
Proof.
  intros Ha. destruct (promote_alt_entries_rel (length r) 1 r ltac:(lia)) as [Hlen Hrel].
  split; [done|]. by apply Hrel.
Qed.

Lemma promote_alt_entries_only_marks_collisions_witness :
  ∃ b, promote_alt_entries (length pair_then_one) 1 pair_then_one !! 2%nat = Some b ∧
       SplitRegion.is_alt_entry b = false.
Proof.
  destruct (promote_alt_entries_only_marks_collisions pair_then_one 2
              (SplitRegion.mk 8 0 2 false) eq_refl) as (_ & b & Hb & _ & _ & Hdown).
  exists b. split; [done|].
  destruct (SplitRegion.is_alt_entry b); [|done].
  destruct (Hdown eq_refl) as [?|[_ (c & Hc & Hoff)]]; [done|].
  injection Hc as <-. discriminate Hoff.
Defined.

Lemma promote_alt_entries_adjacent (fuel : nat) :
  ∀ (i : nat) (r : list SplitRegion.t), (1 ≤ i)%nat → (length r ≤ i + fuel)%nat →
    ∀ k x y, (i ≤ k)%nat → r !! (k - 1)%nat = Some x → r !! k = Some y →
      SplitRegion.offset x = SplitRegion.offset y →
      ∃ x' y', promote_alt_entries fuel i r !! (k - 1)%nat = Some x' ∧
               promote_alt_entries fuel i r !! k = Some y' ∧
               (SplitRegion.is_alt_entry x' = true ∨ SplitRegion.is_alt_entry y' = true).
Proof.
  induction fuel as [|fuel IH]; intros i r Hi Hfuel k x y Hk Hx Hy Hoff.
  { apply lookup_lt_Some in Hy. lia. }
  rewrite promote_alt_entries_S.
  pose proof (lookup_lt_Some _ _ _ Hy) as Hklt.
  rewrite bool_decide_eq_true_2 by lia.
  destruct (r !! (i - 1)%nat) as [a|] eqn:Ha.
  2:{ apply lookup_ge_None in Ha. lia. }
  destruct (r !! i) as [b|] eqn:Hb.
  2:{ apply lookup_ge_None in Hb. lia. }
  destruct (SplitRegion.offset a =? SplitRegion.offset b) eqn:Heq.
  - set (r1 := <[i := SplitRegion.set_is_alt_entry true b]> r).
    destruct (promote_alt_entries_rel fuel (S (S i)) r1 ltac:(lia)) as [_ Hrel].
    assert (r1 !! i = Some (SplitRegion.set_is_alt_entry true b)) as Hr1i.
    { apply list_lookup_insert_eq. by eapply lookup_lt_Some. }
    destruct (Hrel i _ Hr1i) as (bi & Hbi & _ & Hup & _).
    destruct (decide (k = i)) as [->|Hki].
    + assert (r1 !! (i - 1)%nat = Some x) as Hx1.
      { unfold r1. rewrite list_lookup_insert_ne by lia. done. }
      destruct (Hrel _ _ Hx1) as (x' & Hx' & _).
      exists x', bi. split; [done|]. split; [done|]. right. by apply Hup.
    + destruct (decide (k = S i)) as [->|Hki'].
      * assert (r1 !! S i = Some y) as Hy1.
        { unfold r1. rewrite list_lookup_insert_ne by lia. done. }
        destruct (Hrel _ _ Hy1) as (y' & Hy' & _).
        exists bi, y'. replace (S i - 1)%nat with i by lia.
        split; [done|]. split; [done|]. left. by apply Hup.
      * apply (IH (S (S i)) r1 ltac:(lia)) with (x := x) (y := y); [|lia| | |done].
        -- unfold r1. rewrite length_insert. lia.
        -- unfold r1. rewrite list_lookup_insert_ne by lia. done.
        -- unfold r1. rewrite list_lookup_insert_ne by lia. done.
  - apply Z.eqb_neq in Heq.
    destruct (decide (k = i)) as [->|Hki]; [congruence|].
    apply (IH (S i) r ltac:(lia)) with (x := x) (y := y); try done; lia.
Qed.

(** X12: what the promotion loop does guarantee.  Of any two neighbouring
    regions that share an offset, at least one is an alternative entry
    afterwards; so no two regions that both start a subsection are
    neighbours at one offset. *)
Theorem promote_alt_entries_adjacent_collision (r : list SplitRegion.t) (k : nat)
    (x y : SplitRegion.t) :
  (1 ≤ k)%nat → r !! (k - 1)%nat = Some x → r !! k = Some y →
  SplitRegion.offset x = SplitRegion.offset y →
  ∃ x' y', promote_alt_entries (length r) 1 r !! (k - 1)%nat = Some x' ∧
           promote_alt_entries (length r) 1 r !! k = Some y' ∧
           (SplitRegion.is_alt_entry x' = true ∨ SplitRegion.is_alt_entry y' = true).
Proof.
  intros Hk Hx Hy Hoff.
  apply (promote_alt_entries_adjacent (length r) 1 r ltac:(lia) ltac:(lia) k x y);
    done.
Qed.

Lemma promote_alt_entries_adjacent_collision_witness :
  ∃ x' y', promote_alt_entries (length three_at_zero) 1 three_at_zero !! 1%nat = Some x' ∧
           promote_alt_entries (length three_at_zero) 1 three_at_zero !! 2%nat = Some y' ∧
           (SplitRegion.is_alt_entry x' = true ∨ SplitRegion.is_alt_entry y' = true).
Proof.
  apply (promote_alt_entries_adjacent_collision three_at_zero 2
           (SplitRegion.mk 0 0 1 false) (SplitRegion.mk 0 0 2 false));
    [lia | reflexivity | reflexivity | reflexivity].
Defined.

(** ** Closing the sizes of the regions *)

Lemma promote_alt_entries_exact (r0 : list SplitRegion.t) :
  ∀ (fuel i : nat) (r : list SplitRegion.t),
    (1 ≤ i)%nat → (length r0 - i ≤ fuel)%nat → length r = length r0 →
    (∀ k a, r0 !! k = Some a →
       ∃ b, r !! k = Some b ∧ same_region a b ∧
            SplitRegion.is_alt_entry b =
              if bool_decide (k < i)%nat
              then SplitRegion.is_alt_entry a || promoted r0 k
              else SplitRegion.is_alt_entry a) →
    promoted r0 (i - 1) = false →
    ∀ k a, r0 !! k = Some a →
      ∃ b, promote_alt_entries fuel i r !! k = Some b ∧ same_region a b ∧
           SplitRegion.is_alt_entry b = SplitRegion.is_alt_entry a || promoted r0 k.
Proof.
  assert (∀ (i : nat) (r : list SplitRegion.t), (length r0 ≤ i)%nat →
            (∀ k a, r0 !! k = Some a →
               ∃ b, r !! k = Some b ∧ same_region a b ∧
                    SplitRegion.is_alt_entry b =
                      if bool_decide (k < i)%nat
                      then SplitRegion.is_alt_entry a || promoted r0 k
                      else SplitRegion.is_alt_entry a) →
            ∀ k a, r0 !! k = Some a →
              ∃ b, r !! k = Some b ∧ same_region a b ∧
                   SplitRegion.is_alt_entry b =
                     SplitRegion.is_alt_entry a || promoted r0 k) as Hend.
  { intros i r Hi Hinv k a Ha. destruct (Hinv k a Ha) as (b & Hb & Hsame & Halt).
    exists b. split; [done|]. split; [done|].
    apply lookup_lt_Some in Ha. by rewrite bool_decide_eq_true_2 in Halt by lia. }
  induction fuel as [|fuel IH]; intros i r Hi Hfuel Hlen Hinv Hprev.
  { cbn [promote_alt_entries]. apply (Hend i); [lia | done]. }
  rewrite promote_alt_entries_S. case_bool_decide as Hlt; [|apply (Hend i); [lia | done]].
  destruct (lookup_lt_is_Some_2 r0 (i - 1)) as [a0 Ha0]; [lia|].
  destruct (lookup_lt_is_Some_2 r0 i) as [b0 Hb0]; [lia|].
  destruct (Hinv _ _ Ha0) as (a' & Ha' & (Hoffa & _) & _).
  destruct (Hinv _ _ Hb0) as (b' & Hb' & (Hoffb & Hszb & Hsymb) & Haltb).
  rewrite bool_decide_eq_false_2 in Haltb by lia.
  rewrite Ha', Hb', Hoffa, Hoffb.
  assert (promoted r0 i =
          (SplitRegion.offset a0 =? SplitRegion.offset b0) && negb (promoted r0 (i - 1)))
    as Hpi.
  { destruct i as [|i]; [lia|]. cbn [promoted]. rewrite Nat.sub_succ, Nat.sub_0_r in *.
    by rewrite Ha0, Hb0. }
  rewrite Hprev in Hpi. cbn [negb] in Hpi. rewrite andb_true_r in Hpi.
  assert (promoted r0 (S i) = negb (promoted r0 i) && promoted r0 (S i)) as Hnext.
  { cbn [promoted]. destruct (promoted r0 i); cbn [negb andb]; [|done].
    destruct (r0 !! i); [|done]. destruct (r0 !! S i); [|done]. apply andb_false_r. }
  destruct (SplitRegion.offset a0 =? SplitRegion.offset b0) eqn:Heq.
  - apply IH; [lia | lia | by rewrite length_insert| |].
    + intros k a Ha. destruct (Hinv k a Ha) as (b & Hb & Hsame & Halt).
      destruct (decide (k = i)) as [->|Hne].
      * rewrite Hb0 in Ha. injection Ha as <-.
        eexists. split; [apply list_lookup_insert_eq; lia|].
        split; [by repeat split|]. rewrite bool_decide_eq_true_2 by lia.
        cbn. by rewrite Hpi, orb_true_r.
      * exists b. rewrite list_lookup_insert_ne by done. split; [done|].
        split; [done|]. rewrite Halt.
        destruct (decide (k = S i)) as [->|Hne'].
        -- rewrite bool_decide_eq_false_2, bool_decide_eq_true_2 by lia.
           rewrite Hnext, Hpi. cbn. by rewrite orb_false_r.
        -- repeat case_bool_decide; try done; lia.
    + replace (S (S i) - 1)%nat with (S i) by lia. rewrite Hnext, Hpi. done.
  - apply IH; [lia | lia | done| |].
    + intros k a Ha. destruct (Hinv k a Ha) as (b & Hb & Hsame & Halt).
      exists b. split; [done|]. split; [done|]. rewrite Halt.
      destruct (decide (k = i)) as [->|Hne].
      * rewrite bool_decide_eq_false_2, bool_decide_eq_true_2 by lia.
        by rewrite Hpi, orb_false_r.
      * repeat case_bool_decide; try done; lia.
    + by replace (S i - 1)%nat with i by lia.
Qed.

(** C5, as the code has it: the promotion loop marks a region exactly
    when the region carried the mark already, or has the offset of its
    immediate predecessor and the loop has not just promoted that
    predecessor; offsets, sizes and symbol indices are kept.  The loop
    promotes the second of each colliding pair and steps over the next
    comparison, so that of a run of regions at one offset the second, the
    fourth and so on are promoted, and the third, the fifth and so on keep
    the mark they had. *)
Theorem promote_alt_entries_second_of_each_pair (r : list SplitRegion.t) (k : nat)
    (a : SplitRegion.t) :
  r !! k = Some a →
  ∃ b, promote_alt_entries (length r) 1 r !! k = Some b ∧ same_region a b ∧
       SplitRegion.is_alt_entry b = SplitRegion.is_alt_entry a || promoted r k.
Proof.
  apply (promote_alt_entries_exact r (length r) 1 r); [lia | lia | done | | done].
  intros k' a' Ha'. exists a'. split; [done|]. split; [done|].
  case_bool_decide as Hk; [|done].
  assert (k' = 0%nat) as -> by lia. cbn. by rewrite orb_false_r.
Qed.

Lemma promote_alt_entries_second_of_each_pair_witness :
  ∃ b, promote_alt_entries (length three_at_zero) 1 three_at_zero !! 2%nat = Some b ∧
       same_region (SplitRegion.mk 0 0 2 false) b ∧
       SplitRegion.is_alt_entry b = false || promoted three_at_zero 2.
Proof.
  apply (promote_alt_entries_second_of_each_pair three_at_zero 2
           (SplitRegion.mk 0 0 2 false)).
  reflexivity.
Defined.

Lemma foldl_seq_inv {St : Type} (f : St → nat → St) (P : nat → St → Prop)
    (i0 n : nat) (s : St) :
  P i0 s →
  (∀ i t, (i0 ≤ i < i0 + n)%nat → P i t → P (S i) (f t i)) →
  P (i0 + n)%nat (foldl f s (seq i0 n)).
Proof.
  revert i0 s. induction n as [|n IH]; intros i0 s H0 Hstep.
  - by rewrite Nat.add_0_r.
  - cbn [seq foldl]. replace (i0 + S n)%nat with (S i0 + n)%nat by lia.
    apply IH; [apply Hstep; [lia | done]|].
    intros i t Hi. apply Hstep. lia.
Qed.

Lemma close_size_inv (r : list SplitRegion.t) (i : nat)
    (s : list SplitRegion.t * option nat) :
  (i < length r)%nat → close_inv r i s → close_inv r (S i) (close_size i s).
Proof.
  intros Hi (Hlen & Hsame & Hlast & Hpairs).
  destruct (lookup_lt_is_Some_2 r i Hi) as [ai Hai].
  destruct (Hsame i ai Hai) as (bi & Hbi & Hoffi & Hsymi & Halti & Hsizei).
  unfold close_size. rewrite Hbi.
  destruct (SplitRegion.is_alt_entry bi) eqn:Hbalt; cbn [negb].
  - (* an alternative entry: nothing changes *)
    rewrite Halti in Hbalt.
    split; [done|]. split; [done|]. split.
    + destruct s.2 as [l|].
      * destruct Hlast as (Hl & Hnon & Hbetween). split; [lia|]. split; [done|].
        intros m x Hm Hx. destruct (decide (m = i)) as [->|Hne].
        -- rewrite Hai in Hx. by injection Hx as <-.
        -- apply (Hbetween m); [lia | done].
      * intros m x Hm Hx. destruct (decide (m = i)) as [->|Hne].
        -- rewrite Hai in Hx. by injection Hx as <-.
        -- apply (Hlast m); [lia | done].
    + intros k j a c Hkj Ha Hc Haa Hca Hbetween.
      destruct (decide (j = i)) as [->|Hne].
      * rewrite Hai in Hc. injection Hc as <-. congruence.
      * apply (Hpairs k j a c); try done. lia.
  - (* a region that starts a subsection *)
    rewrite Halti in Hbalt. cbn [fst snd].
    destruct s.2 as [l|] eqn:Hs2.
    + destruct Hlast as (Hl & (al & Hal & Halalt) & Hbetween).
      destruct (Hsame l al Hal) as (bl & Hbl & Hoffl & Hsyml & Haltl & _).
      rewrite Hbl.
      set (bl' := SplitRegion.set_size
                    (u32 (SplitRegion.offset bi - SplitRegion.offset bl)) bl).
      unfold close_inv. cbn [fst snd].
      split; [by rewrite length_insert|]. split; [|split].
      * intros k a Ha. destruct (decide (k = l)) as [->|Hne].
        -- rewrite Hal in Ha. injection Ha as <-. exists bl'.
           split; [apply list_lookup_insert_eq; by eapply lookup_lt_Some|].
           split; [done|]. split; [done|]. split; [done | congruence].
        -- rewrite list_lookup_insert_ne by done. by apply Hsame.
      * split; [lia|]. split; [by exists ai|]. intros m x Hm. lia.
      * intros k j a c Hkj Ha Hc Haa Hca Hbetw.
        destruct (decide (j = i)) as [->|Hne].
        -- rewrite Hai in Hc. injection Hc as <-.
           assert (k = l) as ->.
           { destruct (decide (k < l)%nat) as [Hkl|Hkl].
             - specialize (Hbetw l al ltac:(lia) Hal). congruence.
             - destruct (decide (l < k)%nat) as [Hlk|Hlk]; [|lia].
               specialize (Hbetween k a ltac:(lia) Ha). congruence. }
           rewrite Hal in Ha. injection Ha as <-. exists bl'.
           split; [apply list_lookup_insert_eq; by eapply lookup_lt_Some|].
           cbn. by rewrite Hoffi, Hoffl.
        -- assert (j ≤ l)%nat as Hjl.
           { destruct (decide (j ≤ l)%nat) as [?|Hgt]; [done|].
             specialize (Hbetween j c ltac:(lia) Hc). congruence. }
           rewrite list_lookup_insert_ne by lia.
           apply (Hpairs k j a c); try done. lia.
    + unfold close_inv. cbn [fst snd]. split; [done|]. split; [done|]. split.
      * split; [lia|]. split; [by exists ai|]. intros m x Hm. lia.
      * intros k j a c Hkj Ha Hc Haa Hca Hbetw.
        destruct (decide (j = i)) as [->|Hne].
        -- specialize (Hlast k a ltac:(lia) Ha). congruence.
        -- specialize (Hlast k a ltac:(lia) Ha). congruence.
Qed.

Lemma close_sizes_spec (hdr_size : Z) (r : list SplitRegion.t) (k : nat)
    (a : SplitRegion.t) :
  r !! k = Some a →
  ∃ b, close_sizes hdr_size r !! k = Some b ∧ same_but_size a b ∧
       (SplitRegion.is_alt_entry a = false →
        (∀ j c, (k < j)%nat → r !! j = Some c → SplitRegion.is_alt_entry c = false →
                alt_between r k j →
                SplitRegion.size b = u32 (SplitRegion.offset c - SplitRegion.offset a)) ∧
        (alt_between r k (length r) →
         SplitRegion.size b = u32 (hdr_size - SplitRegion.offset a))).
Proof.
  intros Ha. unfold close_sizes.
  pose proof (foldl_seq_inv (λ s i, close_size i s) (close_inv r) 0 (length r) (r, None))
    as Hinv.
  cbn [Nat.add] in Hinv.
  destruct Hinv as (Hlen & Hsame & Hlast & Hpairs).
  { split; [done|]. split; [|split].
    - intros k' a' Ha'. exists a'. by repeat split.
    - intros m x Hm. lia.
    - intros k' j a' c Hkj. lia. }
  { intros i t Hi. apply close_size_inv. lia. }
  set (s := foldl (λ s i, close_size i s) (r, None) (seq 0 (length r))) in *.
  pose proof (lookup_lt_Some _ _ _ Ha) as Hk.
  destruct (Hsame k a Ha) as (b & Hb & Hoff & Hsym & Halt & Hsize).
  destruct s.2 as [l|] eqn:Hs2.
  - destruct Hlast as (Hl & (al & Hal & Halalt) & Hbetween).
    destruct (Hsame l al Hal) as (bl & Hbl & Hoffl & Hsyml & Haltl & _).
    rewrite Hbl.
    destruct (decide (k = l)) as [->|Hne].
    + rewrite Hal in Ha. injection Ha as <-. rewrite Hb in Hbl. injection Hbl as <-.
      eexists. split; [apply list_lookup_insert_eq; by eapply lookup_lt_Some|].
      split; [split; [done|]; split; [done|]; split; [done | cbn; congruence]|].
      intros _. split.
      * intros j c Hj Hc Hca _. specialize (Hbetween j c). apply lookup_lt_Some in Hc as Hjlt.
        rewrite Hbetween in Hca; [done | lia | done].
      * intros _. cbn. by rewrite Hoff.
    + exists b. split; [by rewrite list_lookup_insert_ne|]. split; [done|].
      intros Haa. split.
      * intros j c Hj Hc Hca Hbetw.
        destruct (Hpairs k j a c) as (b' & Hb' & Hsz); try done.
        { apply lookup_lt_Some in Hc. lia. }
        rewrite Hb in Hb'. by injection Hb' as <-.
      * intros Hbetw. exfalso.
        destruct (decide (k < l)%nat) as [Hkl|Hkl].
        -- specialize (Hbetw l al ltac:(lia) Hal). congruence.
        -- specialize (Hbetween k a ltac:(lia) Ha). congruence.
  - exists b. split; [done|]. split; [done|].
    intros Haa. specialize (Hlast k a Hk Ha). congruence.
Qed.

(** X13: the loop that closes the sizes makes the regions that start a
    subsection cover the section back to back.  It changes only sizes, and
    none of an alternative entry; every such region reaches to the offset of
    the next region that is not an alternative entry, and the last one
    reaches to the end of the section. *)
Theorem close_sizes_cover (hdr_size : Z) (r : list SplitRegion.t) (k : nat)
    (a : SplitRegion.t) :
  r !! k = Some a →
  ∃ b, close_sizes hdr_size r !! k = Some b ∧ same_but_size a b ∧
       (SplitRegion.is_alt_entry a = false →
        (∀ j c, (k < j)%nat → r !! j = Some c → SplitRegion.is_alt_entry c = false →
                alt_between r k j →
                SplitRegion.size b = u32 (SplitRegion.offset c - SplitRegion.offset a)) ∧
        (alt_between r k (length r) →
         SplitRegion.size b = u32 (hdr_size - SplitRegion.offset a))).
Proof. apply close_sizes_spec. Qed.

Lemma close_sizes_cover_witness :
  ∃ b, close_sizes 16 regions_0_0alt_8 !! 0%nat = Some b ∧ SplitRegion.size b = 8.
Proof.
  destruct (close_sizes_cover 16 regions_0_0alt_8 0 (SplitRegion.mk 0 0 0 false) eq_refl)
    as (b & Hb & _ & Hcover).
  exists b. split; [done|].
  destruct (Hcover eq_refl) as [Hnext _].
  rewrite (Hnext 2%nat (SplitRegion.mk 8 0 2 false)); [done | lia | done | done |].
  intros [|[|[|m]]] x Hm Hx; try lia. by injection Hx as <-.
Defined.

(** ** The fixed-up regions of a section *)

Lemma close_sizes_keys (hdr_size : Z) (r : list SplitRegion.t) :
  region_key <$> close_sizes hdr_size r = region_key <$> r.
Proof.
  assert (length (close_sizes hdr_size r) = length r) as Hlen.
  { unfold close_sizes.
    pose proof (foldl_seq_inv (λ s i, close_size i s) (close_inv r) 0 (length r)
                  (r, None)) as Hinv.
    cbn [Nat.add] in Hinv. destruct Hinv as (Hlen & _).
    { split; [done|]. split; [|split].
      - intros k' a' Ha'. exists a'. by repeat split.
      - intros m x Hm. lia.
      - intros k' j a' c Hkj. lia. }
    { intros i t Hi. apply close_size_inv. lia. }
    destruct (_.2) as [l|]; [|done].
    destruct (_ !! l); [by rewrite length_insert | done]. }
  apply list_eq. intros k. rewrite !list_lookup_fmap.
  destruct (r !! k) as [a|] eqn:Ha.
  - destruct (close_sizes_spec hdr_size r k a Ha) as (b & -> & (Hoff & Hsym & _) & _).
    cbn. unfold region_key. by rewrite Hoff, Hsym.
  - apply lookup_ge_None in Ha. rewrite lookup_ge_None_2 by lia. done.
Qed.

Lemma promote_alt_entries_keys (r : list SplitRegion.t) :
  region_key <$> promote_alt_entries (length r) 1 r = region_key <$> r.
Proof.
  destruct (promote_alt_entries_rel (length r) 1 r ltac:(lia)) as [Hlen Hrel].
  apply list_eq. intros k. rewrite !list_lookup_fmap.
  destruct (r !! k) as [a|] eqn:Ha.
  - destruct (Hrel k a Ha) as (b & -> & (Hoff & _ & Hsym) & _).
    cbn. unfold region_key. by rewrite Hoff, Hsym.
  - apply lookup_ge_None in Ha. rewrite lookup_ge_None_2 by lia. done.
Qed.

(** X14: fixing up the regions of a section that has symbols loses no
    symbol and invents none.  The regions that come out are the regions that
    went in, with their offsets and symbol indices, sorted by offset, behind
    at most one region without a symbol at offset 0; the first region always
    starts at offset 0. *)
Theorem fix_regions_layout (hdr_size : Z) (r : list SplitRegion.t) :
  r ≠ [] →
  (∀ a, a ∈ r → 0 ≤ SplitRegion.offset a) →
  (∃ front, (front = [] ∨ front = [(0, NO_SYMBOL)]) ∧
            region_key <$> fix_regions hdr_size r ≡ₚ front ++ (region_key <$> r)) ∧
  (∃ a0, fix_regions hdr_size r !! 0%nat = Some a0 ∧ SplitRegion.offset a0 = 0) ∧
  (∀ i j ki kj, (i < j)%nat →
     (region_key <$> fix_regions hdr_size r) !! i = Some ki →
     (region_key <$> fix_regions hdr_size r) !! j = Some kj → ki.1 ≤ kj.1).
Proof.
  intros Hne Hpos. unfold fix_regions. destruct r as [|x0 r0] eqn:Hr; [done|].
  rewrite <- Hr in *. clear Hne.
  set (less := λ a b : SplitRegion.t, SplitRegion.offset a <? SplitRegion.offset b).
  set (r1 := sort less r).
  assert (r1 ≡ₚ r) as Hperm by apply sort_perm.
  assert (StronglySorted (λ a b, less b a = false) r1) as Hsorted.
  { apply (sort_sorted less (λ _, True)).
    - intros a b _ _ H. unfold less in *. apply Z.ltb_lt in H. apply Z.ltb_ge. lia.
    - intros a b c _ _ _ H1 H2. unfold less in *.
      apply Z.ltb_ge in H1, H2. apply Z.ltb_ge. lia.
    - by apply Forall_forall. }
  assert (∀ a, a ∈ r1 → 0 ≤ SplitRegion.offset a) as Hpos1.
  { intros a Ha. apply Hpos. by rewrite <- Hperm. }
  set (r2 := match r1 with
             | a :: _ =>
                 if 0 <? SplitRegion.offset a then
                   SplitRegion.mk 0 (SplitRegion.offset a) NO_SYMBOL false :: r1
                 else r1
             | [] => r1
             end).
  rewrite close_sizes_keys, promote_alt_entries_keys.
  assert (∃ a0, close_sizes hdr_size (promote_alt_entries (length r2) 1 r2) !! 0%nat
                = Some a0 ∧ region_key a0 ∈ region_key <$> take 1 r2) as Hhead.
  { assert ((region_key <$> close_sizes hdr_size (promote_alt_entries (length r2) 1 r2))
            !! 0%nat = (region_key <$> r2) !! 0%nat) as Hk
      by (by rewrite close_sizes_keys, promote_alt_entries_keys).
    rewrite !list_lookup_fmap in Hk.
    destruct r2 as [|y r2'] eqn:Hr2.
    - exfalso. unfold r2 in Hr2. destruct r1 as [|a r1'] eqn:Hr1.
      + apply Permutation_nil_l in Hperm. by rewrite Hr in Hperm.
      + by destruct (0 <? SplitRegion.offset a).
    - destruct (_ !! 0%nat) as [a0|]; [|discriminate].
      exists a0. split; [done|].
      assert (region_key a0 = region_key y) as ->
        by (change (Some (region_key a0) = Some (region_key y)) in Hk; congruence).
      apply list_elem_of_here. }
  assert (StronglySorted (λ a b, less b a = false) r2 ∧
          (∃ front, (front = [] ∨ front = [(0, NO_SYMBOL)]) ∧
                    region_key <$> r2 = front ++ (region_key <$> r1)) ∧
          ∀ a, a ∈ take 1 r2 → SplitRegion.offset a = 0) as (Hsorted2 & Hfront & Hzero).
  { unfold r2. destruct r1 as [|a r1'] eqn:Hr1.
    { split; [constructor|]. split; [exists []; by split; [left|]|].
      intros a Ha. cbn in Ha. by apply not_elem_of_nil in Ha. }
    destruct (0 <? SplitRegion.offset a) eqn:Hgt.
    - split; [|split].
      + constructor; [done|]. apply Forall_forall. intros b Hb. unfold less. cbn.
        apply Z.ltb_ge. by apply Hpos1.
      + exists [(0, NO_SYMBOL)]. split; [by right | done].
      + intros b Hb. cbn in Hb. by apply list_elem_of_singleton in Hb as ->.
    - split; [done|]. split; [exists []; by split; [left|]|].
      intros b Hb. cbn in Hb. apply list_elem_of_singleton in Hb as ->.
      apply Z.ltb_ge in Hgt. specialize (Hpos1 a (list_elem_of_here _ _)). lia. }
  split; [|split].
  - destruct Hfront as (front & Hf & ->). exists front. split; [done|].
    by rewrite Hperm.
  - destruct Hhead as (a0 & Ha0 & Hin). exists a0. split; [done|].
    apply list_elem_of_fmap in Hin as (y & Hy & Hyin).
    unfold region_key in Hy. injection Hy as -> _. by apply Hzero.
  - intros i j ki kj Hij Hi Hj. rewrite list_lookup_fmap in Hi, Hj.
    destruct (r2 !! i) as [ai|] eqn:Hai; [|discriminate].
    destruct (r2 !! j) as [aj|] eqn:Haj; [|discriminate].
    injection Hi as <-. injection Hj as <-. cbn.
    pose proof (StronglySorted_lookup _ r2 i j ai aj Hsorted2 Hij Hai Haj) as Hle.
    unfold less in Hle. by apply Z.ltb_ge in Hle.
Qed.

Lemma fix_regions_layout_witness :
  ∃ a0, fix_regions 16 three_at_zero !! 0%nat = Some a0 ∧ SplitRegion.offset a0 = 0.
Proof.
  apply (fix_regions_layout 16 three_at_zero); [discriminate|].
  intros a Ha.
  apply elem_of_cons in Ha as [->|Ha]; [done|].
  apply elem_of_cons in Ha as [->|Ha]; [done|].
  apply list_elem_of_singleton in Ha as ->. done.
Defined.

(** ** Splitting a section of strings *)

Lemma find_first_Some (P : Byte.byte → bool) (l : list Byte.byte) (i k : nat) :
  find_first P l i = Some k →
  (i ≤ k < i + length l)%nat ∧ ∃ b, l !! (k - i)%nat = Some b ∧ P b = true.
Proof.
  revert i. induction l as [|x l IH]; intros i; cbn [find_first length]; [done|].
  destruct (P x) eqn:Hx.
  - intros [= <-]. split; [lia|]. exists x. by rewrite Nat.sub_diag.
  - intros Hk. destruct (IH _ Hk) as [Hr (b & Hb & HP)]. split; [lia|].
    exists b. split; [|done]. replace (k - i)%nat with (S (k - S i)) by lia. done.
Qed.

Lemma find_first_exists (P : Byte.byte → bool) (l : list Byte.byte) (i j : nat)
    (b : Byte.byte) :
  l !! j = Some b → P b = true → ∃ k, find_first P l i = Some k ∧ (k ≤ i + j)%nat.
Proof.
  revert i j. induction l as [|x l IH]; intros i j Hj HP; [done|].
  cbn [find_first]. destruct (P x) eqn:Hx; [exists i; split; [done | lia]|].
  destruct j as [|j]; [injection Hj as <-; congruence|].
  destruct (IH (S i) j Hj HP) as (k & Hk & Hle). exists k. split; [done | lia].
Qed.

Lemma str_find_Some (c : Byte.byte) (str : list Byte.byte) (pos e : nat) :
  str_find c str pos = Some e → (pos ≤ e < length str)%nat ∧ str !! e = Some c.
Proof.
  unfold str_find. intros H. apply find_first_Some in H as [Hr (b & Hb & HP)].
  rewrite length_drop in Hr. rewrite lookup_drop in Hb.
  apply Byte.byte_dec_bl in HP as ->.
  split; [lia|]. by replace (pos + (e - pos))%nat with e in Hb by lia.
Qed.

Lemma str_find_first_not_of_Some (c : Byte.byte) (str : list Byte.byte) (pos e : nat) :
  str_find_first_not_of c str pos = Some e →
  (pos ≤ e < length str)%nat ∧ ∃ b, str !! e = Some b ∧ b ≠ c.
Proof.
  unfold str_find_first_not_of. intros H.
  apply find_first_Some in H as [Hr (b & Hb & HP)].
  rewrite length_drop in Hr. rewrite lookup_drop in Hb.
  split; [lia|]. exists b. replace (pos + (e - pos))%nat with e in Hb by lia.
  split; [done|]. apply negb_true_iff in HP. by apply Byte.eqb_false.
Qed.

(** The end of a chunk lies behind its terminator. *)
Lemma chunk_end_bounds (str : list Byte.byte) (pos end0 : nat) :
  str_find Byte.x00 str pos = Some end0 →
  (pos ≤ end0)%nat ∧
  (end0 < match str_find_first_not_of Byte.x00 str end0 with
          | Some e => e
          | None => length str
          end ≤ length str)%nat.
Proof.
  intros H. apply str_find_Some in H as [Hr Hnul]. split; [lia|].
  destruct (str_find_first_not_of Byte.x00 str end0) as [e|] eqn:He; [|lia].
  apply str_find_first_not_of_Some in He as [Hr' (b & Hb & Hne)].
  destruct (decide (e = end0)) as [->|?]; [congruence | lia].
Qed.

Lemma split_cstring_terminated (isec : nat) (hdr_addr hdr_p2align : Z)
    (str : list Byte.byte) :
  last str = Some Byte.x00 →
  ∀ fuel pos acc, (length str - pos ≤ fuel)%nat →
    is_Some (split_cstring fuel isec hdr_addr hdr_p2align str pos acc).
Proof.
  intros Hlast. rewrite last_lookup in Hlast.
  induction fuel as [|fuel IH]; intros pos acc Hfuel.
  - cbn [split_cstring]. rewrite bool_decide_eq_false_2 by lia. done.
  - rewrite split_cstring_S. case_bool_decide as Hpos; [|done].
    destruct (str_find Byte.x00 str pos) as [end0|] eqn:Hfind.
    + pose proof (chunk_end_bounds _ _ _ Hfind) as [H1 H2]. cbn zeta.
      apply IH. lia.
    + exfalso. unfold str_find in Hfind.
      destruct (find_first_exists (λ b, Byte.eqb b Byte.x00) (drop pos str) pos
                  (pred (length str) - pos) Byte.x00) as (k & Hk & _).
      * rewrite lookup_drop. by replace (pos + (pred (length str) - pos))%nat
          with (pred (length str)) by lia.
      * done.
      * congruence.
Qed.

Lemma split_cstring_unterminated (isec : nat) (hdr_addr hdr_p2align : Z)
    (str : list Byte.byte) (b : Byte.byte) :
  last str = Some b → b ≠ Byte.x00 →
  ∀ fuel pos acc, (pos < length str)%nat →
    split_cstring fuel isec hdr_addr hdr_p2align str pos acc = None.
Proof.
  intros Hlast Hb. rewrite last_lookup in Hlast.
  induction fuel as [|fuel IH]; intros pos acc Hpos.
  - cbn [split_cstring]. by rewrite bool_decide_eq_true_2.
  - rewrite split_cstring_S, bool_decide_eq_true_2 by done.
    destruct (str_find Byte.x00 str pos) as [end0|] eqn:Hfind; [|done].
    apply str_find_Some in Hfind as [Hr Hnul]. cbn zeta.
    destruct (find_first_exists (λ c, negb (Byte.eqb c Byte.x00)) (drop end0 str) end0
                (pred (length str) - end0) b) as (k & Hk & Hle).
    + rewrite lookup_drop. by replace (end0 + (pred (length str) - end0))%nat
        with (pred (length str)) by lia.
    + apply negb_true_iff. destruct (Byte.eqb b Byte.x00) eqn:He; [|done].
      by apply Byte.byte_dec_bl in He.
    + unfold str_find_first_not_of. rewrite Hk. apply IH. lia.
Qed.

(** X15: the splitter of a [__cstring] section succeeds exactly when the
    section is empty or its last byte is a terminator; contents whose last
    string is not terminated are fatal. *)
Theorem split_cstring_succeeds_iff_terminated (isec : nat) (hdr_addr hdr_p2align : Z)
    (str : list Byte.byte) :
  is_Some (split_cstring (length str) isec hdr_addr hdr_p2align str 0 []) ↔
  str = [] ∨ last str = Some Byte.x00.
Proof.
  split.
  - intros Hsome. destruct (last str) as [b|] eqn:Hlast.
    + destruct (Byte.byte_eq_dec b Byte.x00) as [->|Hne]; [by right|].
      exfalso. destruct str as [|x str']; [done|].
      rewrite (split_cstring_unterminated _ _ _ _ b Hlast Hne) in Hsome;
        [by destruct Hsome | cbn; lia].
    + left. by apply last_None.
  - intros [->|Hlast]; [done|]. apply split_cstring_terminated; [done | lia].
Qed.

Lemma countr_zero_pos_divide (p : positive) :
  0 ≤ countr_zero_pos p ∧ (2 ^ countr_zero_pos p | Z.pos p).
Proof.
  induction p as [p _|p [IH0 IH]|]; cbn [countr_zero_pos].
  - split; [lia | apply Z.divide_1_l].
  - split; [lia|]. destruct IH as [z Hz]. exists z.
    rewrite Z.pow_add_r by lia. rewrite Pos2Z.inj_xO, Hz. change (2 ^ 1) with 2. ring.
  - split; [lia | apply Z.divide_1_l].
Qed.

Lemma countr_zero_range (x : Z) :
  0 ≤ x < 2 ^ 32 → 0 ≤ countr_zero x ≤ 64 ∧ (2 ^ countr_zero x | x).
Proof.
  intros Hx. destruct x as [|p|p]; cbn [countr_zero]; [|
    |lia].
  - split; [lia | apply Z.divide_0_r].
  - destruct (countr_zero_pos_divide p) as [H0 Hdiv]. split; [|done].
    split; [done|].
    apply Z.divide_pos_le in Hdiv; [|lia].
    destruct (Z_lt_le_dec 64 (countr_zero_pos p)) as [Hgt|?]; [|lia].
    assert (2 ^ 32 ≤ 2 ^ countr_zero_pos p) by (apply Z.pow_le_mono_r; lia). lia.
Qed.

Lemma split_cstring_acc (isec0 : nat) (hdr_addr hdr_p2align : Z)
    (str : list Byte.byte) :
  Z.of_nat (length str) < 2 ^ 32 →
  ∀ fuel pos acc l, (pos ≤ length str)%nat →
    split_cstring fuel isec0 hdr_addr hdr_p2align str pos acc = Some l →
    ∃ new, l = acc ++ new ∧
           back_to_back (Z.of_nat pos) new (Z.of_nat (length str)) ∧
           Forall (cstring_aligned isec0 hdr_addr hdr_p2align) new.
Proof.
  intros Hlen. induction fuel as [|fuel IH]; intros pos acc l Hpos.
  - cbn [split_cstring]. case_bool_decide; [done|]. intros [= <-].
    exists []. rewrite app_nil_r. split; [done|]. split; [cbn; lia | constructor].
  - rewrite split_cstring_S. case_bool_decide as Hlt.
    2:{ intros [= <-]. exists []. rewrite app_nil_r.
        split; [done|]. split; [cbn; lia | constructor]. }
    destruct (str_find Byte.x00 str pos) as [end0|] eqn:Hfind; [|done].
    pose proof (chunk_end_bounds _ _ _ Hfind) as [H1 H2]. cbn zeta.
    set (end1 := match str_find_first_not_of Byte.x00 str end0 with
                 | Some e => e
                 | None => length str
                 end) in *.
    intros Hrun. apply IH in Hrun as (new & -> & Hb2b & Hall); [|lia].
    eexists (_ :: new). rewrite <- app_assoc. split; [done|].
    assert (u32 (Z.of_nat pos) = Z.of_nat pos) as Hupos
      by (unfold u32; apply Z.mod_small; lia).
    assert (u32 (Z.of_nat end1 - Z.of_nat pos) = Z.of_nat end1 - Z.of_nat pos) as Husz
      by (unfold u32; apply Z.mod_small; lia).
    destruct (countr_zero_range (Z.of_nat pos) ltac:(lia)) as [Hctz Hdiv].
    assert (0 ≤ u8 hdr_p2align < 2 ^ 8) as Hu8 by (unfold u8; apply Z.mod_pos_bound; lia).
    assert (u8 (countr_zero (Z.of_nat pos)) = countr_zero (Z.of_nat pos)) as Huctz
      by (unfold u8; apply Z.mod_small; lia).
    set (m := Z.min (u8 hdr_p2align) (u8 (countr_zero (Z.of_nat pos)))) in *.
    assert (u8 m = m) as Hum by (unfold u8 at 1; apply Z.mod_small; lia).
    split; [|constructor; [|done]].
    + cbn [back_to_back add_subsection input_offset input_size].
      rewrite Hupos, Husz. split; [done|]. split; [lia|].
      by replace (Z.of_nat pos + (Z.of_nat end1 - Z.of_nat pos)) with (Z.of_nat end1) by lia.
    + unfold cstring_aligned, add_subsection. cbn. rewrite Hupos, Hum.
      split; [done|]. split; [done|]. split; [lia|].
      etrans; [|exact Hdiv].
      exists (2 ^ (countr_zero (Z.of_nat pos) - m)).
      rewrite <- Z.pow_add_r by lia. f_equal. lia.
Qed.

(** X16: when the splitter returns, the subsections it gives lie back to
    back, start at offset 0, end at the end of the section, and none of
    them is empty (for a section of less than 2^32 bytes). *)
Theorem split_cstring_covers (fuel isec : nat) (hdr_addr hdr_p2align : Z)
    (str : list Byte.byte) (l : list Subsection) :
  Z.of_nat (length str) < 2 ^ 32 →
  split_cstring fuel isec hdr_addr hdr_p2align str 0 [] = Some l →
  back_to_back 0 l (Z.of_nat (length str)).
Proof.
  intros Hlen Hrun.
  apply (split_cstring_acc _ _ _ _ Hlen) in Hrun as (new & -> & Hb2b & _); [done | lia].
Qed.

Lemma split_cstring_covers_witness :
  match split_cstring 7 0 0 0 hi_yo 0 [] with
  | Some l => back_to_back 0 l 7
  | None => False
  end.
Proof.
  destruct (split_cstring 7 0 0 0 hi_yo 0 []) as [l|] eqn:Hrun;
    [|vm_compute in Hrun; discriminate].
  apply (split_cstring_covers 7 0 0 0 hi_yo l); [vm_compute; reflexivity | exact Hrun].
Defined.

(** X17: the alignment the splitter gives a string is sound: it never
    exceeds the alignment of the section, and the offset of the subsection is
    a multiple of two to that power; the subsection belongs to the section
    and its address is the section's address plus its offset. *)
Theorem split_cstring_alignment (fuel isec : nat) (hdr_addr hdr_p2align : Z)
    (str : list Byte.byte) (l : list Subsection) :
  Z.of_nat (length str) < 2 ^ 32 →
  split_cstring fuel isec hdr_addr hdr_p2align str 0 [] = Some l →
  Forall (cstring_aligned isec hdr_addr hdr_p2align) l.
Proof.
  intros Hlen Hrun.
  apply (split_cstring_acc _ _ _ _ Hlen) in Hrun as (new & -> & _ & Hall); [done | lia].
Qed.

Lemma split_cstring_alignment_witness :
  match split_cstring 7 0 0 4 hi_yo 0 [] with
  | Some l => Forall (cstring_aligned 0 0 4) l
  | None => False
  end.
Proof.
  destruct (split_cstring 7 0 0 4 hi_yo 0 []) as [l|] eqn:Hrun;
    [|vm_compute in Hrun; discriminate].
  apply (split_cstring_alignment 7 0 0 4 hi_yo l); [vm_compute; reflexivity | exact Hrun].
Defined.

(** ** The library search *)

Lemma first_open_app (fs : FileSystem) (l1 l2 : list string) :
  first_open fs (l1 ++ l2) =
    match first_open fs l1 with
    | Some file => Some file
    | None => first_open fs l2
    end.
Proof.
  induction l1 as [|p l1 IH]; [done|]. cbn [app first_open].
  by destruct (fs p).
Qed.

Lemma first_open_Some (fs : FileSystem) (l : list string) (mf : MappedFile) :
  first_open fs l = Some mf → ∃ p, p ∈ l ∧ fs p = Some mf.
Proof.
  induction l as [|p l IH]; [done|]. cbn [first_open].
  destruct (fs p) as [file|] eqn:Hp.
  - intros [= <-]. exists p. split; [apply list_elem_of_here | done].
  - intros (q & Hq & Hfs)%IH. exists q. split; [by apply list_elem_of_further | done].
Qed.

Lemma first_open_None (fs : FileSystem) (l : list string) :
  first_open fs l = None → ∀ p, p ∈ l → fs p = None.
Proof.
  induction l as [|q l IH]; intros Hrun p Hp; [by apply elem_of_nil in Hp|].
  cbn [first_open] in Hrun. destruct (fs q) as [file|] eqn:Hq; [done|].
  apply elem_of_cons in Hp as [->|Hp]; [done | by apply IH].
Qed.

(** X18: the search for an absolute path.  A file that is returned was
    opened at one of the paths tried under a root of [syslibroot], and
    nothing opens at any path tried under an earlier root; null is returned
    exactly when nothing opens at any path tried under any root, so without a
    root the search finds nothing, whatever the file system holds. *)
Theorem find_external_lib_absolute (fs : FileSystem) (ctx : Context)
    (parent path : string) :
  starts_with_slash path = true →
  match find_external_lib fs ctx parent path with
  | Some mf =>
      ∃ i root p,
        arg_syslibroot ctx !! i = Some root ∧ p ∈ tried_under root path ∧
        fs p = Some mf ∧
        ∀ j root' q, (j < i)%nat → arg_syslibroot ctx !! j = Some root' →
                     q ∈ tried_under root' path → fs q = None
  | None =>
      ∀ root p, root ∈ arg_syslibroot ctx → p ∈ tried_under root path → fs p = None
  end.
Proof.
  intros Habs. unfold find_external_lib. rewrite Habs. cbn [negb].
  rewrite find_in_roots_first_open.
  induction (arg_syslibroot ctx) as [|root roots IH].
  - cbn. intros root p Hroot. by apply elem_of_nil in Hroot.
  - cbn [mbind list_bind]. rewrite first_open_app.
    destruct (first_open fs (tried_under root path)) as [file|] eqn:Hfirst.
    + apply first_open_Some in Hfirst as (p & Hp & Hfs).
      exists 0%nat, root, p. split; [done|]. split; [done|]. split; [done|]. lia.
    + pose proof (first_open_None _ _ Hfirst) as Hnone.
      change (foldr _ _ _) with (roots ≫= λ root, tried_under root path).
      destruct (first_open fs (roots ≫= _)) as [file|].
      * destruct IH as (i & root' & p & Hi & Hp & Hfs & Hbefore).
        exists (S i), root', p. split; [done|]. split; [done|]. split; [done|].
        intros [|j] root'' q Hj Hroot Hq.
        -- injection Hroot as <-. by apply Hnone.
        -- apply (Hbefore j root''); [lia | done | done].
      * intros root' p [->|Hroot]%elem_of_cons Hp; [by apply Hnone | by eapply IH].
Qed.

Lemma find_external_lib_absolute_witness :
  match find_external_lib fs_stub_only ctx_sdk "/usr/lib/libbar.dylib"
                          "/usr/lib/libfoo.dylib" with
  | Some mf =>
      ∃ i root p,
        arg_syslibroot ctx_sdk !! i = Some root ∧
        p ∈ tried_under root "/usr/lib/libfoo.dylib" ∧
        fs_stub_only p = Some mf ∧
        ∀ j root' q, (j < i)%nat → arg_syslibroot ctx_sdk !! j = Some root' →
                     q ∈ tried_under root' "/usr/lib/libfoo.dylib" →
                     fs_stub_only q = None
  | None =>
      ∀ root p, root ∈ arg_syslibroot ctx_sdk →
                p ∈ tried_under root "/usr/lib/libfoo.dylib" → fs_stub_only p = None
  end.
Proof.
  apply (find_external_lib_absolute fs_stub_only ctx_sdk "/usr/lib/libbar.dylib"
           "/usr/lib/libfoo.dylib").
  reflexivity.
Defined.

(** ** Creating a dylib: what it takes to return *)

Lemma DylibFile_create_step (fuel : nat) (fs : FileSystem) (ctx : Context)
    (mf : MappedFile) (d : DylibFile) :
  DylibFile_create (S fuel) fs ctx mf = Some d →
  mf_type mf ≠ OTHER_FILE ∧
  ∀ path, path ∈ tbd_reexported_libs (mf_dylib mf) →
    ∃ child c,
      find_external_lib fs ctx (tbd_install_name (mf_dylib mf)) path = Some child ∧
      DylibFile_create fuel fs ctx child = Some c.
Proof.
  intros Hrun. split.
  - cbn [DylibFile_create] in Hrun. intros Htype. by rewrite Htype in Hrun.
  - apply DylibFile_create_unfold in Hrun as (fuel' & s & [= <-] & Hmerge & _).
    apply merge_reexports_spec in Hmerge as (_ & _ & Hchildren & _).
    intros path Hpath. destruct (Hchildren path Hpath) as (child & c & Hfind & Hc & _).
    by exists child, c.
Qed.

Lemma DylibFile_create_reachable (fs : FileSystem) (ctx : Context)
    (mf mf' : MappedFile) :
  reexported fs ctx mf mf' →
  ∀ fuel d, DylibFile_create fuel fs ctx mf = Some d →
    ∃ fuel' d', (fuel' ≤ fuel)%nat ∧ DylibFile_create fuel' fs ctx mf' = Some d'.
Proof.
  induction 1 as [mf|mf child mf' path Hpath Hfind _ IH]; intros fuel d Hrun.
  - by exists fuel, d.
  - destruct fuel as [|fuel]; [discriminate|].
    apply DylibFile_create_step in Hrun as [_ Hchildren].
    destruct (Hchildren path Hpath) as (child' & c & Hfind' & Hc).
    rewrite Hfind in Hfind'. injection Hfind' as <-.
    destruct (IH _ _ Hc) as (fuel' & d' & Hle & Hrun').
    exists fuel', d'. split; [lia | done].
Qed.

(** X19: [DylibFile::create] returns only if the whole chain of reexports
    is sound: every library reached through it is a text stub or a dylib,
    and the search finds every library that one of them reexports.  A file
    of another type or a reexport that cannot be opened, anywhere in the
    chain, is fatal. *)
Theorem DylibFile_create_needs_whole_chain (fuel : nat) (fs : FileSystem)
    (ctx : Context) (mf : MappedFile) (d : DylibFile) :
  DylibFile_create fuel fs ctx mf = Some d →
  ∀ mf', reexported fs ctx mf mf' →
    mf_type mf' ≠ OTHER_FILE ∧
    ∀ path, path ∈ tbd_reexported_libs (mf_dylib mf') →
      is_Some (find_external_lib fs ctx (tbd_install_name (mf_dylib mf')) path).
Proof.
  intros Hrun mf' Hre.
  destruct (DylibFile_create_reachable _ _ _ _ Hre _ _ Hrun) as (fuel' & d' & _ & Hrun').
  destruct fuel' as [|fuel']; [discriminate|].
  apply DylibFile_create_step in Hrun' as [Htype Hchildren].
  split; [done|]. intros path Hpath.
  destruct (Hchildren path Hpath) as (child & c & Hfind & _). by exists child.
Qed.

Lemma DylibFile_create_needs_whole_chain_witness :
  match DylibFile_create 2 fs_foo_bar ctx_default libbar_file with
  | Some d =>
      ∀ mf', reexported fs_foo_bar ctx_default libbar_file mf' →
        mf_type mf' ≠ OTHER_FILE ∧
        ∀ path, path ∈ tbd_reexported_libs (mf_dylib mf') →
          is_Some (find_external_lib fs_foo_bar ctx_default
                     (tbd_install_name (mf_dylib mf')) path)
  | None => False
  end.
Proof.
  destruct (DylibFile_create 2 fs_foo_bar ctx_default libbar_file) as [d|] eqn:Hrun;
    [|vm_compute in Hrun; discriminate].
  exact (DylibFile_create_needs_whole_chain 2 fs_foo_bar ctx_default libbar_file d Hrun).
Defined.

Lemma DylibFile_create_on_cycle (fs : FileSystem) (ctx : Context)
    (mf child : MappedFile) (path : string) :
  path ∈ tbd_reexported_libs (mf_dylib mf) →
  find_external_lib fs ctx (tbd_install_name (mf_dylib mf)) path = Some child →
  reexported fs ctx child mf →
  ∀ fuel, DylibFile_create fuel fs ctx mf = None.
Proof.
  intros Hpath Hfind Hback fuel.
  induction fuel as [fuel IH] using lt_wf_ind.
  destruct (DylibFile_create fuel fs ctx mf) as [d|] eqn:Hrun; [|done].
  exfalso. destruct fuel as [|fuel]; [discriminate|].
  apply DylibFile_create_step in Hrun as [_ Hchildren].
  destruct (Hchildren path Hpath) as (child' & c & Hfind' & Hc).
  rewrite Hfind in Hfind'. injection Hfind' as <-.
  destruct (DylibFile_create_reachable _ _ _ _ Hback _ _ Hc) as (fuel' & d' & Hle & Hrun').
  rewrite (IH fuel') in Hrun' by lia. discriminate.
Qed.

(** X20: a cycle of reexports is never got out of.  If a library reached
    from the file reexports, directly or through others, itself, then
    [DylibFile::create] does not return a dylib for the file, however long
    it runs. *)
Theorem DylibFile_create_cycle_never_returns (fs : FileSystem) (ctx : Context)
    (root mf child : MappedFile) (path : string) :
  reexported fs ctx root mf →
  path ∈ tbd_reexported_libs (mf_dylib mf) →
  find_external_lib fs ctx (tbd_install_name (mf_dylib mf)) path = Some child →
  reexported fs ctx child mf →
  ∀ fuel, DylibFile_create fuel fs ctx root = None.
Proof.
  intros Hreach Hpath Hfind Hback fuel.
  destruct (DylibFile_create fuel fs ctx root) as [d|] eqn:Hrun; [|done].
  destruct (DylibFile_create_reachable _ _ _ _ Hreach _ _ Hrun) as (fuel' & d' & _ & Hrun').
  by rewrite (DylibFile_create_on_cycle _ _ _ _ _ Hpath Hfind Hback) in Hrun'.
Qed.

Lemma DylibFile_create_cycle_never_returns_witness :
  DylibFile_create 1000 fs_self ctx_default libself_file = None.
Proof.
  apply (DylibFile_create_cycle_never_returns fs_self ctx_default libself_file
           libself_file libself_file "libself.dylib").
  - apply reexported_self.
  - apply list_elem_of_here.
  - reflexivity.
  - apply reexported_self.
Defined.

(** ** Compact unwind records: what is read *)

Lemma apply_unwind_reloc_spec (heap : SubsecHeap) (o : ObjectFile) (hdr_size : Z)
    (src : nat → CompactUnwindEntry.t) (rel : MachRel.t)
    (recs recs' : list UnwindRecord.t) :
  apply_unwind_reloc heap o hdr_size src rel recs = Some recs' →
  supported_unwind_reloc hdr_size rel ∧
  ∃ dst dst',
    recs !! unwind_reloc_entry rel = Some dst ∧
    recs' = <[unwind_reloc_entry rel := dst']> recs ∧
    UnwindRecord.code_len dst' = UnwindRecord.code_len dst ∧
    UnwindRecord.encoding dst' = UnwindRecord.encoding dst ∧
    ((MachRel.offset rel mod sizeof_CompactUnwindEntry = offsetof_code_start ∧
      located_by heap o (src (unwind_reloc_entry rel)) dst') ∨
     (MachRel.offset rel mod sizeof_CompactUnwindEntry ≠ offsetof_code_start ∧
      UnwindRecord.subsec dst' = UnwindRecord.subsec dst ∧
      UnwindRecord.offset dst' = UnwindRecord.offset dst)).
Proof.
  unfold apply_unwind_reloc, supported_unwind_reloc, unwind_reloc_entry.
  destruct (hdr_size <=? MachRel.offset rel) eqn:Hoff; [done|].
  apply Z.leb_gt in Hoff.
  destruct (recs !! _) as [dst|] eqn:Hdst; [|done].
  destruct (MachRel.is_pcrel rel) eqn:Hpc; cbn [orb]; [done|].
  destruct (MachRel.p2size rel =? 3) eqn:Hsz; cbn [negb orb]; [|done].
  apply Z.eqb_eq in Hsz.
  destruct (MachRel.type rel =? 0) eqn:Hty; cbn [negb]; [|done].
  apply Z.eqb_eq in Hty.
  destruct (_ =? offsetof_code_start) eqn:Hf0.
  { apply Z.eqb_eq in Hf0.
    destruct (MachRel.is_extern rel) eqn:Hext; [done|].
    destruct (find_subsection _ _ _) as [target|] eqn:Hfind; [|done].
    intros [= <-]. split; [by auto 10|].
    eexists dst, _. split; [done|]. split; [done|]. cbn.
    split; [done|]. split; [done|]. left. split; [done|]. by exists target. }
  apply Z.eqb_neq in Hf0.
  destruct (_ =? offsetof_personality) eqn:Hf16.
  { apply Z.eqb_eq in Hf16.
    destruct (MachRel.is_extern rel) eqn:Hext.
    - destruct (_ !! Z.to_nat (MachRel.idx rel)) as [p|]; [|done].
      intros [= <-]. split; [by auto 10|].
      eexists dst, _. split; [done|]. split; [done|]. cbn. by auto 10.
    - destruct (find_symbol _ _) as [p|]; [|done].
      intros [= <-]. split; [by auto 10|].
      eexists dst, _. split; [done|]. split; [done|]. cbn. by auto 10. }
  destruct (_ =? offsetof_lsda) eqn:Hf24; [|done].
  apply Z.eqb_eq in Hf24.
  destruct (MachRel.is_extern rel) eqn:Hext; [done|].
  destruct (find_subsection _ _ _) as [target|]; [|done].
  intros [= <-]. split; [by auto 10|].
  eexists dst, _. split; [done|]. split; [done|]. cbn. by auto 10.
Qed.

Lemma apply_unwind_relocs_spec (heap : SubsecHeap) (o : ObjectFile) (hdr_size : Z)
    (src : nat → CompactUnwindEntry.t) :
  ∀ (rels : list MachRel.t) (recs recs' : list UnwindRecord.t),
    apply_unwind_relocs heap o hdr_size src rels recs = Some recs' →
    Forall (supported_unwind_reloc hdr_size) rels ∧
    length recs' = length recs ∧
    ∀ i r', recs' !! i = Some r' →
      ∃ r, recs !! i = Some r ∧
           UnwindRecord.code_len r' = UnwindRecord.code_len r ∧
           UnwindRecord.encoding r' = UnwindRecord.encoding r ∧
           ((UnwindRecord.subsec r' = UnwindRecord.subsec r ∧
             UnwindRecord.offset r' = UnwindRecord.offset r) ∨
            (located_by heap o (src i) r' ∧
             ∃ rel, rel ∈ rels ∧ unwind_reloc_entry rel = i ∧
                    MachRel.offset rel mod sizeof_CompactUnwindEntry =
                      offsetof_code_start)).
Proof.
  induction rels as [|rel rels IH]; intros recs recs' Hrun.
  - injection Hrun as <-. split; [constructor|]. split; [done|].
    intros i r' Hi. exists r'. by auto 10.
  - cbn [apply_unwind_relocs] in Hrun.
    destruct (apply_unwind_reloc heap o hdr_size src rel recs) as [recs1|] eqn:Hstep;
      [|done].
    apply apply_unwind_reloc_spec in Hstep
      as (Hsup & dst & dst' & Hdst & -> & Hlen & Henc & Hcase).
    apply IH in Hrun as (Hall & Hlength & Hrecs).
    split; [by constructor|]. rewrite length_insert in Hlength. split; [done|].
    intros i r' Hi. destruct (Hrecs i r' Hi) as (r1 & Hr1 & Hlen1 & Henc1 & Hcase1).
    assert (∀ r1', located_by heap o (src i) r1' →
              UnwindRecord.subsec r' = UnwindRecord.subsec r1' →
              UnwindRecord.offset r' = UnwindRecord.offset r1' →
              located_by heap o (src i) r') as Hext.
    { intros r1' (target & Hfind & Hsub & Hoff) Hs Ho. exists target.
      by rewrite Hs, Ho. }
    destruct (decide (i = unwind_reloc_entry rel)) as [->|Hne].
    + rewrite list_lookup_insert_eq in Hr1 by (by eapply lookup_lt_Some).
      injection Hr1 as <-. exists dst. split; [done|].
      split; [congruence|]. split; [congruence|].
      destruct Hcase1 as [[Hs Ho]|[Hloc (rel' & Hin & Hidx & Hf)]].
      * destruct Hcase as [[Hf Hloc]|(Hf & Hs' & Ho')].
        -- right. split; [by eapply Hext|]. exists rel.
           split; [apply list_elem_of_here | done].
        -- left. split; congruence.
      * right. split; [done|]. exists rel'. split; [by apply list_elem_of_further | done].
    + rewrite list_lookup_insert_ne in Hr1 by done. exists r1. split; [done|].
      split; [done|]. split; [done|].
      destruct Hcase1 as [?|[Hloc (rel' & Hin & Hidx & Hf)]]; [by left|].
      right. split; [done|]. exists rel'. split; [by apply list_elem_of_further | done].
Qed.

Lemma parse_compact_unwind_read (heap : SubsecHeap) (o : ObjectFile)
    (hdr_size : Z) (src : nat → CompactUnwindEntry.t) (rels : list MachRel.t)
    (recs : list UnwindRecord.t) (heap' : SubsecHeap) :
  parse_compact_unwind heap o hdr_size src rels = Some (recs, heap') →
  hdr_size mod sizeof_CompactUnwindEntry = 0 ∧
  Forall (supported_unwind_reloc hdr_size) rels ∧
  ∃ recs1,
    recs ≡ₚ recs1 ∧
    length recs1 = Z.to_nat (hdr_size / sizeof_CompactUnwindEntry) ∧
    ∀ i r, recs1 !! i = Some r →
      record_of_entry heap o (src i) r ∧
      ∃ rel, rel ∈ rels ∧ unwind_reloc_entry rel = i ∧
             MachRel.offset rel mod sizeof_CompactUnwindEntry = offsetof_code_start.
Proof.
  unfold parse_compact_unwind.
  destruct (_ =? 0) eqn:Hmod; cbn [negb]; [|discriminate].
  apply Z.eqb_eq in Hmod.
  destruct (apply_unwind_relocs _ _ _ _ _ _) as [recs1|] eqn:Hrels; [|discriminate].
  destruct (forallb _ recs1) eqn:Hall; [|discriminate].
  intros [= <- <-].
  apply apply_unwind_relocs_spec in Hrels as (Hsup & Hlength & Hrecs).
  rewrite length_fmap, length_seq in Hlength.
  split; [done|]. split; [done|]. exists recs1.
  split; [apply sort_perm|]. split; [done|].
  intros i r Hi. destruct (Hrecs i r Hi) as (r0 & Hr0 & Hlen & Henc & Hcase).
  rewrite list_lookup_fmap in Hr0.
  destruct (seq 0 _ !! i) as [k|] eqn:Hk; [|done].
  apply lookup_seq in Hk as [-> _]. injection Hr0 as <-.
  cbn in Hlen, Henc, Hcase.
  destruct Hcase as [[Hs _]|[Hloc Hrel]].
  - exfalso. rewrite forallb_forall in Hall.
    assert (r ∈ recs1) as Hin by (by eapply list_elem_of_lookup_2).
    apply list_elem_of_In, Hall, bool_decide_eq_true in Hin.
    rewrite Hs in Hin. by destruct Hin.
  - split; [|done]. by split; [|split].
Qed.

(** X21: when [parse_compact_unwind] returns, the size of the section is
    a multiple of the size of an entry, and the records are, up to the order
    the sort gives them, one per entry: the record of entry [i] carries the
    length and the encoding of the entry, the subsection that
    [find_subsection] gives for the start of its code, and the distance of
    the start from that subsection as its offset. *)
Theorem parse_compact_unwind_one_record_per_entry (heap : SubsecHeap) (o : ObjectFile)
    (hdr_size : Z) (src : nat → CompactUnwindEntry.t) (rels : list MachRel.t)
    (recs : list UnwindRecord.t) (heap' : SubsecHeap) :
  parse_compact_unwind heap o hdr_size src rels = Some (recs, heap') →
  hdr_size mod sizeof_CompactUnwindEntry = 0 ∧
  ∃ recs1,
    recs ≡ₚ recs1 ∧
    length recs1 = Z.to_nat (hdr_size / sizeof_CompactUnwindEntry) ∧
    ∀ i r, recs1 !! i = Some r → record_of_entry heap o (src i) r.
Proof.
  intros Hrun.
  apply parse_compact_unwind_read in Hrun as (Hmod & _ & recs1 & Hperm & Hlen & Hrecs).
  split; [done|]. exists recs1. split; [done|]. split; [done|].
  intros i r Hi. by apply Hrecs.
Qed.

Lemma parse_compact_unwind_one_record_per_entry_witness :
  match parse_compact_unwind cu_heap cu_obj 96 cu_src cu_rels with
  | Some (recs, _) =>
      96 mod sizeof_CompactUnwindEntry = 0 ∧
      ∃ recs1,
        recs ≡ₚ recs1 ∧
        length recs1 = Z.to_nat (96 / sizeof_CompactUnwindEntry) ∧
        ∀ i r, recs1 !! i = Some r → record_of_entry cu_heap cu_obj (cu_src i) r
  | None => False
  end.
Proof.
  destruct (parse_compact_unwind cu_heap cu_obj 96 cu_src cu_rels)
    as [[recs heap']|] eqn:Hrun; [|vm_compute in Hrun; discriminate].
  exact (parse_compact_unwind_one_record_per_entry cu_heap cu_obj 96 cu_src cu_rels
           recs heap' Hrun).
Defined.

(** X22: what [parse_compact_unwind] takes to return.  Every relocation
    of the section lies within it, is not pc-relative, is eight bytes wide
    and of type 0, and applies to the start of the code or to the LSDA of
    an entry (and then is not extern) or to its personality; and every entry
    has a relocation on the start of its code.  Anything else is fatal. *)
Theorem parse_compact_unwind_relocations (heap : SubsecHeap) (o : ObjectFile)
    (hdr_size : Z) (src : nat → CompactUnwindEntry.t) (rels : list MachRel.t)
    (recs : list UnwindRecord.t) (heap' : SubsecHeap) :
  parse_compact_unwind heap o hdr_size src rels = Some (recs, heap') →
  Forall (supported_unwind_reloc hdr_size) rels ∧
  ∀ i, (i < Z.to_nat (hdr_size / sizeof_CompactUnwindEntry))%nat →
    ∃ rel, rel ∈ rels ∧ unwind_reloc_entry rel = i ∧
           MachRel.offset rel mod sizeof_CompactUnwindEntry = offsetof_code_start.
Proof.
  intros Hrun.
  apply parse_compact_unwind_read in Hrun as (_ & Hsup & recs1 & _ & Hlen & Hrecs).
  split; [done|]. intros i Hi.
  destruct (lookup_lt_is_Some_2 recs1 i) as [r Hr]; [lia|].
  by apply (Hrecs i r).
Qed.

Lemma parse_compact_unwind_relocations_witness :
  match parse_compact_unwind cu_heap cu_obj 96 cu_src cu_rels with
  | Some _ =>
      Forall (supported_unwind_reloc 96) cu_rels ∧
      ∀ i, (i < Z.to_nat (96 / sizeof_CompactUnwindEntry))%nat →
        ∃ rel, rel ∈ cu_rels ∧ unwind_reloc_entry rel = i ∧
               MachRel.offset rel mod sizeof_CompactUnwindEntry = offsetof_code_start
  | None => False
  end.
Proof.
  destruct (parse_compact_unwind cu_heap cu_obj 96 cu_src cu_rels)
    as [[recs heap']|] eqn:Hrun; [|vm_compute in Hrun; discriminate].
  exact (parse_compact_unwind_relocations cu_heap cu_obj 96 cu_src cu_rels
           recs heap' Hrun).
Defined.

(** ** The sorted vector of subsections *)

Lemma sort_subsections_sorted (heap : SubsecHeap) (l : list SubsecPtr) :
  sorted_by_addr heap (sort (addr_less heap) l).
Proof.
  assert (StronglySorted (λ a b, addr_less heap b a = false) (sort (addr_less heap) l))
    as Hsorted.
  { apply (sort_sorted _ (λ _, True)).
    - unfold addr_less. intros a b _ _ H%Z.ltb_lt. apply Z.ltb_ge. lia.
    - unfold addr_less. intros a b c _ _ _ H1%Z.ltb_ge H2%Z.ltb_ge. apply Z.ltb_ge. lia.
    - by apply Forall_forall. }
  intros i j si sj Hij Hi Hj.
  pose proof (StronglySorted_lookup _ _ _ _ _ _ Hsorted Hij Hi Hj) as H.
  unfold addr_less in H. by apply Z.ltb_ge in H.
Qed.

Lemma upper_bound_above (heap : SubsecHeap) (addr : Z) (l : list SubsecPtr) :
  sorted_by_addr heap l →
  ∀ j sj, (upper_bound heap addr l ≤ j)%nat → l !! j = Some sj →
          addr < input_addr (heap sj).
Proof.
  intros Hsorted j sj Hj Hsj.
  destruct (upper_bound_spec heap addr l) as (Hlen & _ & Hat).
  destruct (l !! upper_bound heap addr l) as [sk|] eqn:Hk.
  - specialize (Hat sk eq_refl).
    destruct (decide (upper_bound heap addr l = j)) as [<-|Hne].
    + rewrite Hk in Hsj. by injection Hsj as <-.
    + assert (upper_bound heap addr l < j)%nat as Hlt by lia.
      specialize (Hsorted _ j sk sj Hlt Hk Hsj). lia.
  - apply lookup_ge_None in Hk. apply lookup_lt_Some in Hsj. lia.
Qed.

(** X23: after the sort in [ObjectFile::parse], whatever the order the
    subsections were created in, [find_subsection] returns the subsection
    with the greatest address at or below the address asked for, and null
    exactly when every subsection of the object starts above it. *)
Theorem sort_subsections_find_subsection (heap : SubsecHeap) (o : ObjectFile)
    (addr : Z) :
  match find_subsection heap (sort_subsections heap o) addr with
  | Some s =>
      s ∈ subsections o ∧ input_addr (heap s) ≤ addr ∧
      ∀ s', s' ∈ subsections o → input_addr (heap s') ≤ addr →
            input_addr (heap s') ≤ input_addr (heap s)
  | None => ∀ s, s ∈ subsections o → addr < input_addr (heap s)
  end.
Proof.
  unfold find_subsection, sort_subsections. cbn [subsections].
  set (l := sort (addr_less heap) (subsections o)).
  assert (l ≡ₚ subsections o) as Hperm by apply sort_perm.
  pose proof (sort_subsections_sorted heap (subsections o)) as Hsorted. fold l in Hsorted.
  pose proof (upper_bound_above heap addr l Hsorted) as Habove.
  destruct (upper_bound_spec heap addr l) as (Hlen & Hbelow & _).
  destruct (upper_bound heap addr l) as [|it] eqn:Hub.
  - intros s Hs. rewrite <- Hperm in Hs.
    apply list_elem_of_lookup_1 in Hs as [j Hj]. apply (Habove j); [lia | done].
  - destruct (lookup_lt_is_Some_2 l it) as [s Hs]; [lia|]. rewrite Hs.
    split; [rewrite <- Hperm; by eapply list_elem_of_lookup_2|].
    split; [apply (Hbelow it); [lia | done]|].
    intros s' Hs' Hle. rewrite <- Hperm in Hs'.
    apply list_elem_of_lookup_1 in Hs' as [j Hj].
    destruct (decide (j < it)%nat) as [Hlt|Hge].
    + apply (Hsorted j it); done.
    + destruct (decide (j = it)) as [->|Hne]; [rewrite Hs in Hj; by injection Hj as <-|].
      specialize (Habove j s' ltac:(lia) Hj). lia.
Qed.

(** ** Local symbols and their subsections *)

Lemma for_range_app_inv {St : Type} (body : nat → St → option St) (i0 n m : nat)
    (s s' : St) :
  for_range body i0 (n + m) s = Some s' →
  ∃ s1, for_range body i0 n s = Some s1 ∧ for_range body (i0 + n) m s1 = Some s'.
Proof.
  revert i0 s. induction n as [|n IH]; intros i0 s Hrun.
  - exists s. by rewrite Nat.add_0_r.
  - cbn [Nat.add for_range] in Hrun |- *.
    destruct (body i0 s) as [s1|]; [|done].
    destruct (IH _ _ Hrun) as (s2 & H1 & H2). exists s2. split; [done|].
    by replace (i0 + S n)%nat with (S i0 + n)%nat by lia.
Qed.

Lemma fix_subsec_member_frame (heap : SubsecHeap) (o : ObjectFile) (i : nat)
    (st st' : Store) (q : SymPtr) :
  fix_subsec_member heap o i st = Some st' →
  (∀ msym, mach_syms o !! i = Some msym → InputFile.syms (obj_base o) !! i = Some q →
           ms_is_extern msym = true ∨ ms_type msym ≠ N_SECT) →
  st' q = st q.
Proof.
  unfold fix_subsec_member. intros Hrun Hq.
  destruct (mach_syms o !! i) as [msym|]; [|done].
  destruct (InputFile.syms (obj_base o) !! i) as [p|]; [|done].
  destruct (negb (ms_is_extern msym) && (ms_type msym =? N_SECT)) eqn:Hc;
    [|by injection Hrun as <-].
  apply andb_true_iff in Hc as [Hext%negb_true_iff Hty%Z.eqb_eq].
  destruct (decide (p = q)) as [->|Hne].
  - destruct (Hq msym eq_refl eq_refl); congruence.
  - destruct (sym_to_subsec o !! i) as [recorded|]; [|done].
    destruct (subsec_of_entry heap o msym recorded);
      injection Hrun as <-; by rewrite fn_lookup_insert_ne.
Qed.

Lemma fix_subsec_members_from (heap : SubsecHeap) (o : ObjectFile) (q : SymPtr) :
  ∀ n i0 st st',
    for_range (fix_subsec_member heap o) i0 n st = Some st' →
    (∀ i msym, (i0 ≤ i < i0 + n)%nat → mach_syms o !! i = Some msym →
               InputFile.syms (obj_base o) !! i = Some q →
               ms_is_extern msym = true ∨ ms_type msym ≠ N_SECT) →
    st' q = st q.
Proof.
  induction n as [|n IH]; intros i0 st st' Hrun Hq; [by injection Hrun as <-|].
  cbn [for_range] in Hrun.
  destruct (fix_subsec_member heap o i0 st) as [st1|] eqn:Hstep; [|done].
  rewrite (IH _ _ _ Hrun).
  - eapply fix_subsec_member_frame; [done|]. intros msym Hm Hs.
    apply (Hq i0); [lia | done | done].
  - intros i msym Hi. apply Hq. lia.
Qed.

(** X24: what [fix_subsec_members] leaves in the symbols.  A symbol that
    is at no local entry of type [N_SECT] is not written.  The symbol of such
    an entry (standing at no other entry) gets the subsection recorded for
    the entry or else the one [find_subsection] gives for its value, and none
    if there is none; when the subsection is the one found (addresses being
    unsigned and the value below 2^32), the value of the symbol is its
    distance from the start of the subsection, so that the start plus the
    value is the address the entry had. *)
Theorem fix_subsec_members_spec (heap : SubsecHeap) (o : ObjectFile)
    (st st' : Store) :
  fix_subsec_members heap o st = Some st' →
  (∀ q, (∀ i msym, mach_syms o !! i = Some msym →
                   InputFile.syms (obj_base o) !! i = Some q →
                   ms_is_extern msym = true ∨ ms_type msym ≠ N_SECT) →
        st' q = st q) ∧
  ∀ i msym p,
    mach_syms o !! i = Some msym → InputFile.syms (obj_base o) !! i = Some p →
    ms_is_extern msym = false → ms_type msym = N_SECT →
    (∀ j, j ≠ i → InputFile.syms (obj_base o) !! j ≠ Some p) →
    ∃ recorded,
      sym_to_subsec o !! i = Some recorded ∧
      match subsec_of_entry heap o msym recorded with
      | Some s =>
          st' p = set_subsec_value (Some s) (u64 (ms_value msym - input_addr (heap s)))
                                   (st p) ∧
          (recorded = None → 0 ≤ input_addr (heap s) → 0 ≤ ms_value msym < 2 ^ 32 →
           0 ≤ Symbol.value (st' p) ∧
           input_addr (heap s) + Symbol.value (st' p) = ms_value msym)
      | None => st' p = set_subsec_value None (ms_value msym) (st p)
      end.
Proof.
  unfold fix_subsec_members. intros Hrun. split.
  { intros q Hq. eapply fix_subsec_members_from; [done|].
    intros i msym _. apply Hq. }
  intros i msym p Hm Hp Hext Hty Honly.
  assert (i < length (mach_syms o))%nat as Hi by (by eapply lookup_lt_Some).
  replace (length (mach_syms o)) with (i + S (length (mach_syms o) - S i))%nat
    in Hrun by lia.
  destruct (for_range_app_inv (fix_subsec_member heap o) 0 i
              (S (length (mach_syms o) - S i)) st st' Hrun) as (st1 & Hpre & Hpost).
  cbn [for_range] in Hpost. cbn [Nat.add] in Hpost.
  destruct (fix_subsec_member heap o i st1) as [st2|] eqn:Hstep; [|done].
  assert (st1 p = st p) as Hst1.
  { eapply fix_subsec_members_from; [done|]. intros j m Hj _ Hs.
    exfalso. apply (Honly j); [lia | done]. }
  assert (st' p = st2 p) as Hst2.
  { eapply fix_subsec_members_from; [done|]. intros j m Hj _ Hs.
    exfalso. apply (Honly j); [lia | done]. }
  unfold fix_subsec_member in Hstep. rewrite Hm, Hp, Hext, Hty in Hstep.
  cbn in Hstep.
  destruct (sym_to_subsec o !! i) as [recorded|]; [|done].
  exists recorded. split; [done|].
  destruct (subsec_of_entry heap o msym recorded) as [s|] eqn:Hsub;
    injection Hstep as <-; rewrite Hst2, fn_lookup_insert, Hst1; [|done].
  split; [done|]. intros -> Haddr Hval. cbn [set_subsec_value Symbol.value].
  cbn [subsec_of_entry] in Hsub. unfold find_subsection in Hsub.
  destruct (upper_bound_spec heap (u32 (ms_value msym)) (subsections o))
    as (_ & Hbelow & _).
  destruct (upper_bound heap (u32 (ms_value msym)) (subsections o)) as [|it]; [done|].
  specialize (Hbelow it s ltac:(lia) Hsub).
  assert (u32 (ms_value msym) = ms_value msym) as Hu
    by (unfold u32; apply Z.mod_small; lia).
  rewrite Hu in Hbelow.
  assert (u64 (ms_value msym - input_addr (heap s)) = ms_value msym - input_addr (heap s))
    as -> by (unfold u64; apply Z.mod_small; lia).
  lia.
Qed.

Lemma fix_subsec_members_spec_witness :
  match fix_subsec_members cu_heap fx_obj fresh_symbol with
  | Some st' =>
      (∀ q, (∀ i msym, mach_syms fx_obj !! i = Some msym →
                       InputFile.syms (obj_base fx_obj) !! i = Some q →
                       ms_is_extern msym = true ∨ ms_type msym ≠ N_SECT) →
            st' q = fresh_symbol q) ∧
      ∀ i msym p,
        mach_syms fx_obj !! i = Some msym →
        InputFile.syms (obj_base fx_obj) !! i = Some p →
        ms_is_extern msym = false → ms_type msym = N_SECT →
        (∀ j, j ≠ i → InputFile.syms (obj_base fx_obj) !! j ≠ Some p) →
        ∃ recorded,
          sym_to_subsec fx_obj !! i = Some recorded ∧
          match subsec_of_entry cu_heap fx_obj msym recorded with
          | Some s =>
              st' p = set_subsec_value (Some s)
                        (u64 (ms_value msym - input_addr (cu_heap s)))
                        (fresh_symbol p) ∧
              (recorded = None → 0 ≤ input_addr (cu_heap s) →
               0 ≤ ms_value msym < 2 ^ 32 →
               0 ≤ Symbol.value (st' p) ∧
               input_addr (cu_heap s) + Symbol.value (st' p) = ms_value msym)
          | None => st' p = set_subsec_value None (ms_value msym) (fresh_symbol p)
          end
  | None => False
  end.
Proof.
  destruct (fix_subsec_members cu_heap fx_obj fresh_symbol) as [st'|] eqn:Hrun;
    [|vm_compute in Hrun; discriminate].
  exact (fix_subsec_members_spec cu_heap fx_obj fresh_symbol st' Hrun).
Defined.

(** ** Reading the symbol table *)

Lemma locals_before_0 (entries : list (string * MachSym)) : locals_before entries 0 = 0%nat.
Proof. unfold locals_before. by rewrite take_0. Qed.

Lemma locals_before_cons (e : string * MachSym) (entries : list (string * MachSym))
    (i : nat) :
  locals_before (e :: entries) (S i) =
    ((if is_local_entry e then 1 else 0) + locals_before entries i)%nat.
Proof.
  unfold locals_before. cbn [take]. destruct (is_local_entry e) eqn:He.
  - by rewrite filter_cons_True.
  - rewrite filter_cons_False; [done|]. by rewrite He.
Qed.

Lemma locals_before_lt (entries : list (string * MachSym)) :
  ∀ i j e, entries !! i = Some e → is_local_entry e = true → (i < j)%nat →
           (locals_before entries i < locals_before entries j)%nat.
Proof.
  induction entries as [|e0 entries IH]; intros i j e Hi He Hij; [done|].
  destruct j as [|j]; [lia|]. rewrite locals_before_cons.
  destruct i as [|i].
  - injection Hi as ->. rewrite He, locals_before_0. lia.
  - rewrite locals_before_cons. cbn in Hi.
    specialize (IH i j e Hi He ltac:(lia)). lia.
Qed.

Lemma parse_symbols_loop_spec (Symbol_new : string → Symbol.t) (this : FileId) :
  ∀ entries syms n st syms' n' st',
    parse_symbols_loop Symbol_new this entries (syms, n, st) = Some (syms', n', st') →
    ∃ new,
      syms' = syms ++ new ∧ length new = length entries ∧
      n' = (n + locals_before entries (length entries))%nat ∧
      (∀ q, (∀ k, (n ≤ k < n')%nat → q ≠ LocalSym this k) → st' q = st q) ∧
      ∀ i name msym, entries !! i = Some (name, msym) →
        if ms_is_extern msym then new !! i = Some (get_symbol name)
        else
          new !! i = Some (LocalSym this (n + locals_before entries i)) ∧
          st' (LocalSym this (n + locals_before entries i)) =
            local_symbol Symbol_new this name msym.
Proof.
  induction entries as [|[name0 msym0] entries IH]; intros syms n st syms' n' st' Hrun.
  - injection Hrun as <- <- <-. exists []. rewrite app_nil_r, locals_before_0.
    split; [done|]. split; [done|]. split; [cbn; lia|]. split; [done|]. done.
  - cbn [parse_symbols_loop parse_symbol] in Hrun.
    destruct (ms_is_extern msym0) eqn:Hext.
    + assert (is_local_entry (name0, msym0) = false) as Hloc
        by (unfold is_local_entry; cbn [snd]; by rewrite Hext).
      apply IH in Hrun as (new & -> & Hlen & -> & Hframe & Hentries).
      exists (get_symbol name0 :: new). rewrite <- app_assoc.
      split; [done|]. split; [cbn; lia|]. cbn [length].
      rewrite locals_before_cons, Hloc. cbn [negb]. split; [done|]. split; [done|].
      intros [|i] name msym Hi.
      * injection Hi as <- <-. by rewrite Hext.
      * cbn in Hi. specialize (Hentries i name msym Hi).
        rewrite locals_before_cons, Hloc. cbn [negb]. exact Hentries.
    + assert (∃ s1, s1 = (syms ++ [LocalSym this n], S n,
                          <[LocalSym this n := local_symbol Symbol_new this name0 msym0]> st)
                    ∧ parse_symbols_loop Symbol_new this entries s1 = Some (syms', n', st'))
        as (s1 & -> & Hrun1).
      { destruct (ms_type msym0 =? N_UNDF); [done|].
        destruct (ms_type msym0 =? N_ABS); [by eexists|].
        destruct (ms_type msym0 =? N_SECT); [by eexists | done]. }
      assert (is_local_entry (name0, msym0) = true) as Hloc
        by (unfold is_local_entry; cbn [snd]; by rewrite Hext).
      apply IH in Hrun1 as (new & -> & Hlen & -> & Hframe & Hentries).
      exists (LocalSym this n :: new). rewrite <- app_assoc.
      split; [done|]. split; [cbn; lia|]. cbn [length].
      rewrite locals_before_cons, Hloc. cbn [negb]. split; [lia|]. split.
      { intros q Hq. rewrite Hframe.
        - rewrite fn_lookup_insert_ne; [done|]. intros <-. apply (Hq n); [lia | done].
        - intros k Hk. apply Hq. lia. }
      intros [|i] name msym Hi.
      * injection Hi as <- <-. rewrite Hext, locals_before_0, Nat.add_0_r.
        split; [done|]. rewrite Hframe; [by rewrite fn_lookup_insert|].
        intros k Hk [= <-]. lia.
      * cbn in Hi. specialize (Hentries i name msym Hi).
        rewrite locals_before_cons, Hloc. cbn [negb].
        replace (n + (1 + locals_before entries i))%nat
          with (S n + locals_before entries i)%nat by lia. exact Hentries.
Qed.

Lemma parse_symbols_loop_None (Symbol_new : string → Symbol.t) (this : FileId) :
  ∀ entries s,
    parse_symbols_loop Symbol_new this entries s = None ↔
    ∃ name msym, (name, msym) ∈ entries ∧ ms_is_extern msym = false ∧
                 ms_type msym ≠ N_ABS ∧ ms_type msym ≠ N_SECT.
Proof.
  induction entries as [|[name0 msym0] entries IH]; intros [[syms n] st].
  - split; [done|]. intros (name & msym & Hin & _). by apply elem_of_nil in Hin.
  - cbn [parse_symbols_loop parse_symbol].
    destruct (ms_is_extern msym0) eqn:Hext.
    { rewrite IH. split; intros (name & msym & Hin & Hbad).
      - exists name, msym. split; [by apply list_elem_of_further | done].
      - apply elem_of_cons in Hin as [[= -> ->]|Hin]; [|by exists name, msym].
        destruct Hbad. congruence. }
    destruct (ms_type msym0 =? N_UNDF) eqn:Hundf.
    { apply Z.eqb_eq in Hundf. split; [|done]. intros _. exists name0, msym0.
      split; [apply list_elem_of_here|]. rewrite Hundf. by repeat split. }
    destruct (ms_type msym0 =? N_ABS) eqn:Habs.
    { apply Z.eqb_eq in Habs. rewrite IH. split; intros (name & msym & Hin & Hbad).
      - exists name, msym. split; [by apply list_elem_of_further | done].
      - apply elem_of_cons in Hin as [[= -> ->]|Hin]; [|by exists name, msym].
        destruct Hbad as (_ & Hbad & _). congruence. }
    destruct (ms_type msym0 =? N_SECT) eqn:Hsect.
    { apply Z.eqb_eq in Hsect. rewrite IH. split; intros (name & msym & Hin & Hbad).
      - exists name, msym. split; [by apply list_elem_of_further | done].
      - apply elem_of_cons in Hin as [[= -> ->]|Hin]; [|by exists name, msym].
        destruct Hbad as (_ & _ & Hbad). congruence. }
    apply Z.eqb_neq in Habs, Hsect. split; [|done]. intros _. exists name0, msym0.
    split; [apply list_elem_of_here | done].
Qed.

(** X25: [parse_symbols] dies exactly when the symbol table has an entry
    that is not extern and whose type is neither [N_ABS] nor [N_SECT]: a
    local undefined symbol, or a local symbol of a type it does not know. *)
Theorem parse_symbols_fatal_iff (Symbol_new : string → Symbol.t) (this : FileId)
    (entries : list (string * MachSym)) (o : ObjectFile) (nlocal : nat) (st : Store) :
  parse_symbols Symbol_new this (Some entries) o nlocal st = None ↔
  ∃ name msym, (name, msym) ∈ entries ∧ ms_is_extern msym = false ∧
               ms_type msym ≠ N_ABS ∧ ms_type msym ≠ N_SECT.
Proof.
  rewrite <- (parse_symbols_loop_None Symbol_new this entries
                (InputFile.syms (obj_base o), nlocal, st)).
  unfold parse_symbols.
  destruct (parse_symbols_loop _ _ _ _) as [[[syms n] st']|]; [|done].
  split; discriminate.
Qed.

(** X26: the symbols [parse_symbols] gives an object.  [syms] grows by one
    symbol per entry of the symbol table, in order, so that on a new object
    [syms] and [mach_syms] have the same length.  An extern entry gets the
    interned symbol of its name.  An entry that is not extern gets a new
    local symbol of the file: owned by the file, of local scope, with no
    subsection, neither weak nor common, and with the value of the entry if
    its type is [N_ABS]; no local symbol stands at two entries.  No other
    symbol is written: interned symbols and the local symbols that were
    there before are as they were. *)
Theorem parse_symbols_spec (Symbol_new : string → Symbol.t) (this : FileId)
    (entries : list (string * MachSym)) (o o' : ObjectFile) (nlocal nlocal' : nat)
    (st st' : Store) :
  parse_symbols Symbol_new this (Some entries) o nlocal st = Some (o', nlocal', st') →
  mach_syms o' = snd <$> entries ∧
  ∃ new,
    InputFile.syms (obj_base o') = InputFile.syms (obj_base o) ++ new ∧
    length new = length (mach_syms o') ∧
    (∀ i name msym, entries !! i = Some (name, msym) →
       if ms_is_extern msym then new !! i = Some (get_symbol name)
       else ∃ k, new !! i = Some (LocalSym this k) ∧ (nlocal ≤ k < nlocal')%nat ∧
                 st' (LocalSym this k) = local_symbol Symbol_new this name msym) ∧
    (∀ i j p, i ≠ j → new !! i = Some p → new !! j = Some p →
              ∃ name, p = get_symbol name) ∧
    (∀ q, (∀ k, (nlocal ≤ k < nlocal')%nat → q ≠ LocalSym this k) → st' q = st q).
Proof.
  unfold parse_symbols.
  destruct (parse_symbols_loop _ _ _ _) as [[[syms n] st1]|] eqn:Hrun; [|done].
  intros [= <- <- <-]. cbn [mach_syms obj_base InputFile.syms InputFile.set_syms].
  apply parse_symbols_loop_spec in Hrun as (new & -> & Hlen & -> & Hframe & Hentries).
  split; [done|]. exists new. split; [done|].
  split; [by rewrite length_fmap|].
  assert (∀ i name msym, entries !! i = Some (name, msym) → ms_is_extern msym = false →
            (locals_before entries i < locals_before entries (length entries))%nat)
    as Hlt.
  { intros i name msym Hi Hext. eapply locals_before_lt; [done| |by eapply lookup_lt_Some].
    unfold is_local_entry. cbn [snd]. by rewrite Hext. }
  split; [|split; [|done]].
  - intros i name msym Hi. specialize (Hentries i name msym Hi).
    destruct (ms_is_extern msym) eqn:Hext; [done|]. destruct Hentries as [Hnew Hst].
    eexists. split; [done|]. split; [|done].
    specialize (Hlt i name msym Hi Hext). lia.
  - assert (∀ i j p, (i < j)%nat → new !! i = Some p → new !! j = Some p →
              ∃ name, p = get_symbol name) as Hord.
    { intros i j p Hij Hpi Hpj.
      destruct (lookup_lt_is_Some_2 entries i) as [[ni mi] Hi];
        [rewrite <- Hlen; by eapply lookup_lt_Some|].
      destruct (lookup_lt_is_Some_2 entries j) as [[nj mj] Hj];
        [rewrite <- Hlen; by eapply lookup_lt_Some|].
      pose proof (Hentries i ni mi Hi) as Hei. pose proof (Hentries j nj mj Hj) as Hej.
      destruct (ms_is_extern mi) eqn:Hexti; [exists ni; congruence|].
      destruct (ms_is_extern mj) eqn:Hextj; [exists nj; congruence|].
      exfalso. destruct Hei as [Hei _]. destruct Hej as [Hej _].
      assert (locals_before entries i < locals_before entries j)%nat.
      { eapply locals_before_lt; [done| |done].
        unfold is_local_entry. cbn [snd]. by rewrite Hexti. }
      rewrite Hpi in Hei. rewrite Hpj in Hej. injection Hei as ->. injection Hej as Heq.
      lia. }
    intros i j p Hne Hpi Hpj.
    destruct (decide (i < j)%nat); [by apply (Hord i j) | apply (Hord j i); [lia|done..]].
Qed.

Lemma parse_symbols_spec_witness :
  match parse_symbols ps_new 0%nat (Some ps_entries) ps_obj 0 fresh_symbol with
  | Some (o', nlocal', st') =>
      mach_syms o' = snd <$> ps_entries ∧
      ∃ new,
        InputFile.syms (obj_base o') = InputFile.syms (obj_base ps_obj) ++ new ∧
        length new = length (mach_syms o') ∧
        (∀ i name msym, ps_entries !! i = Some (name, msym) →
           if ms_is_extern msym then new !! i = Some (get_symbol name)
           else ∃ k, new !! i = Some (LocalSym 0%nat k) ∧ (0 ≤ k < nlocal')%nat ∧
                     st' (LocalSym 0%nat k) = local_symbol ps_new 0%nat name msym) ∧
        (∀ i j p, i ≠ j → new !! i = Some p → new !! j = Some p →
                  ∃ name, p = get_symbol name) ∧
        (∀ q, (∀ k, (0 ≤ k < nlocal')%nat → q ≠ LocalSym 0%nat k) →
              st' q = fresh_symbol q)
  | None => False
  end.
Proof.
  destruct (parse_symbols ps_new 0%nat (Some ps_entries) ps_obj 0 fresh_symbol)
    as [[[o' nlocal'] st']|] eqn:Hrun; [|vm_compute in Hrun; discriminate].
  exact (parse_symbols_spec ps_new 0%nat ps_entries ps_obj o' 0 nlocal'
           fresh_symbol st' Hrun).
Defined.

(** ** Linker options *)

Lemma read_c_string_spec (buf s rest : list Byte.byte) :
  read_c_string buf = Some (s, rest) ↔ (Byte.x00 ∉ s) ∧ buf = s ++ Byte.x00 :: rest.
Proof.
  split.
  - revert s rest. induction buf as [|b buf IH]; intros s rest Hrun; [done|].
    cbn [read_c_string] in Hrun. destruct (Byte.eqb b Byte.x00) eqn:Hb.
    + injection Hrun as <- <-. apply Byte.byte_dec_bl in Hb as ->.
      split; [apply not_elem_of_nil | done].
    + destruct (read_c_string buf) as [[s1 rest1]|]; [|done].
      injection Hrun as <- <-. destruct (IH s1 rest1 eq_refl) as [Hnot ->].
      split; [|done]. rewrite not_elem_of_cons. split; [|done].
      intros <-. by vm_compute in Hb.
  - intros [Hnot ->]. induction s as [|b s IH]; [done|].
    apply not_elem_of_cons in Hnot as [Hb Hnot]. cbn [app read_c_string].
    destruct (Byte.eqb b Byte.x00) eqn:Heq;
      [apply Byte.byte_dec_bl in Heq; congruence|].
    by rewrite (IH Hnot).
Qed.

Lemma linker_options_loop_spec :
  ∀ (count : nat) (buf : list Byte.byte) (vec strs : list (list Byte.byte)),
    linker_options_loop count buf vec = Some strs ↔
    ∃ new rest, strs = vec ++ new ∧ length new = count ∧
                Forall (λ s, Byte.x00 ∉ s) new ∧ buf = c_strings new ++ rest.
Proof.
  induction count as [|count IH]; intros buf vec strs; cbn [linker_options_loop].
  - split.
    + intros [= <-]. exists [], buf. rewrite app_nil_r. by repeat split.
    + intros (new & rest & -> & Hlen & _). apply nil_length_inv in Hlen as ->.
      by rewrite app_nil_r.
  - split.
    + destruct (read_c_string buf) as [[s rest1]|] eqn:Hread; [|done].
      apply read_c_string_spec in Hread as [Hnot ->].
      intros (new & rest & -> & Hlen & Hall & ->)%IH.
      exists (s :: new), rest. rewrite <- app_assoc. split; [done|].
      split; [cbn; lia|]. split; [by constructor|].
      unfold c_strings. cbn [mbind list_bind]. by rewrite <- !app_assoc.
    + intros (new & rest & -> & Hlen & Hall & ->).
      destruct new as [|s new]; [done|]. apply Forall_cons in Hall as [Hs Hall].
      assert (read_c_string (c_strings (s :: new) ++ rest)
              = Some (s, c_strings new ++ rest)) as ->.
      { apply read_c_string_spec. split; [done|].
        unfold c_strings. cbn [mbind list_bind]. by rewrite <- !app_assoc. }
      apply IH. exists new, rest. rewrite <- app_assoc. split; [done|].
      split; [cbn in Hlen; lia | done].
Qed.

(** X27: [get_linker_options] reads back what was laid out.  For an object
    that is not bitcode and has the load command, it returns the strings
    [strs] exactly when there are [count] of them, none holds a NUL, and the
    bytes behind the command begin with the strings one after the other,
    each followed by its terminator; anything may follow.  If the bytes run
    out before [count] terminators were seen, it reads past the end. *)
Theorem get_linker_options_round_trip (count : Z) (buf : list Byte.byte)
    (strs : list (list Byte.byte)) :
  get_linker_options false (Some (count, buf)) = Some strs ↔
  length strs = Z.to_nat count ∧ Forall (λ s, Byte.x00 ∉ s) strs ∧
  ∃ rest, buf = c_strings strs ++ rest.
Proof.
  unfold get_linker_options. rewrite linker_options_loop_spec. split.
  - intros (new & rest & -> & Hlen & Hall & ->). split; [done|]. split; [done|].
    by exists rest.
  - intros (Hlen & Hall & rest & ->). by exists strs, rest.
Qed.

(** ** Common symbols *)

Lemma owned_common_converted (this : FileId) (sub : SubsecPtr) (sym : Symbol.t) :
  owned_common this (converted_symbol sub sym) = false.
Proof. unfold owned_common, converted_symbol. cbn. apply andb_false_r. Qed.

Lemma convert_common_symbol_step (msym_p2align : MachSym → Z) (this : FileId)
    (o : ObjectFile) (i : nat) (st st' : CommonState) :
  convert_common_symbol msym_p2align this o i st = Some st' →
  ∃ msym p,
    mach_syms o !! i = Some msym ∧ InputFile.syms (obj_base o) !! i = Some p ∧
    ((owned_common this (cs_store st p) = false ∧ st' = st) ∨
     (owned_common this (cs_store st p) = true ∧
      st' = mkCommonState
              (<[p := converted_symbol (cs_next st) (cs_store st p)]> (cs_store st))
              (<[cs_next st := common_subsection msym_p2align (get_common_sec st).1 msym]>
                 (cs_heap st))
              (S (cs_next st))
              (cs_subsections st ++ [cs_next st])
              (cs_sections (get_common_sec st).2)
              (cs_common_sec (get_common_sec st).2))).
Proof.
  unfold convert_common_symbol. intros Hrun.
  destruct (mach_syms o !! i) as [msym|]; [|done].
  destruct (InputFile.syms (obj_base o) !! i) as [p|]; [|done].
  exists msym, p. split; [done|]. split; [done|].
  destruct (owned_common this (cs_store st p)) eqn:Hown.
  - right. split; [done|]. unfold get_common_sec in *.
    destruct (cs_common_sec st); cbn in Hrun |- *; by injection Hrun as <-.
  - left. by injection Hrun as <-.
Qed.

Lemma get_common_sec_spec (s : CommonState) :
  common_sec_ok s →
  cs_common_sec (get_common_sec s).2 = Some (get_common_sec s).1 ∧
  cs_sections (get_common_sec s).2 !! (get_common_sec s).1 = Some (Some common_hdr) ∧
  ((cs_common_sec s = Some (get_common_sec s).1 ∧
    cs_sections (get_common_sec s).2 = cs_sections s) ∨
   (cs_common_sec s = None ∧ (get_common_sec s).1 = length (cs_sections s) ∧
    cs_sections (get_common_sec s).2 = cs_sections s ++ [Some common_hdr])).
Proof.
  intros Hok. unfold get_common_sec.
  destruct (cs_common_sec s) as [isec|] eqn:Hsec; cbn [fst snd cs_common_sec cs_sections].
  - split; [done|]. split; [by apply Hok|]. by left.
  - split; [done|]. split; [|by right].
    by rewrite lookup_app_r, Nat.sub_diag by lia.
Qed.

Lemma convert_common_symbols_inv (msym_p2align : MachSym → Z) (this : FileId)
    (o : ObjectFile) (s s' : CommonState) :
  common_sec_ok s →
  convert_common_symbols msym_p2align this o s = Some s' →
  common_inv msym_p2align this o s (length (mach_syms o)) s'.
Proof.
  intros Hok Hrun.
  apply (for_range_inv _ (common_inv msym_p2align this o s) _ _ _ _) in Hrun; [done| |].
  { split; [done|]. split; [lia|]. split; [by left|].
    rewrite Nat.sub_diag. cbn [seq]. rewrite app_nil_r. split; [done|].
    split; [done|]. split; [by left|]. split; [intros j p Hj; lia|].
    intros p p' sub Hne. done. }
  intros i st st' _ (Hok1 & Hnext & Hsec & Hsubs & Hheap & Hsyms & Hdone & Hinj) Hstep.
  apply convert_common_symbol_step in Hstep
    as (msym & p & Hm & Hp & [[Hown ->]|[Hown ->]]).
  { split; [done|]. split; [done|]. split; [done|]. split; [done|]. split; [done|].
    split; [|split; [|done]].
    - intros q. destruct (Hsyms q) as [?|(j & m & sub & isec & Hj & H)]; [by left|].
      right. exists j, m, sub, isec. split; [lia | done].
    - intros j q Hj Hq. destruct (decide (j = i)) as [->|Hne].
      + rewrite Hp in Hq. by injection Hq as <-.
      + apply (Hdone j); [lia | done]. }
  destruct (get_common_sec_spec st Hok1) as (Hcs & Hlook & Hcase).
  assert (cs_store st p = cs_store s p) as Hsame.
  { destruct (Hsyms p) as [?|(j & m & sub & isec & _ & _ & _ & _ & Hconv & _)]; [done|].
    rewrite Hconv, owned_common_converted in Hown. done. }
  cbn [cs_store cs_heap cs_next cs_subsections cs_sections cs_common_sec].
  assert (∀ q sub, q ≠ p → cs_store st q ≠ cs_store s q →
            Symbol.subsec (cs_store st q) = Some sub → (sub < cs_next st)%nat) as Hold.
  { intros q sub _ Hq Hsub.
    destruct (Hsyms q) as [?|(j & m & sub' & isec & _ & _ & _ & _ & Hconv & Hr & _)];
      [done|].
    rewrite Hconv in Hsub. injection Hsub as <-. lia. }
  split; [|split; [|split; [|split; [|split; [|split; [|split]]]]]];
    cbn [cs_store cs_heap cs_next cs_subsections cs_sections cs_common_sec].
  - intros isec Hisec. rewrite Hcs in Hisec. by injection Hisec as <-.
  - lia.
  - destruct Hcase as [[Hc Hs]|(Hc & Hi & Hs)].
    + rewrite Hs, Hcs, <- Hc. done.
    + destruct Hsec as [[Hs0 Hc0]|(_ & _ & Hc0)]; [|congruence].
      right. rewrite Hs, Hcs, Hi, Hs0. split; [congruence | done].
  - rewrite Hsubs, <- app_assoc. f_equal.
    replace (S (cs_next st) - cs_next s)%nat with (S (cs_next st - cs_next s)) by lia.
    rewrite seq_S. do 2 f_equal. lia.
  - intros q Hq. rewrite fn_lookup_insert_ne by lia. by apply Hheap.
  - intros q. destruct (decide (q = p)) as [->|Hne].
    + right. exists i, msym, (cs_next st), (get_common_sec st).1.
      rewrite !fn_lookup_insert, <- Hsame. repeat split; try done; lia.
    + rewrite fn_lookup_insert_ne by done.
      destruct (Hsyms q) as [?|(j & m & sub & isec & Hj & Hmj & Hqj & Hq & Hconv & Hsub
                                & Hh & Hc)]; [by left|].
      right. exists j, m, sub, isec. rewrite fn_lookup_insert_ne by lia.
      repeat split; try done; try lia.
      rewrite Hcs. destruct Hcase as [[Hc' _]|[Hc' _]]; congruence.
  - intros j q Hj Hq. destruct (decide (q = p)) as [->|Hne].
    + rewrite fn_lookup_insert. apply owned_common_converted.
    + rewrite fn_lookup_insert_ne by done.
      destruct (decide (j = i)) as [->|Hji]; [congruence|].
      apply (Hdone j); [lia | done].
  - intros q q' sub. destruct (decide (q = p)) as [->|Hq], (decide (q' = p)) as [->|Hq'];
      [done| | |].
    + rewrite fn_lookup_insert, fn_lookup_insert_ne by done.
      intros _ Hch [= <-] Hsub. specialize (Hold q' _ Hq' Hch Hsub). lia.
    + rewrite fn_lookup_insert, fn_lookup_insert_ne by done.
      intros Hch _ Hsub [= <-]. specialize (Hold q _ Hq Hch Hsub). lia.
    + rewrite !fn_lookup_insert_ne by done. apply Hinj.
Qed.

(** X28: after [convert_common_symbols], none of the symbols of the file
    is both owned by it and common.  A symbol the file did not own, or that
    was not common, is as it was; of a symbol that is converted the name, the
    owner and the scope are kept, the value is 0, and it is neither common
    nor weak nor imported.  If the file owns no common symbol, nothing at all
    is changed: no subsection and no section is made. *)
Theorem convert_common_symbols_none_left (msym_p2align : MachSym → Z) (this : FileId)
    (o : ObjectFile) (s s' : CommonState) :
  common_sec_ok s →
  convert_common_symbols msym_p2align this o s = Some s' →
  (∀ i p, (i < length (mach_syms o))%nat → InputFile.syms (obj_base o) !! i = Some p →
          owned_common this (cs_store s' p) = false) ∧
  (∀ p, owned_common this (cs_store s p) = false → cs_store s' p = cs_store s p) ∧
  (∀ p, cs_store s' p = cs_store s p ∨
        ∃ sub, cs_store s' p = converted_symbol sub (cs_store s p)) ∧
  ((∀ i p, InputFile.syms (obj_base o) !! i = Some p →
           owned_common this (cs_store s p) = false) →
   s' = s).
Proof.
  intros Hok Hrun.
  pose proof (convert_common_symbols_inv _ _ _ _ _ Hok Hrun)
    as (_ & _ & _ & _ & _ & Hsyms & Hdone & _).
  split; [done|]. split; [|split].
  - intros p Hp. destruct (Hsyms p) as [?|(j & m & sub & isec & _ & _ & _ & Hown & _)];
      [done | congruence].
  - intros p. destruct (Hsyms p) as [?|(j & m & sub & isec & _ & _ & _ & _ & Hconv & _)];
      [by left | right; by exists sub].
  - intros Hnone. unfold convert_common_symbols in Hrun.
    apply (for_range_inv _ (λ _ st, st = s) _ _ _ _) in Hrun; [done | done|].
    intros i st st' _ -> Hstep.
    apply convert_common_symbol_step in Hstep
      as (msym & p & Hm & Hp & [[Hown ->]|[Hown ->]]); [done|].
    rewrite (Hnone i p Hp) in Hown. done.
Qed.

Lemma convert_common_symbols_none_left_witness :
  match convert_common_symbols cc_p2align 0%nat cc_obj cc_state with
  | Some s' =>
      (∀ i p, (i < length (mach_syms cc_obj))%nat →
              InputFile.syms (obj_base cc_obj) !! i = Some p →
              owned_common 0%nat (cs_store s' p) = false) ∧
      (∀ p, owned_common 0%nat (cs_store cc_state p) = false →
            cs_store s' p = cs_store cc_state p) ∧
      (∀ p, cs_store s' p = cs_store cc_state p ∨
            ∃ sub, cs_store s' p = converted_symbol sub (cs_store cc_state p)) ∧
      ((∀ i p, InputFile.syms (obj_base cc_obj) !! i = Some p →
               owned_common 0%nat (cs_store cc_state p) = false) →
       s' = cc_state)
  | None => False
  end.
Proof.
  destruct (convert_common_symbols cc_p2align 0%nat cc_obj cc_state) as [s'|] eqn:Hrun;
    [|vm_compute in Hrun; discriminate].
  apply (convert_common_symbols_none_left cc_p2align 0%nat cc_obj cc_state s');
    [|exact Hrun].
  intros isec Hisec. discriminate Hisec.
Defined.

(** X29: the subsections [convert_common_symbols] makes.  Every symbol of
    the file that it owned and that was common gets a subsection of its own:
    one that was not in use before, that is appended to [subsections], that
    lies in the section [__DATA,__common] of the file (made at the first
    need, of type zero-fill, and made once), and whose size is the value of
    the entry and whose alignment is that of the entry.  The subsections
    that were there before are as they were, and at most one section is
    added. *)
Theorem convert_common_symbols_subsections (msym_p2align : MachSym → Z)
    (this : FileId) (o : ObjectFile) (s s' : CommonState) :
  common_sec_ok s →
  convert_common_symbols msym_p2align this o s = Some s' →
  (∀ i p, (i < length (mach_syms o))%nat → InputFile.syms (obj_base o) !! i = Some p →
          owned_common this (cs_store s p) = true →
          ∃ j msym sub isec,
            mach_syms o !! j = Some msym ∧ InputFile.syms (obj_base o) !! j = Some p ∧
            Symbol.subsec (cs_store s' p) = Some sub ∧
            (cs_next s ≤ sub)%nat ∧ sub ∈ cs_subsections s' ∧
            cs_heap s' sub = common_subsection msym_p2align isec msym ∧
            cs_common_sec s' = Some isec ∧
            cs_sections s' !! isec = Some (Some common_hdr)) ∧
  (∀ p p' sub, cs_store s' p ≠ cs_store s p → cs_store s' p' ≠ cs_store s p' →
               Symbol.subsec (cs_store s' p) = Some sub →
               Symbol.subsec (cs_store s' p') = Some sub → p = p') ∧
  cs_subsections s' = cs_subsections s ++ seq (cs_next s) (cs_next s' - cs_next s) ∧
  (∀ q, (q < cs_next s)%nat → cs_heap s' q = cs_heap s q) ∧
  (cs_sections s' = cs_sections s ∨ cs_sections s' = cs_sections s ++ [Some common_hdr]).
Proof.
  intros Hok Hrun.
  pose proof (convert_common_symbols_inv _ _ _ _ _ Hok Hrun)
    as (Hok' & Hnext & Hsec & Hsubs & Hheap & Hsyms & Hdone & Hinj).
  split; [|split; [done|split; [done|split; [done|]]]].
  - intros i p Hi Hp Hown.
    destruct (Hsyms p) as [Hsame|(j & m & sub & isec & Hj & Hmj & Hpj & _ & Hconv & Hsub
                                  & Hh & Hc)].
    { specialize (Hdone i p Hi Hp). rewrite Hsame in Hdone. congruence. }
    exists j, m, sub, isec. rewrite Hconv. repeat split; try done; try lia.
    + rewrite Hsubs. apply elem_of_app. right. apply elem_of_seq. lia.
    + by apply Hok'.
  - destruct Hsec as [[? _]|(_ & ? & _)]; [by left | by right].
Qed.

Lemma convert_common_symbols_subsections_witness :
  match convert_common_symbols cc_p2align 0%nat cc_obj cc_state with
  | Some s' =>
      (∀ i p, (i < length (mach_syms cc_obj))%nat →
              InputFile.syms (obj_base cc_obj) !! i = Some p →
              owned_common 0%nat (cs_store cc_state p) = true →
              ∃ j msym sub isec,
                mach_syms cc_obj !! j = Some msym ∧
                InputFile.syms (obj_base cc_obj) !! j = Some p ∧
                Symbol.subsec (cs_store s' p) = Some sub ∧
                (cs_next cc_state ≤ sub)%nat ∧ sub ∈ cs_subsections s' ∧
                cs_heap s' sub = common_subsection cc_p2align isec msym ∧
                cs_common_sec s' = Some isec ∧
                cs_sections s' !! isec = Some (Some common_hdr)) ∧
      (∀ p p' sub, cs_store s' p ≠ cs_store cc_state p →
                   cs_store s' p' ≠ cs_store cc_state p' →
                   Symbol.subsec (cs_store s' p) = Some sub →
                   Symbol.subsec (cs_store s' p') = Some sub → p = p') ∧
      cs_subsections s' =
        cs_subsections cc_state ++ seq (cs_next cc_state) (cs_next s' - cs_next cc_state) ∧
      (∀ q, (q < cs_next cc_state)%nat → cs_heap s' q = cs_heap cc_state q) ∧
      (cs_sections s' = cs_sections cc_state ∨
       cs_sections s' = cs_sections cc_state ++ [Some common_hdr])
  | None => False
  end.
Proof.
  destruct (convert_common_symbols cc_p2align 0%nat cc_obj cc_state) as [s'|] eqn:Hrun;
    [|vm_compute in Hrun; discriminate].
  apply (convert_common_symbols_subsections cc_p2align 0%nat cc_obj cc_state s');
    [|exact Hrun].
  intros isec Hisec. discriminate Hisec.
Defined.

(** ** The subsections of a regular section *)

Lemma next_non_alt_upto (r : list SplitRegion.t) (k m : nat) :
  alt_between r k m ∨
  ∃ j c, (k < j < m)%nat ∧ r !! j = Some c ∧ SplitRegion.is_alt_entry c = false ∧
         alt_between r k j.
Proof.
  induction m as [|m IH].
  { left. intros m' x Hm'. lia. }
  destruct IH as [Halt|(j & c & Hj & Hc & Hca & Hb)].
  2:{ right. exists j, c. split; [lia | done]. }
  destruct (r !! m) as [c|] eqn:Hc.
  - destruct (SplitRegion.is_alt_entry c) eqn:Hca.
    + left. intros m' x Hm' Hx.
      destruct (decide (m' = m)) as [->|Hne]; [congruence|].
      apply (Halt m'); [lia | done].
    + destruct (decide (k < m)%nat) as [Hkm|Hkm].
      * right. exists m, c. split; [lia | done].
      * left. intros m' x Hm'. lia.
  - left. intros m' x Hm' Hx.
    destruct (decide (m' = m)) as [->|Hne]; [congruence|].
    apply (Halt m'); [lia | done].
Qed.

Lemma filter_drop_alt (l : list SplitRegion.t) :
  ∀ n k, (S k + n ≤ length l)%nat → alt_between l k (S k + n) →
    filter (λ r, SplitRegion.is_alt_entry r = false) (drop (S k) l) =
    filter (λ r, SplitRegion.is_alt_entry r = false) (drop (S k + n) l).
Proof.
  induction n as [|n IH]; intros k Hlen Halt.
  { by rewrite Nat.add_0_r. }
  destruct (lookup_lt_is_Some_2 l (S k)) as [x Hx]; [lia|].
  rewrite (drop_S _ _ _ Hx). rewrite filter_cons_False
    by (by rewrite (Halt (S k) x ltac:(lia) Hx)).
  replace (S k + S n)%nat with (S (S k) + n)%nat by lia.
  apply IH; [lia|]. intros m y Hm. apply Halt. lia.
Qed.

Lemma close_sizes_same (hdr_size : Z) (r : list SplitRegion.t) :
  length (close_sizes hdr_size r) = length r ∧
  ∀ m y, close_sizes hdr_size r !! m = Some y →
         ∃ x, r !! m = Some x ∧ same_but_size x y.
Proof.
  assert (length (close_sizes hdr_size r) = length r) as Hlen.
  { pose proof (close_sizes_keys hdr_size r) as H. apply (f_equal length) in H.
    by rewrite !length_fmap in H. }
  split; [done|]. intros m y Hy.
  destruct (lookup_lt_is_Some_2 r m) as [x Hx];
    [rewrite <- Hlen; by eapply lookup_lt_Some|].
  destruct (close_sizes_spec hdr_size r m x Hx) as (b & Hb & Hsame & _).
  rewrite Hy in Hb. injection Hb as <-. by exists x.
Qed.

Lemma close_sizes_tiles (isec : nat) (hdr_addr hdr_p2align hdr_size : Z)
    (r : list SplitRegion.t) :
  0 ≤ hdr_size < 2 ^ 32 → sorted_by_offset r →
  (∀ a, a ∈ r → 0 ≤ SplitRegion.offset a ≤ hdr_size) →
  ∀ n k a, (length r - k ≤ n)%nat → r !! k = Some a →
    SplitRegion.is_alt_entry a = false →
    tiles (SplitRegion.offset a)
          (region_subsections isec hdr_addr hdr_p2align (drop k (close_sizes hdr_size r)))
          hdr_size.
Proof.
  intros Hsize Hsorted Hrange. unfold region_subsections.
  destruct (close_sizes_same hdr_size r) as [Hlen3 Hflag].
  set (r3 := close_sizes hdr_size r) in *.
  induction n as [|n IH]; intros k a Hn Ha Halt.
  { apply lookup_lt_Some in Ha. lia. }
  pose proof (lookup_lt_Some _ _ _ Ha) as Hk.
  destruct (close_sizes_spec hdr_size r k a Ha) as (b & Hb & (Hoff & _ & Hbalt & _) & Hsz).
  fold r3 in Hb. destruct (Hsz Halt) as [Hnext Hlast].
  rewrite (drop_S _ _ _ Hb), filter_cons_True by congruence.
  rewrite fmap_cons. cbn [tiles add_subsection input_offset input_size].
  pose proof (Hrange a (list_elem_of_lookup_2 _ _ _ Ha)) as Hra.
  assert (u32 (SplitRegion.offset b) = SplitRegion.offset a) as ->
    by (rewrite Hoff; unfold u32; apply Z.mod_small; lia).
  split; [done|].
  destruct (next_non_alt_upto r k (length r)) as [Hall|(j & c & Hj & Hc & Hca & Hbetween)].
  - rewrite (Hlast Hall).
    assert (u32 (hdr_size - SplitRegion.offset a) = hdr_size - SplitRegion.offset a)
      as Hu by (unfold u32; apply Z.mod_small; lia).
    rewrite !Hu. split; [lia|].
    rewrite (filter_drop_alt r3 (length r3 - S k) k); [|lia|].
    + replace (S k + (length r3 - S k))%nat with (length r3) by lia.
      rewrite drop_all. cbn. lia.
    + intros m y Hm Hy. destruct (Hflag m y Hy) as (x & Hx & _ & _ & -> & _).
      apply (Hall m); [lia | done].
  - rewrite (Hnext j c ltac:(lia) Hc Hca Hbetween).
    pose proof (Hrange c (list_elem_of_lookup_2 _ _ _ Hc)) as Hrc.
    pose proof (Hsorted k j a c ltac:(lia) Ha Hc) as Hle.
    assert (u32 (SplitRegion.offset c - SplitRegion.offset a)
            = SplitRegion.offset c - SplitRegion.offset a)
      as Hu by (unfold u32; apply Z.mod_small; lia).
    rewrite !Hu. split; [lia|].
    rewrite (filter_drop_alt r3 (j - S k) k); [|lia|].
    + replace (S k + (j - S k))%nat with j by lia.
      replace (SplitRegion.offset a + (SplitRegion.offset c - SplitRegion.offset a))
        with (SplitRegion.offset c) by lia.
      apply (IH j c); [lia | done | done].
    + intros m y Hm Hy. destruct (Hflag m y Hy) as (x & Hx & _ & _ & -> & _).
      apply (Hbetween m); [lia | done].
Qed.

Lemma fix_regions_pre (hdr_size : Z) (r0 : list SplitRegion.t) :
  r0 ≠ [] →
  (∀ a, a ∈ r0 → 0 ≤ SplitRegion.offset a ≤ hdr_size) →
  ∃ r2, fix_regions hdr_size r0 = close_sizes hdr_size r2 ∧ sorted_by_offset r2 ∧
        (∀ a, a ∈ r2 → 0 ≤ SplitRegion.offset a ≤ hdr_size) ∧
        ∃ a0, r2 !! 0%nat = Some a0 ∧ SplitRegion.offset a0 = 0.
Proof.
  intros Hne Hrange. unfold fix_regions. destruct r0 as [|x0 r0'] eqn:Hr; [done|].
  rewrite <- Hr in *. clear Hne.
  set (less := λ a b : SplitRegion.t, SplitRegion.offset a <? SplitRegion.offset b).
  set (r1 := sort less r0).
  assert (r1 ≡ₚ r0) as Hperm by apply sort_perm.
  assert (StronglySorted (λ a b, less b a = false) r1) as Hsorted.
  { apply (sort_sorted less (λ _, True)).
    - intros a b _ _ H. unfold less in *. apply Z.ltb_lt in H. apply Z.ltb_ge. lia.
    - intros a b c _ _ _ H1 H2. unfold less in *.
      apply Z.ltb_ge in H1, H2. apply Z.ltb_ge. lia.
    - by apply Forall_forall. }
  assert (∀ a, a ∈ r1 → 0 ≤ SplitRegion.offset a ≤ hdr_size) as Hrange1.
  { intros a Ha. apply Hrange. by rewrite <- Hperm. }
  set (r2 := match r1 with
             | a :: _ =>
                 if 0 <? SplitRegion.offset a then
                   SplitRegion.mk 0 (SplitRegion.offset a) NO_SYMBOL false :: r1
                 else r1
             | [] => r1
             end).
  assert (StronglySorted (λ a b, less b a = false) r2 ∧
          (∀ a, a ∈ r2 → 0 ≤ SplitRegion.offset a ≤ hdr_size) ∧
          ∃ a0, r2 !! 0%nat = Some a0 ∧ SplitRegion.offset a0 = 0)
    as (Hsorted2 & Hrange2 & a0 & Ha0 & Hzero).
  { unfold r2. destruct r1 as [|a r1'] eqn:Hr1.
    { exfalso. apply Permutation_nil_l in Hperm. by rewrite Hr in Hperm. }
    pose proof (Hrange1 a (list_elem_of_here _ _)) as Hra.
    destruct (0 <? SplitRegion.offset a) eqn:Hgt.
    - split; [|split].
      + constructor; [done|]. apply Forall_forall. intros b Hb. unfold less. cbn.
        apply Z.ltb_ge. by apply Hrange1.
      + intros b [->|Hb]%elem_of_cons; [cbn; lia | by apply Hrange1].
      + by eexists.
    - split; [done|]. split; [done|]. exists a. split; [done|].
      apply Z.ltb_ge in Hgt. lia. }
  destruct (promote_alt_entries_rel (length r2) 1 r2 ltac:(lia)) as [Hlen Hrel].
  exists (promote_alt_entries (length r2) 1 r2). split; [done|].
  assert (∀ m y, promote_alt_entries (length r2) 1 r2 !! m = Some y →
            ∃ x, r2 !! m = Some x ∧ SplitRegion.offset y = SplitRegion.offset x) as Hback.
  { intros m y Hy. destruct (lookup_lt_is_Some_2 r2 m) as [x Hx];
      [rewrite <- Hlen; by eapply lookup_lt_Some|].
    destruct (Hrel m x Hx) as (b & Hb & (Hoff & _) & _).
    rewrite Hy in Hb. injection Hb as <-. by exists x. }
  split; [|split].
  - intros i j a b Hij Ha Hb.
    destruct (Hback i a Ha) as (xa & Hxa & ->). destruct (Hback j b Hb) as (xb & Hxb & ->).
    pose proof (StronglySorted_lookup _ r2 i j xa xb Hsorted2 Hij Hxa Hxb) as Hle.
    unfold less in Hle. by apply Z.ltb_ge in Hle.
  - intros a [m Hm]%list_elem_of_lookup_1. destruct (Hback m a Hm) as (x & Hx & ->).
    apply Hrange2. by eapply list_elem_of_lookup_2.
  - destruct (Hrel 0%nat a0 Ha0) as (b & Hb & (Hoff & _) & _).
    exists b. split; [done | congruence].
Qed.

Lemma region_subsections_app (isec : nat) (hdr_addr hdr_p2align : Z)
    (l1 l2 : list SplitRegion.t) :
  region_subsections isec hdr_addr hdr_p2align (l1 ++ l2) =
    region_subsections isec hdr_addr hdr_p2align l1 ++
    region_subsections isec hdr_addr hdr_p2align l2.
Proof. unfold region_subsections. by rewrite filter_app, fmap_app. Qed.

Lemma region_subsections_one (isec : nat) (hdr_addr hdr_p2align : Z) (r : SplitRegion.t) :
  region_subsections isec hdr_addr hdr_p2align [r] =
    if SplitRegion.is_alt_entry r then []
    else [add_subsection isec hdr_addr (SplitRegion.offset r) (SplitRegion.size r)
                         hdr_p2align].
Proof.
  unfold region_subsections. destruct (SplitRegion.is_alt_entry r) eqn:Halt.
  - rewrite filter_cons_False by (by rewrite Halt). done.
  - rewrite filter_cons_True by done. done.
Qed.

Lemma add_region_spec (isec : nat) (hdr_addr hdr_p2align : Z) (r : SplitRegion.t)
    (subs subs' : list Subsection) (s2s s2s' : list (option nat)) :
  add_region isec hdr_addr hdr_p2align r (subs, s2s) = Some (subs', s2s') →
  subs' = subs ++ region_subsections isec hdr_addr hdr_p2align [r] ∧
  length s2s' = length s2s ∧
  ((SplitRegion.symidx r = NO_SYMBOL ∧ s2s' = s2s) ∨
   (SplitRegion.symidx r ≠ NO_SYMBOL ∧ subs' ≠ [] ∧ (slot r < length s2s)%nat ∧
    s2s' = <[slot r := Some (pred (length subs'))]> s2s)).
Proof.
  unfold add_region. rewrite region_subsections_one. cbn [fst snd].
  assert ((if SplitRegion.is_alt_entry r then subs
           else subs ++ [add_subsection isec hdr_addr (SplitRegion.offset r)
                                        (SplitRegion.size r) hdr_p2align])
          = subs ++ (if SplitRegion.is_alt_entry r then []
                     else [add_subsection isec hdr_addr (SplitRegion.offset r)
                                          (SplitRegion.size r) hdr_p2align])) as ->
    by (destruct (SplitRegion.is_alt_entry r); by rewrite ?app_nil_r).
  set (subs1 := subs ++ _).
  destruct (SplitRegion.symidx r =? NO_SYMBOL) eqn:Hsym.
  - apply Z.eqb_eq in Hsym. intros [= <- <-]. split; [done|]. split; [done|]. by left.
  - apply Z.eqb_neq in Hsym. destruct subs1 as [|s0 subs1'] eqn:Hsubs1; [done|].
    case_bool_decide as Hslot; [|done]. intros [= <- <-].
    split; [done|]. rewrite length_insert. split; [done|]. right. by repeat split.
Qed.

Lemma add_regions_frame (isec : nat) (hdr_addr hdr_p2align : Z) (i : nat) :
  ∀ rs subs s2s subs' s2s',
    add_regions isec hdr_addr hdr_p2align rs (subs, s2s) = Some (subs', s2s') →
    (∀ j r', rs !! j = Some r' → SplitRegion.symidx r' ≠ NO_SYMBOL → slot r' ≠ i) →
    s2s' !! i = s2s !! i.
Proof.
  induction rs as [|r0 rs IH]; intros subs s2s subs' s2s' Hrun Hfree.
  { by injection Hrun as <- <-. }
  cbn [add_regions] in Hrun.
  destruct (add_region isec hdr_addr hdr_p2align r0 (subs, s2s)) as [[subs1 s2s1]|] eqn:Hstep;
    [|done].
  apply add_region_spec in Hstep as (_ & _ & Hcase).
  rewrite (IH _ _ _ _ Hrun) by (intros j r' Hj; apply (Hfree (S j) r' Hj)).
  destruct Hcase as [[_ ->]|(Hsym & _ & _ & ->)]; [done|].
  apply list_lookup_insert_ne. by apply (Hfree 0%nat r0).
Qed.

Lemma add_regions_spec (isec : nat) (hdr_addr hdr_p2align : Z) :
  ∀ rs subs s2s subs' s2s',
    add_regions isec hdr_addr hdr_p2align rs (subs, s2s) = Some (subs', s2s') →
    subs' = subs ++ region_subsections isec hdr_addr hdr_p2align rs ∧
    ∀ k r, rs !! k = Some r → SplitRegion.symidx r ≠ NO_SYMBOL →
      (∀ j r', (k < j)%nat → rs !! j = Some r' →
               SplitRegion.symidx r' ≠ NO_SYMBOL → slot r' ≠ slot r) →
      subs ++ region_subsections isec hdr_addr hdr_p2align (take (S k) rs) ≠ [] ∧
      s2s' !! slot r =
        Some (Some (pred (length (subs ++ region_subsections isec hdr_addr hdr_p2align
                                            (take (S k) rs))))).
Proof.
  induction rs as [|r0 rs IH]; intros subs s2s subs' s2s' Hrun.
  { injection Hrun as <- <-. unfold region_subsections. cbn. by rewrite app_nil_r. }
  cbn [add_regions] in Hrun.
  destruct (add_region isec hdr_addr hdr_p2align r0 (subs, s2s)) as [[subs1 s2s1]|] eqn:Hstep;
    [|done].
  apply add_region_spec in Hstep as (Hsubs1 & Hlen1 & Hcase).
  pose proof (add_regions_frame _ _ _ (slot r0) _ _ _ _ _ Hrun) as Hframe.
  apply IH in Hrun as (-> & Hsyms).
  change (r0 :: rs) with ([r0] ++ rs).
  rewrite region_subsections_app, app_assoc, <- Hsubs1. split; [done|].
  intros [|k] r Hr Hsym Huniq.
  - injection Hr as <-. cbn [firstn app]. rewrite take_0, <- Hsubs1.
    destruct Hcase as [[? _]|(_ & Hne & Hslot & ->)]; [done|]. split; [done|].
    rewrite Hframe by (intros j r' Hj; apply (Huniq (S j) r'); [lia | done]).
    by apply list_lookup_insert_eq.
  - cbn in Hr. destruct (Hsyms k r Hr Hsym) as [Hne Hlook].
    { intros j r' Hj Hr'. apply (Huniq (S j) r'); [lia | done]. }
    change (take (S (S k)) ([r0] ++ rs)) with ([r0] ++ take (S k) rs).
    rewrite region_subsections_app, app_assoc, <- Hsubs1. done.
Qed.

Lemma last_non_alt (rs : list SplitRegion.t) (a0 : SplitRegion.t) :
  rs !! 0%nat = Some a0 → SplitRegion.is_alt_entry a0 = false →
  ∀ k, (k < length rs)%nat →
    ∃ m c, (m ≤ k)%nat ∧ rs !! m = Some c ∧ SplitRegion.is_alt_entry c = false ∧
           (∀ m' x, (m < m' ≤ k)%nat → rs !! m' = Some x →
                    SplitRegion.is_alt_entry x = true) ∧
           filter (λ r, SplitRegion.is_alt_entry r = false) (take (S k) rs) =
             filter (λ r, SplitRegion.is_alt_entry r = false) (take m rs) ++ [c].
Proof.
  intros Ha0 Halt0. induction k as [|k IH]; intros Hk.
  - exists 0%nat, a0. split; [lia|]. split; [done|]. split; [done|].
    split; [intros m' x Hm'; lia|].
    rewrite (take_S_r _ _ _ Ha0), filter_app, take_0.
    by rewrite (filter_cons_True _ a0 []).
  - destruct (lookup_lt_is_Some_2 rs (S k) Hk) as [x Hx].
    rewrite (take_S_r _ _ _ Hx), filter_app.
    destruct (SplitRegion.is_alt_entry x) eqn:Halt.
    + destruct (IH ltac:(lia)) as (m & c & Hm & Hc & Hca & Hbetween & Hfilter).
      exists m, c. split; [lia|]. split; [done|]. split; [done|]. split.
      * intros m' y Hm' Hy. destruct (decide (m' = S k)) as [->|Hne]; [congruence|].
        apply (Hbetween m'); [lia | done].
      * rewrite Hfilter, filter_cons_False by (by rewrite Halt). by rewrite app_nil_r.
    + exists (S k), x. split; [lia|]. split; [done|]. split; [done|].
      split; [intros m' y Hm'; lia|]. by rewrite (filter_cons_True _ x []).
Qed.

Lemma add_regions_symbols (isec : nat) (hdr_addr hdr_p2align hdr_size : Z)
    (rs : list SplitRegion.t) (a0 : SplitRegion.t)
    (subs subs' : list Subsection) (s2s s2s' : list (option nat)) :
  0 ≤ hdr_size < 2 ^ 32 → sorted_by_offset rs →
  (∀ a, a ∈ rs → 0 ≤ SplitRegion.offset a ≤ hdr_size) →
  rs !! 0%nat = Some a0 → SplitRegion.is_alt_entry a0 = false →
  add_regions isec hdr_addr hdr_p2align rs (subs, s2s) = Some (subs', s2s') →
  ∀ k r, rs !! k = Some r → SplitRegion.symidx r ≠ NO_SYMBOL →
    (∀ j r', (k < j)%nat → rs !! j = Some r' →
             SplitRegion.symidx r' ≠ NO_SYMBOL → slot r' ≠ slot r) →
    ∃ i s, s2s' !! slot r = Some (Some (length subs + i)%nat) ∧
           region_subsections isec hdr_addr hdr_p2align rs !! i = Some s ∧
           input_offset s ≤ SplitRegion.offset r ∧
           (SplitRegion.is_alt_entry r = false → input_offset s = SplitRegion.offset r).
Proof.
  intros Hsize Hsorted Hrange Ha0 Halt0 Hrun k r Hr Hsym Huniq.
  apply add_regions_spec in Hrun as (_ & Hsyms).
  destruct (Hsyms k r Hr Hsym Huniq) as [_ Hlook].
  destruct (last_non_alt rs a0 Ha0 Halt0 k (lookup_lt_Some _ _ _ Hr))
    as (m & c & Hm & Hc & Hca & Hbetween & Hfilter).
  assert (region_subsections isec hdr_addr hdr_p2align (take (S k) rs) =
          region_subsections isec hdr_addr hdr_p2align (take m rs) ++
          [add_subsection isec hdr_addr (SplitRegion.offset c) (SplitRegion.size c)
                          hdr_p2align]) as Htake.
  { unfold region_subsections. by rewrite Hfilter, fmap_app. }
  exists (length (region_subsections isec hdr_addr hdr_p2align (take m rs))),
         (add_subsection isec hdr_addr (SplitRegion.offset c) (SplitRegion.size c)
                         hdr_p2align).
  split; [|split].
  - rewrite Hlook, Htake. do 2 f_equal. rewrite !length_app. cbn. lia.
  - assert (region_subsections isec hdr_addr hdr_p2align rs =
            region_subsections isec hdr_addr hdr_p2align (take (S k) rs) ++
            region_subsections isec hdr_addr hdr_p2align (drop (S k) rs)) as ->
      by (by rewrite <- region_subsections_app, take_drop).
    rewrite Htake, <- app_assoc. by apply list_lookup_middle.
  - cbn [add_subsection input_offset].
    pose proof (Hrange c (list_elem_of_lookup_2 _ _ _ Hc)) as Hrc.
    assert (u32 (SplitRegion.offset c) = SplitRegion.offset c) as ->
      by (unfold u32; apply Z.mod_small; lia).
    destruct (decide (m = k)) as [->|Hne].
    + rewrite Hr in Hc. injection Hc as <-. split; [lia | done].
    + split; [apply (Hsorted m k c r); [lia | done | done]|].
      intros Hralt. rewrite (Hbetween k r ltac:(lia) Hr) in Hralt. done.
Qed.

(** X30: the subsections of a regular section.  For the regions of a
    section of less than 2^32 bytes as [fix_regions] leaves them (the offsets
    lying within the section, and the first region not being an alternative
    entry), the loop of [split_subsections_via_symbols] appends subsections
    that lie back to back from offset 0 to the end of the section.  Every
    region with a symbol (no later region writing the same slot) gets in
    [sym_to_subsec] one of these subsections, which starts at or before the
    offset of the region, and exactly at it if the region is not an
    alternative entry. *)
Theorem split_regular_section (isec : nat) (hdr_addr hdr_p2align hdr_size : Z)
    (r0 : list SplitRegion.t) (subs subs' : list Subsection)
    (s2s s2s' : list (option nat)) :
  0 ≤ hdr_size < 2 ^ 32 →
  (∀ a, a ∈ r0 → 0 ≤ SplitRegion.offset a ≤ hdr_size) →
  (∀ a, fix_regions hdr_size r0 !! 0%nat = Some a → SplitRegion.is_alt_entry a = false) →
  add_regions isec hdr_addr hdr_p2align (fix_regions hdr_size r0) (subs, s2s)
    = Some (subs', s2s') →
  ∃ new,
    subs' = subs ++ new ∧ tiles 0 new hdr_size ∧
    ∀ k r, fix_regions hdr_size r0 !! k = Some r → SplitRegion.symidx r ≠ NO_SYMBOL →
      (∀ j r', (k < j)%nat → fix_regions hdr_size r0 !! j = Some r' →
               SplitRegion.symidx r' ≠ NO_SYMBOL → slot r' ≠ slot r) →
      ∃ i s, s2s' !! slot r = Some (Some (length subs + i)%nat) ∧ new !! i = Some s ∧
             input_offset s ≤ SplitRegion.offset r ∧
             (SplitRegion.is_alt_entry r = false → input_offset s = SplitRegion.offset r).
Proof.
  intros Hsize Hrange Hhead Hrun.
  exists (region_subsections isec hdr_addr hdr_p2align (fix_regions hdr_size r0)).
  pose proof (add_regions_spec _ _ _ _ _ _ _ _ Hrun) as [Hsubs _]. split; [done|].
  assert (u32 hdr_size = hdr_size) as Hu by (unfold u32; apply Z.mod_small; lia).
  destruct r0 as [|x0 r0'] eqn:Hr0.
  { split.
    - unfold fix_regions, region_subsections.
      rewrite filter_cons_True by done. cbn. rewrite !Hu. by repeat split; try lia.
    - intros [|k] r Hr Hsym; [|done]. injection Hr as <-. done. }
  rewrite <- Hr0 in *.
  destruct (fix_regions_pre hdr_size r0) as (r2 & Hfix & Hsorted & Hrange2 & a0 & Ha0 & Hzero);
    [by rewrite Hr0 | done|].
  destruct (close_sizes_same hdr_size r2) as [Hlen3 Hsame].
  rewrite Hfix in *.
  assert (∃ b0, close_sizes hdr_size r2 !! 0%nat = Some b0 ∧
                SplitRegion.is_alt_entry b0 = false) as (b0 & Hb0 & Hb0alt).
  { destruct (close_sizes_spec hdr_size r2 0 a0 Ha0) as (b0 & Hb0 & _).
    exists b0. split; [done | by apply Hhead]. }
  assert (SplitRegion.is_alt_entry a0 = false) as Ha0alt.
  { destruct (Hsame 0%nat b0 Hb0) as (x & Hx & _ & _ & Halt & _).
    rewrite Ha0 in Hx. injection Hx as <-. congruence. }
  split.
  - pose proof (close_sizes_tiles isec hdr_addr hdr_p2align hdr_size r2 Hsize Hsorted
                  Hrange2 (length r2) 0 a0 ltac:(lia) Ha0 Ha0alt) as Ht.
    by rewrite drop_0, Hzero in Ht.
  - intros k r Hr Hsym Huniq.
    apply (add_regions_symbols isec hdr_addr hdr_p2align hdr_size
             (close_sizes hdr_size r2) b0 subs subs' s2s s2s') with (k := k); try done.
    + intros i j a b Hij Ha Hb.
      destruct (Hsame i a Ha) as (xa & Hxa & -> & _).
      destruct (Hsame j b Hb) as (xb & Hxb & -> & _).
      by apply (Hsorted i j).
    + intros a [m Hm]%list_elem_of_lookup_1.
      destruct (Hsame m a Hm) as (x & Hx & -> & _).
      apply Hrange2. by eapply list_elem_of_lookup_2.
Qed.

Lemma split_regular_section_witness :
  match add_regions 0 0 2 (fix_regions 16 regions_8_4_8alt) ([], [None; None; None]) with
  | Some (subs', s2s') =>
      ∃ new,
        subs' = [] ++ new ∧ tiles 0 new 16 ∧
        ∀ k r, fix_regions 16 regions_8_4_8alt !! k = Some r →
          SplitRegion.symidx r ≠ NO_SYMBOL →
          (∀ j r', (k < j)%nat → fix_regions 16 regions_8_4_8alt !! j = Some r' →
                   SplitRegion.symidx r' ≠ NO_SYMBOL → slot r' ≠ slot r) →
          ∃ i s, s2s' !! slot r = Some (Some (length (@nil Subsection) + i)%nat) ∧
                 new !! i = Some s ∧
                 input_offset s ≤ SplitRegion.offset r ∧
                 (SplitRegion.is_alt_entry r = false →
                  input_offset s = SplitRegion.offset r)
  | None => False
  end.
Proof.
  destruct (add_regions 0 0 2 (fix_regions 16 regions_8_4_8alt) ([], [None; None; None]))
    as [[subs' s2s']|] eqn:Hrun; [|vm_compute in Hrun; discriminate].
  apply (split_regular_section 0 0 2 16 regions_8_4_8alt [] subs' [None; None; None] s2s');
    [lia | | |exact Hrun].
  - intros a Ha.
    apply elem_of_cons in Ha as [->|Ha]; [cbn; lia|].
    apply elem_of_cons in Ha as [->|Ha]; [cbn; lia|].
    apply list_elem_of_singleton in Ha as ->. cbn. lia.
  - intros a Ha. vm_compute in Ha. injection Ha as <-. reflexivity.
Defined.
